(** * cytube-playlist-sort-bot: the queue mirror and its reconciliation

    A shallow embedding of [src/index.ts]: the playlist mirror
    ([context.VideoQueue]), the round-robin sorter
    ([roundRobinSortVideos]), the move generator ([sortCytube]), the
    echo map ([context.moveVideoRefCounter]) and the socket handlers that
    tie them together.

    Conventions.
    - A JavaScript [number] that holds a uid or an array index is a [Z];
      [findIndex] answers [-1] when nothing matches and [splice] accepts a
      negative start, both as in JavaScript.
    - A JavaScript array is a [list]; the insertion-ordered [Map] built by
      [roundRobinSortVideos] is an association list (order matters there);
      the echo map, which is only looked up by key, is a [gmap].
    - A [moveVideo] notification is the object as it arrives, the list
      of its properties in the object's order: [onMoveVideoCallback]
      looks the echo map up with the [JSON.stringify] text of that
      object, so the order of the properties and any property besides
      [from] and [after] count. Properties hold numbers; a number is
      printed in decimal notation, which is what [JSON.stringify] prints
      for the integers a double holds exactly.
    - A function that may dereference [undefined] returns an [option];
      [None] stands for the [TypeError] JavaScript raises.
    - A handler returns an [outcome]: it either returns with the new
      context and the effects it performed, in order, or it throws. No
      caller catches, so nothing is said about the context after a throw.
    - The chat side ([onChatMsgCallback], the command table, ranks and
      login) works on a [BotContext], which wraps the context of the
      queue side; a rank is a [Q], text is ASCII, and [process.exit] is
      an outcome of its own. *)

From Stdlib Require Import ZArith QArith String Ascii.
From stdpp Require Import base numbers option list gmap strings pretty.

Local Open Scope Z_scope.

(** ** JavaScript array primitives *)

Module Js.

Section Arrays.
Context {A : Type}.

(** [Array.prototype.findIndex], scanning from index [i]. *)
Fixpoint findIndexFrom (p : A → bool) (i : Z) (l : list A) : Z :=
  match l with
  | [] => -1
  | x :: l' => if p x then i else findIndexFrom p (i + 1) l'
  end.

Definition findIndex (p : A → bool) (l : list A) : Z := findIndexFrom p 0 l.

(** [arr[i]]: [undefined] (here [None]) outside [0 .. length-1]. *)
Definition get (l : list A) (i : Z) : option A :=
  if i <? 0 then None else l !! Z.to_nat i.

(** [Array.prototype.splice(start, deleteCount, ...items)]: a negative
    [start] counts from the end, both arguments are clamped to the
    array. The result is the removed elements and the array afterwards. *)
Definition splice (l : list A) (start deleteCount : Z) (items : list A)
  : list A * list A :=
  let len := Z.of_nat (length l) in
  let relStart := if start <? 0 then Z.max (len + start) 0 else Z.min start len in
  let delCount := Z.min (Z.max deleteCount 0) (len - relStart) in
  let s := Z.to_nat relStart in
  let d := Z.to_nat delCount in
  (take d (drop s l), take s l ++ items ++ drop (s + d) l).
End Arrays.

(** [String.prototype.toLowerCase], on ASCII text. *)
Definition lowerAscii (c : ascii) : ascii :=
  let n := nat_of_ascii c in
  if ((65 <=? n)%nat && (n <=? 90)%nat)%bool then ascii_of_nat (n + 32) else c.

Fixpoint toLowerCase (s : string) : string :=
  match s with
  | EmptyString => EmptyString
  | String c s' => String (lowerAscii c) (toLowerCase s')
  end.

Fixpoint startsWith (s t : string) : bool :=
  match t, s with
  | EmptyString, _ => true
  | String _ _, EmptyString => false
  | String b t', String a s' => if Ascii.eqb a b then startsWith s' t' else false
  end.

(** [String.prototype.includes]: [t] occurs in [s] at some offset. *)
Fixpoint includes (s t : string) : bool :=
  if startsWith s t then true
  else match s with
       | EmptyString => false
       | String _ s' => includes s' t
       end.

End Js.

Arguments Js.findIndex : simpl never.
Arguments Js.get : simpl never.
Arguments Js.splice : simpl never.

(** ** Data model *)

Record Media := {
  id : string;
  title : string;
  seconds : Z;
  duration : string;
  type : string
}.

Record PlaylistItem := {
  media : Media;
  uid : Z;
  temp : bool;
  queueby : string
}.

Record MoveVideoResponse := { from : Z; after : Z }.

(** [QueueResponse.after] is [string | number]. *)
Inductive AfterRef :=
| AfterString (s : string)
| AfterNumber (n : Z).

Record QueueResponse := { item : PlaylistItem; q_after : AfterRef }.

(** The part of [Context] the handlers below read or write. [Config],
    [Socket], [botSessionId], [readyHandleMessages] and [userRankMap]
    belong to login and chat and are left out. *)
Record Context := {
  VideoQueue : list PlaylistItem;
  loginSuccess : bool;
  moveVideoRefCounter : gmap string bool;
  isAutoSortEnabled : bool
}.

Definition withVideoQueue (c : Context) (q : list PlaylistItem) : Context :=
  {| VideoQueue := q; loginSuccess := loginSuccess c;
     moveVideoRefCounter := moveVideoRefCounter c;
     isAutoSortEnabled := isAutoSortEnabled c |}.

Definition withRefCounter (c : Context) (m : gmap string bool) : Context :=
  {| VideoQueue := VideoQueue c; loginSuccess := loginSuccess c;
     moveVideoRefCounter := m;
     isAutoSortEnabled := isAutoSortEnabled c |}.

Definition withAutoSort (c : Context) (b : bool) : Context :=
  {| VideoQueue := VideoQueue c; loginSuccess := loginSuccess c;
     moveVideoRefCounter := moveVideoRefCounter c;
     isAutoSortEnabled := b |}.

(** What a handler does to the outside, in the order it does it. *)
Inductive SocketEmit :=
| moveMedia (data : MoveVideoResponse)
| requestPlaylist.

Inductive Effect :=
| RefSet (key : string)          (* moveVideoRefCounter.set(key, true) *)
| RefDelete (key : string)       (* moveVideoRefCounter.delete(key) *)
| Emit (e : SocketEmit)          (* emitProxy(event, data) *)
| ConsoleError (msg : string).   (* console.error(msg) *)

Inductive Thrown :=
| TypeError
| Error (msg : string).

Inductive outcome :=
| Returned (c : Context) (log : list Effect)
| Threw (e : Thrown).

(** The relocation commands among a handler's effects. *)
Definition dispatched (log : list Effect) : list MoveVideoResponse :=
  omap (λ e, match e with Emit (moveMedia d) => Some d | _ => None end) log.

Definition resyncRequested (log : list Effect) : bool :=
  existsb (λ e, match e with Emit requestPlaylist => true | _ => false end) log.

(** ** [roundRobinSortVideos] *)

(** The insertion-ordered [Map<string, PlaylistItem[]>]. *)
Module JsMap.
Definition t := list (string * list PlaylistItem).

Fixpoint get (k : string) (m : t) : option (list PlaylistItem) :=
  match m with
  | [] => None
  | (k', v) :: m' => if String.eqb k' k then Some v else get k m'
  end.

(** [set] keeps the position of a key that is already there and appends
    a new one. *)
Fixpoint set (k : string) (v : list PlaylistItem) (m : t) : t :=
  match m with
  | [] => [(k, v)]
  | (k', v') :: m' =>
      if String.eqb k' k then (k', v) :: m' else (k', v') :: set k v m'
  end.

Definition keys (m : t) : list string := m.*1.
Definition values (m : t) : list (list PlaylistItem) := m.*2.
End JsMap.

(** [queue.forEach(video => map.set(video.queueby, []))] *)
Definition initUsers (queue : list PlaylistItem) (m : JsMap.t) : JsMap.t :=
  foldl (λ m video, JsMap.set (queueby video) [] m) m queue.

(** [queue.forEach(video => map.get(video.queueby)!.push(video))] *)
Fixpoint pushVideos (queue : list PlaylistItem) (m : JsMap.t) : option JsMap.t :=
  match queue with
  | [] => Some m
  | video :: queue' =>
      match JsMap.get (queueby video) m with
      | None => None
      | Some videos => pushVideos queue' (JsMap.set (queueby video) (videos ++ [video]) m)
      end
  end.

(** The inner [for (const userName of userNames)] loop: one round. *)
Fixpoint takeRound (userNames : list string) (m : JsMap.t)
  : option (JsMap.t * list PlaylistItem) :=
  match userNames with
  | [] => Some (m, [])
  | userName :: rest =>
      match JsMap.get userName m with
      | None => None
      | Some [] => takeRound rest m
      | Some (video :: videos) =>
          match takeRound rest (JsMap.set userName videos m) with
          | None => None
          | Some (m', sorted) => Some (m', video :: sorted)
          end
      end
  end.

(** The outer [for (let _ = 0; _ < maxVideos; _++)] loop. *)
Fixpoint takeRounds (n : nat) (userNames : list string) (m : JsMap.t)
  : option (list PlaylistItem) :=
  match n with
  | O => Some []
  | S n' =>
      match takeRound userNames m with
      | None => None
      | Some (m', round) =>
          match takeRounds n' userNames m' with
          | None => None
          | Some sorted => Some (round ++ sorted)
          end
      end
  end.

(** [Math.max(...lengths)]; on no arguments JavaScript gives [-Infinity],
    under which the loop runs as often as under [0]: not at all. *)
Definition maxLength (vs : list (list PlaylistItem)) : nat :=
  max_list_with length vs.

Definition roundRobinSortVideos (context : Context) : option (list PlaylistItem) :=
  let userToVideoListMap := initUsers (VideoQueue context) [] in
  match pushVideos (VideoQueue context) userToVideoListMap with
  | None => None
  | Some userToVideoListMap =>
      let maxVideos := maxLength (JsMap.values userToVideoListMap) in
      let userNames := JsMap.keys userToVideoListMap in
      takeRounds maxVideos userNames userToVideoListMap
  end.

(** ** [sortCytube] *)

Definition dquote : string := String (ascii_of_nat 34) EmptyString.

(** [JSON.stringify] of the object that the literal
    [{ from: sortedUid, after: prevSortedUid }] builds, with the number
    fields [from] and [after] in that order and no others: the text
    [{"from":F,"after":A}]. *)
Definition JSON_stringify (data : MoveVideoResponse) : string :=
  "{" +:+ dquote +:+ "from" +:+ dquote +:+ ":" +:+ pretty (from data) +:+
  "," +:+ dquote +:+ "after" +:+ dquote +:+ ":" +:+ pretty (after data) +:+ "}".

Definition hasUid (u : Z) (video : PlaylistItem) : bool := uid video =? u.

(** ** Objects as they arrive *)

Module JsObject.

(** An object whose properties hold numbers, as a notification brings
    it: its own properties, each key once, in the order in which the
    object enumerates them, which is the order [JSON.stringify] prints
    them in. *)
Definition t : Type := list (string * Z).

(** [o.key]; an object that has no such property answers [undefined],
    here [None]. *)
Fixpoint property (o : t) (key : string) : option Z :=
  match o with
  | [] => None
  | (k, v) :: o' => if String.eqb k key then Some v else property o' key
  end.

Definition backslash : string := String (ascii_of_nat 92) EmptyString.

Definition hexDigit (n : nat) : string :=
  match String.get n "0123456789abcdef" with
  | Some c => String c EmptyString
  | None => EmptyString
  end.

(** [JSON.stringify] of a string, on ASCII text: the text in double
    quotes, with the quote and the backslash escaped by a backslash, the
    control characters that have a short escape written with it, and the
    other characters below 32 as [\u00XX]. *)
Definition quoteChar (c : ascii) : string :=
  let n := nat_of_ascii c in
  if (n =? 34)%nat then backslash +:+ dquote
  else if (n =? 92)%nat then backslash +:+ backslash
  else if (n =? 8)%nat then backslash +:+ "b"
  else if (n =? 9)%nat then backslash +:+ "t"
  else if (n =? 10)%nat then backslash +:+ "n"
  else if (n =? 12)%nat then backslash +:+ "f"
  else if (n =? 13)%nat then backslash +:+ "r"
  else if (n <? 32)%nat
       then backslash +:+ "u00" +:+ hexDigit (n / 16) +:+ hexDigit (n mod 16)
  else String c EmptyString.

Fixpoint quoteChars (s : string) : string :=
  match s with
  | EmptyString => EmptyString
  | String c s' => quoteChar c +:+ quoteChars s'
  end.

Definition quote (s : string) : string := dquote +:+ quoteChars s +:+ dquote.

(** [JSON.stringify] of the object: [{"k1":v1,"k2":v2}], every own
    property, in the object's order. *)
Definition stringify (o : t) : string :=
  "{" +:+ String.concat "," ((λ p, quote p.1 +:+ ":" +:+ pretty p.2) <$> o) +:+ "}".

End JsObject.

(** [video => video.uid === u] for a [u] read off an object: never true
    for [undefined]. *)
Definition uidEquals (u : option Z) (video : PlaylistItem) : bool :=
  match u with
  | Some n => uid video =? n
  | None => false
  end.

(** The body of the [for] loop of [sortCytube], from index [i] on;
    [sortedPlaylist] is what is left of the target from that index.
    The result is the echo map at the end and the effects, in order. *)
Fixpoint sortLoop (autoSort : bool) (sortedPlaylist : list PlaylistItem) (i : Z)
    (prevSortedUid : Z) (toSortPlaylist : list PlaylistItem)
    (refs : gmap string bool) : option (gmap string bool * list Effect) :=
  match sortedPlaylist with
  | [] => Some (refs, [])
  | sortedVideo :: rest =>
      match Js.get toSortPlaylist i with
      | None => None                    (* toSortPlaylist[i].uid on undefined *)
      | Some toSortVideo =>
          let sortedUid := uid sortedVideo in
          let toSortUid := uid toSortVideo in
          if negb (prevSortedUid =? -1) && negb (sortedUid =? toSortUid) then
            let data := {| from := sortedUid; after := prevSortedUid |} in
            let refs' :=
              if autoSort then <[JSON_stringify data := true]> refs else refs in
            let recorded := if autoSort then [RefSet (JSON_stringify data)] else [] in
            let videoIndexToMove := Js.findIndex (hasUid sortedUid) toSortPlaylist in
            let '(removed, toSort1) := Js.splice toSortPlaylist videoIndexToMove 1 [] in
            match removed with
            | [] => None                (* an empty array: cannot occur, [i] is in range *)
            | videoToMove :: _ =>
                let '(_, toSort2) := Js.splice toSort1 i 0 [videoToMove] in
                match sortLoop autoSort rest (i + 1) sortedUid toSort2 refs' with
                | None => None
                | Some (refs'', log) =>
                    Some (refs'', recorded ++ Emit (moveMedia data) :: log)
                end
            end
          else sortLoop autoSort rest (i + 1) sortedUid toSortPlaylist refs
      end
  end.

Definition sortCytube (context : Context) (sortedPlaylistOriginal : list PlaylistItem)
  : outcome :=
  match sortLoop (isAutoSortEnabled context) sortedPlaylistOriginal 0 (-1)
          (VideoQueue context) (moveVideoRefCounter context) with
  | None => Threw TypeError
  | Some (refs, log) =>
      Returned (withVideoQueue (withRefCounter context refs) sortedPlaylistOriginal) log
  end.

(** The tail shared by the handlers:
    [const sortedVideos = roundRobinSortVideos(context); sortCytube(context, sortedVideos)] *)
Definition resort (context : Context) : outcome :=
  match roundRobinSortVideos context with
  | None => Threw TypeError
  | Some sortedVideos => sortCytube context sortedVideos
  end.

(** ** The handlers *)

Definition onPlaylistCallback (context : Context) (response : list PlaylistItem)
  : outcome :=
  if negb (loginSuccess context) then Returned context []
  else
    let context := withVideoQueue context response in
    match VideoQueue context with
    | [] => Returned context []
    | _ :: _ => resort (withRefCounter context ∅)
    end.

(** The mirror update of [onMoveVideoCallback]: take the video that
    [isFrom] finds out and put it back right after the one that
    [isAfter] finds; the two are the arrow functions
    [video => video.uid === from] and [video => video.uid === after].
    When [isFrom] finds no video, [VideoQueue[-1]] is [undefined], which
    the code splices into the queue all the same; such a queue is not
    represented, the answer is [None], and the caller throws at the next
    [video.queueby], as the code does in [roundRobinSortVideos]. *)
Definition relocateBy (isFrom isAfter : PlaylistItem → bool)
    (queue : list PlaylistItem) : option (list PlaylistItem) :=
  let fromIndex := Js.findIndex isFrom queue in
  let video := Js.get queue fromIndex in
  let '(_, queue1) := Js.splice queue fromIndex 1 [] in
  let afterIndex := Js.findIndex isAfter queue1 in
  match video with
  | None => None
  | Some video => Some (Js.splice queue1 (afterIndex + 1) 0 [video]).2
  end.

(** That update for the uids [from] and [after] of [response]: what the
    handler does on an object that has both properties, and what the
    remote list does on a command. *)
Definition relocate (response : MoveVideoResponse) (queue : list PlaylistItem)
  : option (list PlaylistItem) :=
  relocateBy (hasUid (from response)) (hasUid (after response)) queue.

(** The notification is the object as it arrives: the echo map is
    looked up with the text [JSON.stringify] gives for that object, and
    [response.from], [response.after] are read off it. *)
Definition onMoveVideoCallback (context : Context) (response : JsObject.t)
  : outcome :=
  if negb (isAutoSortEnabled context) then Returned context []
  else
    let stringified := JsObject.stringify response in
    match moveVideoRefCounter context !! stringified with
    | Some true =>
        Returned (withRefCounter context (delete stringified (moveVideoRefCounter context)))
                 [RefDelete stringified]
    | _ =>
        let from := JsObject.property response "from" in
        let after := JsObject.property response "after" in
        match relocateBy (uidEquals from) (uidEquals after) (VideoQueue context) with
        | None => Threw TypeError
        | Some queue => resort (withVideoQueue context queue)
        end
    end.

Definition onDeleteCallback (context : Context) (response_uid : Z) : outcome :=
  if negb (isAutoSortEnabled context) then Returned context []
  else
    let deleteIndex := Js.findIndex (hasUid response_uid) (VideoQueue context) in
    let '(_, queue) := Js.splice (VideoQueue context) deleteIndex 1 [] in
    resort (withVideoQueue context queue).

(** [video.uid === response.after]: never true against a string. *)
Definition uidIs (a : AfterRef) (video : PlaylistItem) : bool :=
  match a with
  | AfterNumber n => uid video =? n
  | AfterString _ => false
  end.

Definition isPrepend (a : AfterRef) : bool :=
  match a with
  | AfterString s => String.eqb s "prepend"
  | AfterNumber _ => false
  end.

Definition onQueueCallback (context : Context) (response : QueueResponse) : outcome :=
  let queue :=
    if isPrepend (q_after response) then item response :: VideoQueue context
    else
      let index := Js.findIndex (uidIs (q_after response)) (VideoQueue context) in
      (Js.splice (VideoQueue context) (index + 1) 0 [item response]).2 in
  resort (withVideoQueue context queue).

Definition ForceSortVideoQueue (context : Context) : outcome :=
  Returned context [Emit requestPlaylist].

Definition criticalErrors : list string :=
  [ "Invalid channel name";
    "blocked anonymous users";
    "Unable to join channel";
    "Channel could not be loaded";
    "Invalid login" ]%string.

Definition onErrorMsg (context : Context) (response_msg : string) : outcome :=
  let isCritialerror :=
    existsb (λ error, Js.includes (Js.toLowerCase response_msg) (Js.toLowerCase error))
            criticalErrors in
  if isCritialerror then Threw (Error response_msg)
  else Returned context [ConsoleError response_msg].

(** ** Chat commands, ranks and login *)

(** String methods the chat handler uses, on ASCII text. *)
Module JsString.

(** [String.prototype.trim]: white space is tab, line feed, vertical tab,
    form feed, carriage return and space. *)
Fixpoint trimStart (s : string) : string :=
  match s with
  | EmptyString => EmptyString
  | String c s' => if Ascii.is_space c then trimStart s' else s
  end.

Fixpoint trimEnd (s : string) : string :=
  match s with
  | EmptyString => EmptyString
  | String c s' =>
      match trimEnd s' with
      | EmptyString => if Ascii.is_space c then EmptyString else String c EmptyString
      | t => String c t
      end
  end.

Definition trim (s : string) : string := trimEnd (trimStart s).

(** [s.substring(start)] *)
Fixpoint substring (start : nat) (s : string) : string :=
  match start, s with
  | O, _ => s
  | S _, EmptyString => EmptyString
  | S n, String _ s' => substring n s'
  end.

Definition newline : string := String (ascii_of_nat 10) EmptyString.

End JsString.

(** The fields of [Config] the handlers read; a rank is a JavaScript
    number, [Leader] being 1.5. *)
Record Config := {
  username : string;
  minUserRankForPrivledgedCommands : Q
}.

(** The whole [Context]: the part above and what chat, ranks and login
    add. [readyHandleMessages] starts out [undefined], which is tested
    like [false]. *)
Record BotContext := {
  core : Context;
  botConfig : Config;
  botSessionId : string;
  readyHandleMessages : bool;
  userRankMap : gmap string Q
}.

Definition withCore (b : BotContext) (c : Context) : BotContext :=
  {| core := c; botConfig := botConfig b; botSessionId := botSessionId b;
     readyHandleMessages := readyHandleMessages b; userRankMap := userRankMap b |}.

Definition withReady (b : BotContext) (ready : bool) : BotContext :=
  {| core := core b; botConfig := botConfig b; botSessionId := botSessionId b;
     readyHandleMessages := ready; userRankMap := userRankMap b |}.

Definition withRanks (b : BotContext) (ranks : gmap string Q) : BotContext :=
  {| core := core b; botConfig := botConfig b; botSessionId := botSessionId b;
     readyHandleMessages := readyHandleMessages b; userRankMap := ranks |}.

Definition withLoginSuccess (c : Context) (b : bool) : Context :=
  {| VideoQueue := VideoQueue c; loginSuccess := b;
     moveVideoRefCounter := moveVideoRefCounter c;
     isAutoSortEnabled := isAutoSortEnabled c |}.

Record ChatMsgResponse := { chat_username : string; msg : string }.

Record UserEntry := { user_name : string; user_rank : Q }.

Record LoginResponse := { success : bool; login_name : string }.

Inductive BotEffect :=
| Core (e : Effect)
| EmitChatMsg (text : string).     (* emitProxy("chatMsg", { msg: text }) *)

(** [onLoginCallback] throws a string built from the name. *)
Inductive BotThrown :=
| CoreThrown (e : Thrown)
| LoginFailed (who : string).

Inductive botOutcome :=
| BotReturned (b : BotContext) (log : list BotEffect)
| BotExited (code : Z) (log : list BotEffect)      (* process.exit(code) *)
| BotThrew (e : BotThrown).

(** A handler of the part above, run on the whole context. *)
Definition liftCore (b : BotContext) (o : outcome) : botOutcome :=
  match o with
  | Returned c log => BotReturned (withCore b c) (Core <$> log)
  | Threw e => BotThrew (CoreThrown e)
  end.

Definition getInitString (context : BotContext) : string :=
  "Hi. Initialized bot: " +:+ botSessionId context.

Record Command := {
  name : string;
  requiresPrivledge : bool;
  description : string;
  commandImpl : option (BotContext → ChatMsgResponse → botOutcome)
}.

Definition sendChatMessage (context : BotContext) (text : string) : botOutcome :=
  BotReturned context [EmitChatMsg text].

Definition commands : list Command :=
  [ {| name := "!help"; requiresPrivledge := false;
       description := "Prints these commands"; commandImpl := None |};
    {| name := "!sort"; requiresPrivledge := true;
       description := "Forcibly sort the video queue";
       commandImpl := Some (λ context response,
         liftCore context (ForceSortVideoQueue (core context))) |};
    {| name := "!autoSort off"; requiresPrivledge := true;
       description := "Turns autosorting off";
       commandImpl := Some (λ context response,
         BotReturned (withCore context (withAutoSort (core context) false))
                     [EmitChatMsg "Auto sorting turned off"]) |};
    {| name := "!autoSort off"; requiresPrivledge := true;
       description := "turns autosorting on";
       commandImpl := Some (λ context response,
         BotReturned (withCore context (withAutoSort (core context) true))
                     [EmitChatMsg "Auto sorting turned on"]) |};
    {| name := "!die"; requiresPrivledge := true;
       description := "kills the bot";
       commandImpl := Some (λ context response,
         BotExited 0 [EmitChatMsg "Goodbye cruel world"]) |} ]%string.

(** [(context.userRankMap.get(username) || 0) >= minUserRank...], and
    never for the bot's own name. *)
Definition isUserPrivledged (sender : string) (context : BotContext) : bool :=
  if String.eqb sender (username (botConfig context)) then false
  else Qle_bool (minUserRankForPrivledgedCommands (botConfig context))
                (default 0%Q (userRankMap context !! sender)).

Definition boolText (b : bool) : string := if b then "true" else "false".

Definition helpText (context : BotContext) (commands : list Command) : string :=
  let msgHeader := "`command` | description | privledged"%string in
  let commandStrings :=
    (λ command,
       "`" +:+ username (botConfig context) +:+ ": " +:+ name command +:+ "` | "
       +:+ description command +:+ " | " +:+ boolText (requiresPrivledge command))
      <$> commands in
  String.concat JsString.newline (EmptyString :: msgHeader :: commandStrings).

Definition printHelpCommand (context : BotContext) (commands : list Command)
  : botOutcome :=
  sendChatMessage context (helpText context commands).

(** [commands.forEach(command => commandsMap.set(
      command.name.toLocaleLowerCase().trim(), command))] *)
Definition commandsMap : gmap string Command :=
  foldl (λ m command, <[JsString.trim (Js.toLowerCase (name command)) := command]> m)
        ∅ commands.

Definition onChatMsgCallback (context : BotContext) (response : ChatMsgResponse)
  : botOutcome :=
  if negb (readyHandleMessages context) then
    if String.eqb (msg response) (getInitString context)
    then BotReturned (withReady context true) []
    else BotReturned context []
  else if String.eqb (msg response) EmptyString then BotReturned context []
  else
    let message := JsString.trim (msg response) in
    if negb (Js.startsWith message (username (botConfig context) +:+ ":"))
    then BotReturned context []
    else
      let commandMsgPart :=
        JsString.trim
          (JsString.substring (String.length (username (botConfig context)) + 1)
                              message) in
      let isUserPrivledgedVal := isUserPrivledged (chat_username response) context in
      match commandsMap !! commandMsgPart with
      | Some command =>
          if negb (requiresPrivledge command) || isUserPrivledgedVal then
            if String.eqb (name command) "!help"
            then printHelpCommand context commands
            else
              match commandImpl command with
              | None => BotThrew (CoreThrown TypeError)
              | Some impl => impl context response
              end
          else BotReturned context []
      | None =>
          if isUserPrivledgedVal then
            BotReturned context
              [EmitChatMsg ("Command not found: `" +:+ commandMsgPart +:+ "`");
               EmitChatMsg (helpText context commands)]
          else BotReturned context []
      end.

Definition onSetPermissionsCallback (context : BotContext) : botOutcome :=
  BotReturned context [].

Definition onRankCallback (context : BotContext) : botOutcome :=
  BotReturned context [].

Definition onSetUserRank (context : BotContext) (response : UserEntry) : botOutcome :=
  BotReturned
    (withRanks context (<[user_name response := user_rank response]> (userRankMap context)))
    [].

Definition onUserlistCallback (context : BotContext) (response : list UserEntry)
  : botOutcome :=
  BotReturned
    (withRanks context
       (foldl (λ rankMap user, <[user_name user := user_rank user]> rankMap) ∅ response))
    [].

Definition onLoginCallback (context : BotContext) (response : LoginResponse)
  : botOutcome :=
  if success response then
    BotReturned (withCore context (withLoginSuccess (core context) true))
                [EmitChatMsg (getInitString context)]
  else BotThrew (LoginFailed (login_name response)).

Definition onDisconnectCallback (context : BotContext) : botOutcome :=
  BotExited 1 [].

(** The context [main] starts with. *)
Definition initialContext (config : Config) (botSeshId : string) : BotContext :=
  {| core := {| VideoQueue := []; loginSuccess := false;
                moveVideoRefCounter := ∅; isAutoSortEnabled := true |};
     botConfig := config; botSessionId := botSeshId;
     readyHandleMessages := false; userRankMap := ∅ |}.

(** The events [main] registers a handler for, with their payloads. *)
Inductive Notification :=
| LoginEvent (response : LoginResponse)
| PlaylistEvent (response : list PlaylistItem)
| SetPermissionsEvent
| RankEvent
| ChatMsgEvent (response : ChatMsgResponse)
| MoveVideoEvent (response : JsObject.t)
| DeleteEvent (response_uid : Z)
| QueueEvent (response : QueueResponse)
| DisconnectEvent
| UserlistEvent (response : list UserEntry)
| SetUserRankEvent (response : UserEntry)
| ErrorMsgEvent (response_msg : string).

(** [socket.on(event, handler)] as [main] sets it up. *)
Definition dispatch (context : BotContext) (n : Notification) : botOutcome :=
  match n with
  | LoginEvent response => onLoginCallback context response
  | PlaylistEvent response => liftCore context (onPlaylistCallback (core context) response)
  | SetPermissionsEvent => onSetPermissionsCallback context
  | RankEvent => onRankCallback context
  | ChatMsgEvent response => onChatMsgCallback context response
  | MoveVideoEvent response => liftCore context (onMoveVideoCallback (core context) response)
  | DeleteEvent response_uid => liftCore context (onDeleteCallback (core context) response_uid)
  | QueueEvent response => liftCore context (onQueueCallback (core context) response)
  | DisconnectEvent => onDisconnectCallback context
  | UserlistEvent response => onUserlistCallback context response
  | SetUserRankEvent response => onSetUserRank context response
  | ErrorMsgEvent response_msg => liftCore context (onErrorMsg (core context) response_msg)
  end.

(** Notifications handled one after the other, until one ends the
    process. *)
Fixpoint run (ns : list Notification) (context : BotContext) : botOutcome :=
  match ns with
  | [] => BotReturned context []
  | n :: ns' =>
      match dispatch context n with
      | BotReturned context' log =>
          match run ns' context' with
          | BotReturned context'' log' => BotReturned context'' (log ++ log')
          | BotExited code log' => BotExited code (log ++ log')
          | BotThrew e => BotThrew e
          end
      | stop => stop
      end
  end.

(** ** Sample data *)

Definition noMedia : Media :=
  {| id := "x"; title := "t"; seconds := 0; duration := "00:00"; type := "yt" |}.

Definition mk (u : Z) (who : string) : PlaylistItem :=
  {| media := noMedia; uid := u; temp := false; queueby := who |}.

Definition ctxOf (auto : bool) (q : list PlaylistItem) : Context :=
  {| VideoQueue := q; loginSuccess := true; moveVideoRefCounter := ∅;
     isAutoSortEnabled := auto |}.

Definition sampleConfig : Config :=
  {| username := "bot"; minUserRankForPrivledgedCommands := 2%Q |}.

(** A bot that is logged in and has seen its own greeting; [mod] is a
    moderator, [guest] is not. *)
Definition sampleBot : BotContext :=
  {| core := ctxOf true [mk 1 "ann"; mk 2 "bob"];
     botConfig := sampleConfig; botSessionId := "0.42";
     readyHandleMessages := true;
     userRankMap := <["mod"%string := 2%Q]> (<["guest"%string := 0%Q]> ∅) |}.

(** A short session: login, the greeting coming back, a playlist, a
    rank, a command. *)
Definition sampleSession : list Notification :=
  [ LoginEvent {| success := true; login_name := "bot" |};
    ChatMsgEvent {| chat_username := "bot"; msg := "Hi. Initialized bot: 0.42" |};
    PlaylistEvent [mk 1 "ann"; mk 2 "ann"; mk 3 "bob"];
    SetUserRankEvent {| user_name := "mod"; user_rank := 2%Q |};
    ChatMsgEvent {| chat_username := "mod"; msg := "bot: !autosort off" |} ]%string.

(** Where [sampleSession] ends, and what it sends on the way. *)
Definition sessionEnd : BotContext :=
  {| core := {| VideoQueue := [mk 1 "ann"; mk 3 "bob"; mk 2 "ann"];
                loginSuccess := true;
                moveVideoRefCounter :=
                  {[ JSON_stringify {| from := 3; after := 1 |} := true ]};
                isAutoSortEnabled := true |};
     botConfig := sampleConfig; botSessionId := "0.42";
     readyHandleMessages := true;
     userRankMap := {[ "mod"%string := 2%Q ]} |}.

Definition sessionLog : list BotEffect :=
  [ EmitChatMsg "Hi. Initialized bot: 0.42";
    Core (RefSet (JSON_stringify {| from := 3; after := 1 |}));
    Core (Emit (moveMedia {| from := 3; after := 1 |}));
    EmitChatMsg "Auto sorting turned on" ].

Definition uidsOf (o : outcome) : option (list Z * list MoveVideoResponse) :=
  match o with
  | Returned c log => Some (uid <$> VideoQueue c, dispatched log)
  | Threw _ => None
  end.

(** ** What [roundRobinSortVideos] computes *)

(** The submitters in the order they are first met; this is how the keys
    of the [Map] come out of the first [forEach]. *)
Definition seenFrom (names : list string) (queue : list PlaylistItem) : list string :=
  foldl (λ names video,
           if decide (queueby video ∈ names) then names else names ++ [queueby video])
        names queue.

Definition firstSeen (queue : list PlaylistItem) : list string := seenFrom [] queue.

(** The videos of one submitter, in queue order. *)
Definition videosOf (queue : list PlaylistItem) (user : string) : list PlaylistItem :=
  filter (λ video, queueby video = user) queue.

(** [n] rounds over the groups [gs]: each round takes the first video of
    every group that still has one. *)
Fixpoint rounds (n : nat) (gs : list (list PlaylistItem)) : list PlaylistItem :=
  match n with
  | O => []
  | S n' => omap head gs ++ rounds n' (tail <$> gs)
  end.

(** The round-robin order, read off the description: group by submitter
    in first-seen order, then take rounds until every group is empty. *)
Definition interleave (queue : list PlaylistItem) : list PlaylistItem :=
  let gs := videosOf queue <$> firstSeen queue in
  rounds (max_list_with length gs) gs.

(** A [Map] whose keys are [names], each bound to [f] of it. *)
Definition userGroups (names : list string) (f : string → list PlaylistItem) : JsMap.t :=
  (λ u, (u, f u)) <$> names.

(** ** Vocabulary of the statements *)

(** How many videos of [user] a list holds. *)
Definition count (user : string) (l : list PlaylistItem) : nat :=
  length (videosOf l user).

(** Every group holds the videos of its own key only. *)
Definition ownVideos (f : string → list PlaylistItem) : Prop :=
  ∀ u, Forall (λ y, queueby y = u) (f u).

(** The relocation commands applied one at a time, each as the mirror
    itself applies a move. *)
Fixpoint applyMoves (moves : list MoveVideoResponse) (queue : list PlaylistItem)
  : option (list PlaylistItem) :=
  match moves with
  | [] => Some queue
  | data :: moves' =>
      match relocate data queue with
      | None => None
      | Some queue' => applyMoves moves' queue'
      end
  end.

(** The effects of one emitted command. *)
Definition commandEffects (autoSort : bool) (data : MoveVideoResponse) : list Effect :=
  (if autoSort then [RefSet (JSON_stringify data)] else []) ++ [Emit (moveMedia data)].

(** The echo map after recording the commands [moves]. *)
Definition recordAll (autoSort : bool) (moves : list MoveVideoResponse)
    (refs : gmap string bool) : gmap string bool :=
  if autoSort then foldl (λ refs data, <[JSON_stringify data := true]> refs) refs moves
  else refs.

(** [v] is met in the queue before [u] is: some initial stretch of the
    queue holds a video of [v] and none of [u]. *)
Definition firstSeenBefore (queue : list PlaylistItem) (v u : string) : Prop :=
  ∃ q1 q2, queue = q1 ++ q2 ∧ v ∈ (queueby <$> q1) ∧ u ∉ (queueby <$> q1).

Global Instance Media_eq_dec : EqDecision Media.
Proof. solve_decision. Defined.
Global Instance PlaylistItem_eq_dec : EqDecision PlaylistItem.
Proof. solve_decision. Defined.
Global Instance MoveVideoResponse_eq_dec : EqDecision MoveVideoResponse.
Proof. solve_decision. Defined.

(** The mirror [1, 2, 3] and the target [3, 2, 1]. *)
Definition reversedCurrent : list PlaylistItem := [mk 1 "a"; mk 2 "b"; mk 3 "c"].
Definition reversedTarget : list PlaylistItem := [mk 3 "c"; mk 2 "b"; mk 1 "a"].

(** The mirror [1, -1, 3, 4, 5] and the target [1, -1, 5, 4, 3]. *)
Definition sentinelCurrent : list PlaylistItem :=
  [mk 1 "a"; mk (-1) "b"; mk 3 "c"; mk 4 "d"; mk 5 "e"].
Definition sentinelTarget : list PlaylistItem :=
  [mk 1 "a"; mk (-1) "b"; mk 5 "e"; mk 4 "d"; mk 3 "c"].

(** The mirror [-1, 2, 3, 4] and the target [-1, 4, 3, 2]. *)
Definition sentinelFirstCurrent : list PlaylistItem :=
  [mk (-1) "a"; mk 2 "b"; mk 3 "c"; mk 4 "d"].
Definition sentinelFirstTarget : list PlaylistItem :=
  [mk (-1) "a"; mk 4 "d"; mk 3 "c"; mk 2 "b"].

(** What [onMoveVideoCallback] does with a move that is not an echo. *)
Definition externalMove (context : Context) (response : JsObject.t) : outcome :=
  match relocateBy (uidEquals (JsObject.property response "from"))
                   (uidEquals (JsObject.property response "after"))
                   (VideoQueue context) with
  | None => Threw TypeError
  | Some queue => resort (withVideoQueue context queue)
  end.

(** The object that the literal [{ from: sortedUid, after: prevSortedUid }]
    of [sortCytube] builds for the command [data]: the two properties,
    [from] first, and no other. *)
Definition objectOf (data : MoveVideoResponse) : JsObject.t :=
  [("from"%string, from data); ("after"%string, after data)].

(** The objects arrive with the texts recorded for the commands, one
    for one and in order. *)
Definition arriveAsRecorded (responses : list JsObject.t)
    (moves : list MoveVideoResponse) : Prop :=
  Forall2 (λ response d, JsObject.stringify response = JSON_stringify d)
          responses moves.

(** The object has the properties [from] and [after], and they hold the
    uids of [data]; nothing is said of their order, nor of what other
    properties the object has. *)
Definition readsAs (response : JsObject.t) (data : MoveVideoResponse) : Prop :=
  JsObject.property response "from" = Some (from data)
  ∧ JsObject.property response "after" = Some (after data).

(** [phrase] occurs in [msg] when the case of letters is ignored: some
    stretch of [msg] is [phrase] up to case. *)
Definition containsIgnoringCase (msg phrase : string) : Prop :=
  ∃ pre mid post,
    msg = pre +:+ mid +:+ post ∧ Js.toLowerCase mid = Js.toLowerCase phrase.

(** The fatal messages, phrase by phrase. *)
Definition isFatal (msg : string) : Prop :=
  containsIgnoringCase msg "Invalid channel name"
  ∨ containsIgnoringCase msg "blocked anonymous users"
  ∨ containsIgnoringCase msg "Unable to join channel"
  ∨ containsIgnoringCase msg "Channel could not be loaded"
  ∨ containsIgnoringCase msg "Invalid login".

(** The commands a pass can emit for [target]: for every place but the
    first, "the video there, after the video before it". *)
Fixpoint pairsFrom (prev : Z) (target : list PlaylistItem) : list MoveVideoResponse :=
  match target with
  | [] => []
  | video :: rest => {| from := uid video; after := prev |} :: pairsFrom (uid video) rest
  end.

Definition adjacentPairs (target : list PlaylistItem) : list MoveVideoResponse :=
  match target with
  | [] => []
  | video :: rest => pairsFrom (uid video) rest
  end.

(** Move notifications handled one after the other. *)
Fixpoint replayMoves (responses : list JsObject.t) (context : Context) : outcome :=
  match responses with
  | [] => Returned context []
  | response :: responses' =>
      match onMoveVideoCallback context response with
      | Threw e => Threw e
      | Returned context' log =>
          match replayMoves responses' context' with
          | Threw e => Threw e
          | Returned context'' log' => Returned context'' (log ++ log')
          end
      end
  end.

(** The character [d] does not occur in [s]. *)
Fixpoint charFree (d : ascii) (s : string) : Prop :=
  match s with
  | EmptyString => True
  | String c s' => c ≠ d ∧ charFree d s'
  end.

(** The echo map after the fingerprints of [moves] are deleted. *)
Definition forgetAll (moves : list MoveVideoResponse) (refs : gmap string bool)
  : gmap string bool :=
  foldl (λ refs data, delete (JSON_stringify data) refs) refs moves.

(** What a chat command may send: a chat message, or the request for a
    fresh playlist. *)
Definition chatOrResync (e : BotEffect) : Prop :=
  match e with
  | EmitChatMsg _ | Core (Emit requestPlaylist) => True
  | _ => False
  end.

(** The rank the last entry for [who] in a user list gives. *)
Definition lastRank (response : list UserEntry) (who : string) : option Q :=
  user_rank <$> last (filter (λ user, user_name user = who) response).

(** The mirror is in round-robin order. *)
Definition inRoundRobinOrder (context : Context) : Prop :=
  roundRobinSortVideos context = Some (VideoQueue context).

(** The mirror [1, 3, 2] as a pass on [1, 2, 3] leaves it, the one
    command of that pass, "3 after 1", pending. *)
Definition afterPass : Context :=
  withRefCounter (ctxOf true [mk 1 "a"; mk 3 "b"; mk 2 "a"])
    {[ JSON_stringify {| from := 3; after := 1 |} := true ]}.

(** The mirror [1, 2] with the commands "2 after 1" and "1 after 2"
    pending. *)
Definition twoPending : Context :=
  withRefCounter (ctxOf true [mk 1 "a"; mk 2 "b"])
    (<[JSON_stringify {| from := 2; after := 1 |} := true]>
       {[ JSON_stringify {| from := 1; after := 2 |} := true ]}).

(** ** The [Map] of [roundRobinSortVideos] *)

Section JsMapFacts.
Implicit Types (names : list string) (f g : string → list PlaylistItem).

Lemma eqb_decide (a b : string) : String.eqb a b = bool_decide (a = b).
Proof.
  destruct (String.eqb_spec a b).
  - by rewrite bool_decide_eq_true_2.
  - by rewrite bool_decide_eq_false_2.
Qed.

Lemma userGroups_ext names f g :
  (∀ u, u ∈ names → f u = g u) → userGroups names f = userGroups names g.
Proof.
  intros H. unfold userGroups. apply list_fmap_ext.
  intros i u Hu. rewrite (H u); [done|]. by eapply list_elem_of_lookup_2.
Qed.

Lemma keys_userGroups names f : JsMap.keys (userGroups names f) = names.
Proof.
  unfold JsMap.keys, userGroups.
  induction names as [|u names IH]; simpl; [done|]. by f_equal.
Qed.

Lemma values_userGroups names f : JsMap.values (userGroups names f) = f <$> names.
Proof.
  unfold JsMap.values, userGroups.
  induction names as [|u names IH]; simpl; [done|]. by f_equal.
Qed.

Lemma get_userGroups names f u :
  u ∈ names → JsMap.get u (userGroups names f) = Some (f u).
Proof.
  induction names as [|w names IH]; [by intros ?%elem_of_nil|].
  intros Hu. simpl. rewrite eqb_decide. case_bool_decide as Hw; [by subst|].
  apply IH. apply elem_of_cons in Hu as [->|]; done.
Qed.

(** Writing to a key that is there changes its value and nothing else. *)
Lemma set_userGroups_old names f u v :
  NoDup names → u ∈ names →
  JsMap.set u v (userGroups names f)
  = userGroups names (λ w, if decide (w = u) then v else f w).
Proof.
  induction names as [|w names IH]; [by intros _ ?%elem_of_nil|].
  intros [Hw Hnd]%NoDup_cons Hu. simpl. rewrite eqb_decide.
  case_bool_decide as Hwu.
  - subst w. rewrite decide_True by done. f_equal.
    apply userGroups_ext. intros w' Hw'. rewrite decide_False; [done|].
    by intros ->.
  - rewrite decide_False by done. f_equal. apply IH; [done|].
    apply elem_of_cons in Hu as [->|]; done.
Qed.

(** Writing to a key that is not there appends it. *)
Lemma set_userGroups_new names f u v :
  u ∉ names → f u = v →
  JsMap.set u v (userGroups names f) = userGroups (names ++ [u]) f.
Proof.
  induction names as [|w names IH]; intros Hu Hv; simpl.
  - by rewrite Hv.
  - apply not_elem_of_cons in Hu as [Hne Hu]. rewrite eqb_decide.
    rewrite bool_decide_eq_false_2 by done. f_equal. by apply IH.
Qed.
End JsMapFacts.

Section RoundRobinRefinement.
Implicit Types (names : list string) (f g : string → list PlaylistItem)
  (queue : list PlaylistItem).

Lemma seenFrom_cons names x queue :
  seenFrom names (x :: queue)
  = seenFrom (if decide (queueby x ∈ names) then names else names ++ [queueby x]) queue.
Proof. done. Qed.

Lemma seenFrom_spec names queue :
  NoDup names →
  ∃ more, seenFrom names queue = names ++ more
          ∧ NoDup (names ++ more)
          ∧ ∀ u, u ∈ more ↔ (u ∉ names) ∧ (u ∈ (queueby <$> queue)).
Proof.
  revert names. induction queue as [|x queue IH]; intros names Hnd.
  - exists []. rewrite app_nil_r. split_and!; [done..|].
    intros u. rewrite fmap_nil, !elem_of_nil. tauto.
  - rewrite seenFrom_cons. case_decide as Hx.
    + destruct (IH names Hnd) as (more & -> & Hnd' & Hin).
      exists more. split_and!; [done..|]. intros u.
      rewrite Hin, fmap_cons, elem_of_cons.
      split; intros [H1 H2]; (split; [done|]); [by right|].
      by destruct H2 as [->|].
    + assert (NoDup (names ++ [queueby x])) as Hnd1.
      { apply NoDup_app. split_and!; [done| |apply NoDup_singleton].
        by intros u Hu ->%list_elem_of_singleton. }
      destruct (IH _ Hnd1) as (more & -> & Hnd' & Hin).
      exists (queueby x :: more). rewrite <- app_assoc in *. simpl in Hnd' |- *.
      split_and!; [done..|]. intros u. rewrite elem_of_cons, Hin.
      rewrite !elem_of_app, !elem_of_cons, !elem_of_nil.
      destruct (decide (u = queueby x)) as [->|]; tauto.
Qed.

Lemma firstSeen_NoDup queue : NoDup (firstSeen queue).
Proof.
  destruct (seenFrom_spec [] queue) as (more & H & Hnd & _); [constructor|].
  unfold firstSeen. by rewrite H.
Qed.

Lemma elem_of_firstSeen queue u : u ∈ firstSeen queue ↔ u ∈ queueby <$> queue.
Proof.
  destruct (seenFrom_spec [] queue) as (more & H & _ & Hin); [constructor|].
  unfold firstSeen. rewrite H. simpl. rewrite Hin, elem_of_nil. tauto.
Qed.

Lemma seenFrom_app names q1 q2 :
  seenFrom names (q1 ++ q2) = seenFrom (seenFrom names q1) q2.
Proof. unfold seenFrom. by rewrite foldl_app. Qed.

(** The first [forEach]: the keys in first-seen order, every value empty. *)
Lemma initUsers_spec queue names :
  initUsers queue (userGroups names (λ _, [])) = userGroups (seenFrom names queue) (λ _, []).
Proof.
  revert names. induction queue as [|x queue IH]; intros names; [done|].
  rewrite seenFrom_cons, <- IH. unfold initUsers. simpl. f_equal. case_decide as Hx.
  - clear IH. induction names as [|w names IHn]; [by apply elem_of_nil in Hx|].
    simpl. rewrite eqb_decide. case_bool_decide as Hw; [done|].
    f_equal. apply IHn. apply elem_of_cons in Hx as [|]; [congruence|done].
  - by apply set_userGroups_new.
Qed.

(** The second [forEach]: every video lands at the end of its submitter's
    array, and no lookup fails. *)
Lemma pushVideos_spec queue names f :
  NoDup names → (∀ x, x ∈ queue → queueby x ∈ names) →
  pushVideos queue (userGroups names f)
  = Some (userGroups names (λ u, f u ++ videosOf queue u)).
Proof.
  intros Hnd. revert f. induction queue as [|x queue IH]; intros f Hin; simpl.
  - f_equal. apply userGroups_ext. intros u _. unfold videosOf.
    by rewrite filter_nil, app_nil_r.
  - rewrite get_userGroups by (apply Hin; left).
    rewrite set_userGroups_old by (done || apply Hin; left).
    rewrite IH by (intros; apply Hin; by right).
    f_equal. apply userGroups_ext. intros u _. unfold videosOf.
    rewrite filter_cons. case_decide as Hu.
    + subst u. rewrite decide_True by done. by rewrite <- app_assoc.
    + rewrite decide_False; [done|]. congruence.
Qed.

Lemma omap_ext_in {A B} (h1 h2 : A → option B) (l : list A) :
  (∀ x, x ∈ l → h1 x = h2 x) → omap h1 l = omap h2 l.
Proof.
  induction l as [|x l IH]; intros H; [done|].
  change (omap h1 (x :: l)) with (from_option (λ y, y :: omap h1 l) (omap h1 l) (h1 x)).
  change (omap h2 (x :: l)) with (from_option (λ y, y :: omap h2 l) (omap h2 l) (h2 x)).
  rewrite (H x) by left. rewrite IH; [done|]. intros; apply H; by right.
Qed.

(** One round over some of the keys: each of them gives up its first
    video, if it has one. *)
Lemma takeRound_spec some names f :
  NoDup names → NoDup some → some ⊆ names →
  takeRound some (userGroups names f)
  = Some (userGroups names (λ u, if decide (u ∈ some) then tail (f u) else f u),
          omap (λ u, head (f u)) some).
Proof.
  intros Hnd. revert f. induction some as [|k some IH]; intros f Hs Hsub; simpl.
  - done.
  - apply NoDup_cons in Hs as [Hk Hs].
    assert (k ∈ names) as Hkn by (apply Hsub; left).
    assert (some ⊆ names) as Hsub' by set_solver.
    rewrite get_userGroups by done. destruct (f k) as [|v vs] eqn:Hfk.
    + rewrite IH by done. do 2 f_equal. apply userGroups_ext. intros u _.
      destruct (decide (u = k)) as [->|Hne].
      * rewrite decide_False by done. rewrite decide_True by left.
        by rewrite Hfk.
      * rewrite (decide_ext (u ∈ k :: some) (u ∈ some)); [done|].
        rewrite elem_of_cons. tauto.
    + rewrite set_userGroups_old by done. rewrite IH by done. simpl.
      f_equal. f_equal.
      * apply userGroups_ext. intros u _.
        destruct (decide (u = k)) as [->|Hne].
        -- rewrite decide_False by done. rewrite decide_True by left.
           by rewrite Hfk.
        -- rewrite (decide_ext (u ∈ k :: some) (u ∈ some)); [done|].
           rewrite elem_of_cons. tauto.
      * f_equal. apply omap_ext_in. intros u Hu. rewrite decide_False; [done|].
        by intros ->.
Qed.

Lemma takeRounds_spec n names f :
  NoDup names →
  takeRounds n names (userGroups names f) = Some (rounds n (f <$> names)).
Proof.
  intros Hnd. revert f. induction n as [|n IH]; intros f; simpl; [done|].
  rewrite takeRound_spec by done.
  rewrite (userGroups_ext names _ (λ u, tail (f u))).
  2:{ intros u Hu. by rewrite decide_True. }
  rewrite IH. f_equal. f_equal.
  - clear. induction names as [|u names IHn]; simpl; [done|].
    destruct (head (f u)); [f_equal|]; exact IHn.
  - by rewrite <- list_fmap_compose.
Qed.

(** [roundRobinSortVideos] never throws and computes [interleave]. *)
Lemma roundRobinSortVideos_interleave context :
  roundRobinSortVideos context = Some (interleave (VideoQueue context)).
Proof.
  unfold roundRobinSortVideos, interleave.
  change (@nil (string * list PlaylistItem)) with (userGroups [] (λ _, [])) at 1.
  rewrite initUsers_spec. fold (firstSeen (VideoQueue context)).
  rewrite pushVideos_spec.
  - simpl. rewrite keys_userGroups, values_userGroups.
    unfold maxLength. apply takeRounds_spec, firstSeen_NoDup.
  - apply firstSeen_NoDup.
  - intros x Hx. apply elem_of_firstSeen. by apply list_elem_of_fmap_2.
Qed.
End RoundRobinRefinement.

(** ** Properties of the round-robin order *)

Section Rounds.
Implicit Types (names : list string) (f : string → list PlaylistItem)
  (gs : list (list PlaylistItem)) (queue : list PlaylistItem).

Lemma rounds_S n gs : rounds (S n) gs = omap head gs ++ rounds n (tail <$> gs).
Proof. done. Qed.

Lemma omap_head_cons g gs :
  omap head (g :: gs) = option_list (head g) ++ omap head gs.
Proof. by destruct g. Qed.

Lemma maxLength_cons g gs :
  max_list_with length (g :: gs) = (length g `max` max_list_with length gs)%nat.
Proof. done. Qed.

Lemma maxLength_tail gs :
  max_list_with length (tail <$> gs) = Nat.pred (max_list_with length gs).
Proof.
  induction gs as [|g gs IH]; [done|].
  rewrite fmap_cons, !maxLength_cons, IH. destruct g; simpl; lia.
Qed.

Lemma maxLength_zero gs : max_list_with length gs = 0%nat → concat gs = [].
Proof.
  induction gs as [|g gs IH]; [done|]. rewrite maxLength_cons. intros H.
  destruct g; simpl in *; [apply IH|]; lia.
Qed.

(** One round together with what is left is everything. *)
Lemma heads_tails_perm gs : omap head gs ++ concat (tail <$> gs) ≡ₚ concat gs.
Proof.
  induction gs as [|g gs IH]; [done|].
  rewrite omap_head_cons, fmap_cons. simpl. destruct g as [|x g]; simpl; [done|].
  constructor. rewrite <- IH.
  rewrite !app_assoc. apply Permutation_app_tail, Permutation_app_comm.
Qed.

(** Enough rounds take every video exactly once. *)
Lemma rounds_perm n gs :
  (max_list_with length gs ≤ n)%nat → rounds n gs ≡ₚ concat gs.
Proof.
  revert gs. induction n as [|n IH]; intros gs Hn.
  - rewrite maxLength_zero by lia. done.
  - rewrite rounds_S, IH by (rewrite maxLength_tail; lia).
    apply heads_tails_perm.
Qed.

Lemma videosOf_other queue u w :
  w ≠ u → videosOf (filter (λ x, queueby x ≠ u) queue) w = videosOf queue w.
Proof.
  intros Hne. unfold videosOf. rewrite list_filter_filter.
  apply list_filter_iff. intros x. split; [tauto|]. intros Hx. split; [done|].
  congruence.
Qed.

(** Grouping by submitter loses and repeats nothing. *)
Lemma concat_videosOf names queue :
  NoDup names → (∀ x, x ∈ queue → queueby x ∈ names) →
  concat (videosOf queue <$> names) ≡ₚ queue.
Proof.
  intros Hnd. revert queue. induction Hnd as [|u names Hu Hnd IH]; intros queue Hin.
  - destruct queue as [|x queue]; [done|].
    specialize (Hin x). rewrite elem_of_nil in Hin. destruct Hin. left.
  - rewrite fmap_cons. simpl.
    rewrite <- (filter_app_complement (λ x, queueby x = u) queue) at 3.
    apply Permutation_app_head.
    rewrite <- (IH (filter (λ x, queueby x ≠ u) queue)).
    + erewrite list_fmap_ext; [done|]. intros i w Hw. simpl.
      symmetry. apply videosOf_other. intros ->.
      apply Hu. by eapply list_elem_of_lookup_2.
    + intros x [Hx Hxq]%list_elem_of_filter.
      specialize (Hin x Hxq). apply elem_of_cons in Hin as [|]; done.
Qed.

Lemma interleave_perm queue : interleave queue ≡ₚ queue.
Proof.
  unfold interleave. rewrite rounds_perm by done.
  apply concat_videosOf; [apply firstSeen_NoDup|].
  intros x Hx. apply elem_of_firstSeen. by apply list_elem_of_fmap_2.
Qed.

Lemma firstSeen_cons x queue :
  ∃ more, firstSeen (x :: queue) = queueby x :: more.
Proof.
  unfold firstSeen. rewrite seenFrom_cons. rewrite decide_False by apply not_elem_of_nil.
  destruct (seenFrom_spec ([] ++ [queueby x]) queue) as (more & -> & _).
  - apply NoDup_singleton.
  - by exists more.
Qed.

(** The first video stays first. *)
Lemma interleave_head x queue : head (interleave (x :: queue)) = Some x.
Proof.
  unfold interleave. destruct (firstSeen_cons x queue) as (more & ->).
  rewrite fmap_cons. unfold videosOf at 1 3. rewrite filter_cons_True by done.
  rewrite maxLength_cons. simpl length.
  destruct (_ `max` _)%nat as [|n] eqn:Hn; [lia|]. done.
Qed.
End Rounds.

Section Fairness.
Implicit Types (names : list string) (f : string → list PlaylistItem)
  (queue : list PlaylistItem) (u v : string).

Lemma ownVideos_videosOf queue : ownVideos (videosOf queue).
Proof.
  intros u. apply Forall_forall. by intros x [? _]%list_elem_of_filter.
Qed.

Lemma ownVideos_tail f : ownVideos f → ownVideos (λ u, tail (f u)).
Proof.
  intros H u. specialize (H u). destruct (f u); [done|]. by inversion H.
Qed.

Lemma videosOf_app l1 l2 u : videosOf (l1 ++ l2) u = videosOf l1 u ++ videosOf l2 u.
Proof. apply filter_app. Qed.

Lemma count_app l1 l2 u : count u (l1 ++ l2) = (count u l1 + count u l2)%nat.
Proof. unfold count. by rewrite videosOf_app, length_app. Qed.

Lemma count_take_le u p l : (count u (take p l) ≤ count u l)%nat.
Proof.
  rewrite <- (take_drop p l) at 2. rewrite count_app. lia.
Qed.

Lemma videosOf_head f u w :
  ownVideos f →
  videosOf (option_list (head (f w))) u
  = if decide (w = u) then option_list (head (f u)) else [].
Proof.
  intros Hf. specialize (Hf w). case_decide as Hw.
  - subst w. destruct (f u) as [|y g]; [done|]. inversion Hf; subst.
    simpl. unfold videosOf. by rewrite filter_cons_True.
  - destruct (f w) as [|y g]; [done|]. inversion Hf; subst.
    simpl. unfold videosOf. by rewrite filter_cons_False.
Qed.

(** In one round, a submitter contributes its first video and no other. *)
Lemma videosOf_heads names f u :
  NoDup names → ownVideos f →
  videosOf (omap head (f <$> names)) u
  = if decide (u ∈ names) then option_list (head (f u)) else [].
Proof.
  intros Hnd Hf. induction Hnd as [|w names Hw Hnd IH]; [done|].
  rewrite fmap_cons, omap_head_cons, videosOf_app, videosOf_head, IH by done.
  rewrite (decide_ext (u ∈ w :: names) (w = u ∨ u ∈ names))
    by (rewrite elem_of_cons; intuition congruence).
  destruct (decide (w = u)) as [->|Hne].
  - rewrite decide_False, decide_True by tauto. apply app_nil_r.
  - simpl. apply decide_ext. tauto.
Qed.

Lemma count_heads names f u :
  NoDup names → ownVideos f →
  count u (omap head (f <$> names))
  = if decide (u ∈ names) then (1 `min` length (f u))%nat else 0%nat.
Proof.
  intros Hnd Hf. unfold count. rewrite videosOf_heads by done.
  case_decide; [|done]. destruct (f u); simpl; lia.
Qed.

(** The videos of one submitter come out in the order they went in. *)
Lemma videosOf_rounds n names f u :
  NoDup names → ownVideos f →
  videosOf (rounds n (f <$> names)) u
  = if decide (u ∈ names) then take n (f u) else [].
Proof.
  intros Hnd. revert f. induction n as [|n IH]; intros f Hf.
  - simpl. by case_decide.
  - rewrite rounds_S, videosOf_app, videosOf_heads by done.
    rewrite <- list_fmap_compose.
    change (tail ∘ f) with (λ u, tail (f u)).
    rewrite (IH (λ u, tail (f u))) by (apply ownVideos_tail; exact Hf).
    case_decide; [|done]. destruct (f u); [by destruct n|done].
Qed.

Lemma max_list_with_ge {A} (h : A → nat) (l : list A) x :
  x ∈ l → (h x ≤ max_list_with h l)%nat.
Proof.
  induction l as [|y l IH]; [by intros ?%elem_of_nil|].
  intros [->|Hx]%elem_of_cons; simpl; [lia|]. specialize (IH Hx). lia.
Qed.

Lemma videosOf_unseen queue u : u ∉ (queueby <$> queue) → videosOf queue u = [].
Proof.
  intros Hu. destruct (videosOf queue u) as [|x l] eqn:Hx; [done|].
  assert (x ∈ videosOf queue u) as [Hq Hin]%list_elem_of_filter by (rewrite Hx; left).
  destruct Hu. rewrite <- Hq. by apply list_elem_of_fmap_2.
Qed.

Lemma videosOf_interleave queue u : videosOf (interleave queue) u = videosOf queue u.
Proof.
  unfold interleave.
  rewrite videosOf_rounds by (apply firstSeen_NoDup || apply ownVideos_videosOf).
  case_decide as Hu.
  - apply take_ge. apply (max_list_with_ge length).
    apply list_elem_of_fmap. eauto.
  - symmetry. apply videosOf_unseen. by rewrite <- elem_of_firstSeen.
Qed.
End Fairness.

Section PrefixFairness.
Implicit Types (names : list string) (f : string → list PlaylistItem)
  (queue : list PlaylistItem) (u v : string).

Lemma length_tail_pred {A} (l : list A) : length (tail l) = Nat.pred (length l).
Proof. by destruct l. Qed.

(** In every prefix of the output, a submitter placed earlier among the
    keys is never behind one placed later, unless it has run out. *)
Lemma rounds_prefix_fair n U1 U2 u v f p :
  NoDup (U1 ++ u :: U2) → ownVideos f → v ∈ U1 →
  (count u (take p (rounds n (f <$> (U1 ++ u :: U2)))) `min` length (f v)
   ≤ count v (take p (rounds n (f <$> (U1 ++ u :: U2)))))%nat.
Proof.
  intros Hnd. revert f p. induction n as [|n IH]; intros f p Hf Hv.
  - simpl. rewrite take_nil. unfold count. simpl. lia.
  - rewrite rounds_S, take_app, !count_app.
    rewrite <- list_fmap_compose.
    specialize (IH (λ w, tail (f w))
      (p - length (omap head (f <$> U1 ++ u :: U2)))%nat (ownVideos_tail f Hf) Hv).
    change (tail ∘ f) with (λ w, tail (f w)).
    cbv beta in IH. rewrite length_tail_pred in IH.
    set (rest := rounds n _) in *. set (p' := (p - _)%nat) in *.
    pose proof (NoDup_app U1 (u :: U2)) as [(Hnd1 & Hdisj & Hnd2) _]; [done|].
    assert (u ∉ U1) as Hu1 by (intros Hin; apply (Hdisj u Hin); left).
    assert (v ∈ U1 ++ u :: U2) as Hvn by (apply elem_of_app; by left).
    assert (u ∈ U1 ++ u :: U2) as Hun by (apply elem_of_app; right; left).
    destruct (decide (p < length (omap head (f <$> U1 ++ u :: U2)))%nat) as [Hp|Hp].
    + replace p' with 0%nat in * by (subst p'; lia). rewrite take_0.
      change (count u []) with 0%nat. change (count v []) with 0%nat.
      clear IH rest p' Hp. rewrite fmap_app, omap_app, take_app, !count_app.
      pose proof (count_take_le u p (omap head (f <$> U1))) as Hle1.
      rewrite (count_heads U1 f u), decide_False in Hle1 by done.
      destruct (decide (p ≤ length (omap head (f <$> U1)))%nat) as [Hq|Hq].
      * replace (p - length (omap head (f <$> U1)))%nat with 0%nat by lia.
        rewrite take_0. change (count u []) with 0%nat. lia.
      * rewrite take_ge by lia.
        rewrite (count_heads U1 f v), decide_True by done.
        pose proof (count_take_le u (p - length (omap head (f <$> U1)))
                      (omap head (f <$> u :: U2))) as Hle2.
        rewrite (count_heads (u :: U2) f u), decide_True in Hle2 by (done || left).
        rewrite (count_heads U1 f u), decide_False by done.
        lia.
    + rewrite take_ge by lia.
      rewrite !count_heads, !decide_True by done. lia.
Qed.
End PrefixFairness.

(** ** Facts about the array primitives *)

Section JsFacts.
Context {A : Type}.
Implicit Types (l a b : list A) (p : A → bool).

Lemma findIndexFrom_found p i a y b :
  Forall (λ x, p x = false) a → p y = true →
  Js.findIndexFrom p i (a ++ y :: b) = i + Z.of_nat (length a).
Proof.
  intros Ha Hy. revert i. induction Ha as [|x a Hx Ha IH]; intros i; simpl.
  - rewrite Hy. lia.
  - rewrite Hx, IH. lia.
Qed.

Lemma findIndex_found p a y b :
  Forall (λ x, p x = false) a → p y = true →
  Js.findIndex p (a ++ y :: b) = Z.of_nat (length a).
Proof. intros. unfold Js.findIndex. by rewrite findIndexFrom_found. Qed.

Lemma findIndexFrom_none p i l :
  Forall (λ x, p x = false) l → Js.findIndexFrom p i l = -1.
Proof.
  intros Hl. revert i. induction Hl as [|x l Hx Hl IH]; intros i; simpl; [done|].
  by rewrite Hx, IH.
Qed.

Lemma findIndex_none p l : Forall (λ x, p x = false) l → Js.findIndex p l = -1.
Proof. apply findIndexFrom_none. Qed.

(** [findIndex] answers [-1] or the place of the first match. *)
Lemma findIndex_cases p l :
  (Js.findIndex p l = -1 ∧ Forall (λ x, p x = false) l)
  ∨ ∃ a y b, l = a ++ y :: b ∧ Forall (λ x, p x = false) a ∧ p y = true
             ∧ Js.findIndex p l = Z.of_nat (length a).
Proof.
  induction l as [|x l IH].
  - left. by split.
  - destruct (p x) eqn:Hx.
    + right. exists [], x, l. split_and!; try done. unfold Js.findIndex. simpl.
      by rewrite Hx.
    + destruct IH as [[H1 H2]|(a & y & b & -> & Ha & Hy & Hi)].
      * left. split; [|by constructor]. apply findIndex_none. by constructor.
      * right. exists (x :: a), y, b. split_and!; try done; [by constructor|].
        apply (findIndex_found p (x :: a)); [by constructor|done].
Qed.

Lemma get_middle a y b : Js.get (a ++ y :: b) (Z.of_nat (length a)) = Some y.
Proof.
  unfold Js.get. rewrite (proj2 (Z.ltb_ge _ _)) by lia.
  rewrite Nat2Z.id. by apply list_lookup_middle.
Qed.

Lemma get_Some l i y :
  Js.get l i = Some y → ∃ a b, l = a ++ y :: b ∧ i = Z.of_nat (length a).
Proof.
  unfold Js.get. destruct (Z.ltb_spec i 0) as [|Hi]; [done|].
  intros (a & b & -> & Hlen)%list_elem_of_split_length.
  exists a, b. split; [done|]. lia.
Qed.

Lemma get_in_range l i :
  0 ≤ i < Z.of_nat (length l) → is_Some (Js.get l i).
Proof.
  intros Hi. unfold Js.get. rewrite (proj2 (Z.ltb_ge _ _)) by lia.
  apply lookup_lt_is_Some. lia.
Qed.

(** [splice(i, 1)] at the place of [y] takes out [y]. *)
Lemma splice_delete_middle a y b :
  Js.splice (a ++ y :: b) (Z.of_nat (length a)) 1 [] = ([y], a ++ b).
Proof.
  unfold Js.splice. rewrite length_app. simpl length.
  rewrite (proj2 (Z.ltb_ge _ _)) by lia.
  replace (Z.min (Z.of_nat (length a)) _) with (Z.of_nat (length a)) by lia.
  replace (Z.min (Z.max 1 0) _) with 1 by lia.
  rewrite Nat2Z.id. change (Z.to_nat 1) with 1%nat.
  rewrite drop_app_length, take_app_length. simpl take. f_equal.
  rewrite drop_app_ge by lia.
  replace (length a + 1 - length a)%nat with 1%nat by lia. done.
Qed.

(** [splice(-1, 1)] takes out the last element. *)
Lemma splice_delete_last a y :
  Js.splice (a ++ [y]) (-1) 1 [] = ([y], a).
Proof.
  unfold Js.splice. rewrite length_app. simpl length.
  change (-1 <? 0) with true. cbv iota.
  replace (Z.max (Z.of_nat (length a + 1) + -1) 0) with (Z.of_nat (length a)) by lia.
  replace (Z.min (Z.max 1 0) _) with 1 by lia.
  rewrite Nat2Z.id. change (Z.to_nat 1) with 1%nat.
  rewrite drop_app_length, take_app_length. simpl take. f_equal.
  rewrite drop_app_ge by lia.
  replace (length a + 1 - length a)%nat with 1%nat by lia. simpl.
  by rewrite app_nil_r.
Qed.

Lemma splice_delete_empty i : Js.splice (@nil A) i 1 [] = ([], []).
Proof.
  unfold Js.splice. by rewrite !take_nil, !drop_nil, ?take_nil.
Qed.

(** [splice(i, 0, v)] with [i] inside the array puts [v] at index [i]. *)
Lemma splice_insert_middle a b v :
  Js.splice (a ++ b) (Z.of_nat (length a)) 0 [v] = ([], a ++ v :: b).
Proof.
  unfold Js.splice. rewrite length_app.
  rewrite (proj2 (Z.ltb_ge _ _)) by lia.
  replace (Z.min (Z.of_nat (length a)) _) with (Z.of_nat (length a)) by lia.
  replace (Z.min (Z.max 0 0) _) with 0 by lia.
  rewrite Nat2Z.id. change (Z.to_nat 0) with 0%nat.
  rewrite take_0, Nat.add_0_r, drop_app_length, take_app_length. done.
Qed.

Lemma splice_insert_front l v : Js.splice l 0 0 [v] = ([], v :: l).
Proof. apply (splice_insert_middle [] l v). Qed.
End JsFacts.

(** ** What [sortCytube] emits *)

Section SortLoopFacts.
Implicit Types (queue rest a b : list PlaylistItem) (refs : gmap string bool).

Lemma dispatched_app l1 l2 : dispatched (l1 ++ l2) = dispatched l1 ++ dispatched l2.
Proof. apply omap_app. Qed.

Lemma dispatched_commandEffects autoSort data log :
  dispatched (commandEffects autoSort data ++ log) = data :: dispatched log.
Proof. by destruct autoSort. Qed.

Lemma uid_eq_of_NoDup queue x y :
  NoDup (uid <$> queue) → x ∈ queue → y ∈ queue → uid x = uid y → x = y.
Proof.
  induction queue as [|z queue IH]; [by intros _ ?%elem_of_nil|].
  rewrite fmap_cons. intros [Hz Hnd]%NoDup_cons Hx Hy Huid.
  apply elem_of_cons in Hx as [->|Hx]; apply elem_of_cons in Hy as [->|Hy].
  - done.
  - destruct Hz. rewrite Huid. by apply list_elem_of_fmap_2.
  - destruct Hz. rewrite <- Huid. by apply list_elem_of_fmap_2.
  - by apply IH.
Qed.

(** Before the first video with a given uid there is none with that uid. *)
Lemma no_uid_before a y b :
  NoDup (uid <$> (a ++ y :: b)) → Forall (λ x, hasUid (uid y) x = false) a.
Proof.
  rewrite fmap_app, fmap_cons. intros (_ & Hdisj & _)%NoDup_app.
  apply Forall_forall. intros x Hx. unfold hasUid. apply Z.eqb_neq.
  intros Heq. apply (Hdisj (uid x)); [by apply list_elem_of_fmap_2|].
  rewrite Heq. left.
Qed.

Lemma hasUid_self y : hasUid (uid y) y = true.
Proof. apply Z.eqb_refl. Qed.

(** Moving [s] from further right to just after [pv]. *)
Lemma relocate_after done0 pv a s b :
  NoDup (uid <$> (done0 ++ pv :: a ++ s :: b)) →
  relocate {| from := uid s; after := uid pv |} (done0 ++ pv :: a ++ s :: b)
  = Some (done0 ++ pv :: s :: a ++ b).
Proof.
  intros Hnd. unfold relocate, relocateBy. simpl from. simpl after.
  replace (done0 ++ pv :: a ++ s :: b) with ((done0 ++ pv :: a) ++ s :: b) in *
    by (by rewrite <- app_assoc).
  rewrite findIndex_found by (apply no_uid_before in Hnd; done || apply hasUid_self).
  rewrite get_middle, splice_delete_middle.
  replace ((done0 ++ pv :: a) ++ b) with (done0 ++ pv :: a ++ b)
    by (by rewrite <- app_assoc).
  rewrite findIndex_found; [| |apply hasUid_self].
  - replace (Z.of_nat (length done0) + 1) with (Z.of_nat (length (done0 ++ [pv])))
      by (rewrite length_app; simpl; lia).
    rewrite (cons_middle pv done0), app_assoc, splice_insert_middle.
    by rewrite <- app_assoc.
  - rewrite <- app_assoc in Hnd. simpl in Hnd. by apply no_uid_before in Hnd.
Qed.
End SortLoopFacts.

Section SortLoopMoves.
Implicit Types (queue rest a b : list PlaylistItem) (refs : gmap string bool).

Lemma sortLoop_cons autoSort s rest i prev toSort refs :
  sortLoop autoSort (s :: rest) i prev toSort refs
  = match Js.get toSort i with
    | None => None
    | Some t =>
        if negb (prev =? -1) && negb (uid s =? uid t) then
          let data := {| from := uid s; after := prev |} in
          let '(removed, toSort1) :=
            Js.splice toSort (Js.findIndex (hasUid (uid s)) toSort) 1 [] in
          match removed with
          | [] => None
          | videoToMove :: _ =>
              let '(_, toSort2) := Js.splice toSort1 i 0 [videoToMove] in
              match sortLoop autoSort rest (i + 1) (uid s) toSort2
                      (if autoSort then <[JSON_stringify data := true]> refs else refs) with
              | None => None
              | Some (refs'', log) => Some (refs'', commandEffects autoSort data ++ log)
              end
          end
        else sortLoop autoSort rest (i + 1) (uid s) toSort refs
    end.
Proof. by destruct autoSort. Qed.

(** The loop from index [i] on, when the working copy already agrees
    with the target up to [i-1]: it ends, and its commands turn the
    working copy into the target. *)
Lemma sortLoop_moves autoSort rest : ∀ done0 pv W refs,
  NoDup (uid <$> (done0 ++ pv :: W)) → W ≡ₚ rest →
  uid pv ≠ -1 → Forall (λ x, uid x ≠ -1) rest →
  ∃ refs' log,
    sortLoop autoSort rest (Z.of_nat (S (length done0))) (uid pv)
             (done0 ++ pv :: W) refs = Some (refs', log)
    ∧ applyMoves (dispatched log) (done0 ++ pv :: W) = Some (done0 ++ pv :: rest).
Proof.
  induction rest as [|s rest IH]; intros done0 pv W refs Hnd Hperm Hpv Hrest.
  - apply Permutation_nil_r in Hperm as ->. by eexists _, _.
  - assert (s ∈ W) as Hs by (rewrite Hperm; left).
    destruct W as [|t W']; [by apply elem_of_nil in Hs|].
    apply Forall_cons in Hrest as [Hs1 Hrest].
    assert (Z.of_nat (S (length done0)) = Z.of_nat (length (done0 ++ [pv]))) as Hi
      by (rewrite length_app; simpl; lia).
    assert (∀ l, done0 ++ pv :: l = (done0 ++ [pv]) ++ l) as Hsplit
      by (intros; by rewrite <- app_assoc).
    rewrite sortLoop_cons, Hi, (Hsplit (t :: W')), get_middle.
    rewrite (proj2 (Z.eqb_neq _ _) Hpv). simpl negb. simpl andb.
    destruct (Z.eqb_spec (uid s) (uid t)) as [Heq|Hne]; simpl negb; cbv iota zeta.
    + assert (s = t) as <-.
      { apply (uid_eq_of_NoDup (done0 ++ pv :: t :: W')); [done| | |done].
        - apply elem_of_app. right. by apply elem_of_cons; right.
        - apply elem_of_app. right. apply elem_of_cons; right. left. }
      apply Permutation_cons_inv in Hperm.
      destruct (IH (done0 ++ [pv]) s W' refs) as (refs' & log & Hloop & Hmoves);
        [by rewrite <- Hsplit|done..|].
      exists refs', log. split.
      * rewrite <- Hloop. f_equal. rewrite length_app. simpl. lia.
      * rewrite <- !Hsplit in Hmoves. by rewrite <- !Hsplit.
    + apply elem_of_cons in Hs as [Hs|Hs]; [by subst|].
      apply list_elem_of_split in Hs as (a & b & ->).
      assert (NoDup (uid <$> ((done0 ++ [pv]) ++ t :: a) ++ s :: b)) as Hnd'.
      { by rewrite <- !app_assoc. }
      replace ((done0 ++ [pv]) ++ t :: a ++ s :: b)
        with (((done0 ++ [pv]) ++ t :: a) ++ s :: b) by (by rewrite <- !app_assoc).
      rewrite findIndex_found by (apply no_uid_before in Hnd'; done || apply hasUid_self).
      rewrite splice_delete_middle.
      replace (((done0 ++ [pv]) ++ t :: a) ++ b)
        with ((done0 ++ [pv]) ++ t :: a ++ b) by (by rewrite <- !app_assoc).
      cbv iota. rewrite splice_insert_middle.
      destruct (IH (done0 ++ [pv]) s (t :: a ++ b)
                  (if autoSort
                   then <[JSON_stringify {| from := uid s; after := uid pv |} := true]> refs
                   else refs))
        as (refs' & log & Hloop & Hmoves); [| |done..|].
      * rewrite <- Hsplit.
        assert (done0 ++ pv :: s :: t :: a ++ b ≡ₚ done0 ++ pv :: t :: a ++ s :: b)
          as HP; [|by rewrite HP].
        apply Permutation_app_head, perm_skip, (Permutation_middle (t :: a) b s).
      * apply (Permutation_cons_inv (a:=s)). rewrite <- Hperm.
        apply (Permutation_middle (t :: a) b s).
      * replace (Z.of_nat (length (done0 ++ [pv])) + 1)
          with (Z.of_nat (S (length (done0 ++ [pv])))) by lia.
        rewrite Hloop. eexists _, _. split; [done|].
        rewrite dispatched_commandEffects. simpl applyMoves.
        rewrite <- !Hsplit.
        replace ((done0 ++ pv :: t :: a) ++ s :: b)
          with (done0 ++ pv :: (t :: a) ++ s :: b) by (by rewrite <- app_assoc).
        rewrite (relocate_after done0 pv (t :: a) s b) by done.
        by rewrite <- !Hsplit in Hmoves.
Qed.
End SortLoopMoves.

Section SortLoopShape.
Implicit Types (queue rest a b : list PlaylistItem) (refs : gmap string bool).

Lemma dispatched_flat_map autoSort moves :
  dispatched (flat_map (commandEffects autoSort) moves) = moves.
Proof.
  induction moves as [|d moves IH]; [done|].
  simpl flat_map. by rewrite dispatched_commandEffects, IH.
Qed.

Lemma recordAll_cons autoSort d moves refs :
  recordAll autoSort (d :: moves) refs
  = recordAll autoSort moves
      (if autoSort then <[JSON_stringify d := true]> refs else refs).
Proof. by destruct autoSort. Qed.

(** Whatever the loop is given, its effects are those of its commands,
    one after the other, and the echo map it returns holds them. *)
Lemma sortLoop_log autoSort rest : ∀ i prev toSort refs refs' log,
  sortLoop autoSort rest i prev toSort refs = Some (refs', log) →
  log = flat_map (commandEffects autoSort) (dispatched log)
  ∧ refs' = recordAll autoSort (dispatched log) refs.
Proof.
  induction rest as [|s rest IH]; intros i prev toSort refs refs' log.
  - simpl. intros [= <- <-]. by destruct autoSort.
  - rewrite sortLoop_cons. destruct (Js.get toSort i) as [t|]; [|done].
    destruct (negb (prev =? -1) && negb (uid s =? uid t)); [|by apply IH].
    cbv zeta. destruct (Js.splice toSort _ 1 []) as [removed toSort1].
    destruct removed as [|v ?]; [done|].
    destruct (Js.splice toSort1 i 0 [v]) as [? toSort2].
    destruct (sortLoop autoSort rest _ _ _ _) as [[refs'' log']|] eqn:Hloop; [|done].
    intros [= <- <-]. apply IH in Hloop as [Hlog ->].
    rewrite dispatched_commandEffects, recordAll_cons. split; [|done].
    simpl flat_map. by rewrite <- Hlog.
Qed.

Lemma splice_delete_one {A} (toSort : list A) idx :
  toSort ≠ [] →
  idx = -1 ∨ 0 ≤ idx < Z.of_nat (length toSort) →
  ∃ v toSort1, Js.splice toSort idx 1 [] = ([v], toSort1)
               ∧ S (length toSort1) = length toSort.
Proof.
  intros Hne [->|Hidx].
  - destruct (exists_last Hne) as (a & y & ->).
    rewrite splice_delete_last. exists y, a. split; [done|].
    rewrite length_app. simpl. lia.
  - destruct (lookup_lt_is_Some_2 toSort (Z.to_nat idx)) as [y Hy]; [lia|].
    apply list_elem_of_split_length in Hy as (a & b & -> & Hlen).
    replace idx with (Z.of_nat (length a)) by lia.
    rewrite splice_delete_middle. exists y, (a ++ b). split; [done|].
    rewrite !length_app. simpl. lia.
Qed.

Lemma findIndex_range {A} (p : A → bool) (l : list A) :
  Js.findIndex p l = -1 ∨ 0 ≤ Js.findIndex p l < Z.of_nat (length l).
Proof.
  destruct (findIndex_cases p l) as [[-> _]|(a & y & b & -> & _ & _ & ->)];
    [by left|right].
  rewrite length_app. simpl. lia.
Qed.

Lemma splice_insert_length {A} (toSort : list A) i v :
  length (Js.splice toSort i 0 [v]).2 = S (length toSort).
Proof.
  unfold Js.splice. simpl snd.
  set (len := Z.of_nat (length toSort)).
  set (r := if i <? 0 then _ else _).
  assert (0 ≤ r ≤ len) as Hr by (subst r len; destruct (Z.ltb_spec i 0); lia).
  replace (Z.min (Z.max 0 0) (len - r)) with 0 by lia.
  change (Z.to_nat 0) with 0%nat.
  rewrite Nat.add_0_r, length_app, length_take. simpl. rewrite length_drop. lia.
Qed.

(** The loop does not throw while the working copy is as long as the
    target. *)
Lemma sortLoop_total autoSort rest : ∀ i prev toSort refs,
  0 ≤ i → i + Z.of_nat (length rest) ≤ Z.of_nat (length toSort) →
  is_Some (sortLoop autoSort rest i prev toSort refs).
Proof.
  induction rest as [|s rest IH]; intros i prev toSort refs Hi Hlen; [done|].
  simpl length in Hlen. rewrite sortLoop_cons.
  destruct (get_in_range toSort i) as [t ->]; [lia|].
  destruct (negb (prev =? -1) && negb (uid s =? uid t)); [|apply IH; lia].
  cbv zeta.
  destruct (splice_delete_one toSort (Js.findIndex (hasUid (uid s)) toSort))
    as (v & toSort1 & -> & Hlen1).
  { intros ->. simpl in Hlen. lia. }
  { apply findIndex_range. }
  pose proof (splice_insert_length toSort1 i v) as Hlen2.
  destruct (Js.splice toSort1 i 0 [v]) as [? toSort2]. simpl in Hlen2.
  destruct (IH (i + 1) (uid s) toSort2
              (if autoSort
               then <[JSON_stringify {| from := uid s; after := prev |} := true]> refs
               else refs)) as [[refs'' log] ->]; [lia..|].
  done.
Qed.

(** A working copy that already is the target needs no command. *)
Lemma sortLoop_same autoSort rest : ∀ pre prev refs,
  sortLoop autoSort rest (Z.of_nat (length pre)) prev (pre ++ rest) refs
  = Some (refs, []).
Proof.
  induction rest as [|s rest IH]; intros pre prev refs; [done|].
  rewrite sortLoop_cons, get_middle, Z.eqb_refl, andb_false_r.
  replace (Z.of_nat (length pre) + 1) with (Z.of_nat (length (pre ++ [s])))
    by (rewrite length_app; simpl; lia).
  rewrite (cons_middle s pre rest), app_assoc. apply IH.
Qed.
End SortLoopShape.

(** ** The sorter: permutation and fairness *)

Lemma firstSeen_split queue v u :
  firstSeenBefore queue v u → u ∈ (queueby <$> queue) →
  ∃ U1 U2, firstSeen queue = U1 ++ u :: U2 ∧ v ∈ U1.
Proof.
  intros (q1 & q2 & -> & Hv & Hu) Hin.
  unfold firstSeen. rewrite seenFrom_app. fold (firstSeen q1).
  destruct (seenFrom_spec (firstSeen q1) q2) as (more & Heq & _ & Hmore);
    [apply firstSeen_NoDup|].
  assert (u ∈ more) as (m1 & m2 & ->)%list_elem_of_split.
  { apply Hmore. rewrite elem_of_firstSeen. split; [done|].
    rewrite fmap_app, elem_of_app in Hin. by destruct Hin. }
  exists (firstSeen q1 ++ m1), m2. rewrite Heq, <- app_assoc. split; [done|].
  apply elem_of_app. left. by apply elem_of_firstSeen.
Qed.

Lemma interleave_fair queue p x v :
  interleave queue !! p = Some x →
  firstSeenBefore queue v (queueby x) →
  (count (queueby x) (take p (interleave queue)) < count v queue)%nat →
  (count (queueby x) (take p (interleave queue))
   < count v (take p (interleave queue)))%nat.
Proof.
  intros Hx Hbefore Hk.
  assert (queueby x ∈ (queueby <$> queue)) as Hin.
  { apply list_elem_of_fmap_2. rewrite <- (interleave_perm queue).
    by eapply list_elem_of_lookup_2. }
  destruct (firstSeen_split queue v (queueby x) Hbefore Hin) as (U1 & U2 & HU & Hv).
  pose proof (firstSeen_NoDup queue) as Hnd. rewrite HU in Hnd.
  pose proof (rounds_prefix_fair
                (max_list_with length (videosOf queue <$> firstSeen queue))
                U1 U2 (queueby x) v (videosOf queue) (S p) Hnd
                (ownVideos_videosOf queue) Hv) as Hfair.
  rewrite <- HU in Hfair. fold (interleave queue) in Hfair.
  rewrite (take_S_r _ _ x Hx), !count_app in Hfair.
  assert (v ≠ queueby x) as Hne.
  { intros ->. apply NoDup_app in Hnd as (_ & Hdisj & _).
    apply (Hdisj _ Hv). left. }
  assert (count (queueby x) [x] = 1%nat) as Hown.
  { unfold count, videosOf. by rewrite filter_cons_True. }
  assert (count v [x] = 0%nat) as Hother.
  { unfold count, videosOf. by rewrite filter_cons_False. }
  rewrite Hown, Hother in Hfair. unfold count at 2 in Hk. lia.
Qed.

(** C2. For every queue, [roundRobinSortVideos] returns (it throws on no
    input) a permutation of the queue, so the uids are the same with the
    same multiplicities; on the empty queue it returns the empty list. *)
Theorem roundRobinSortVideos_permutation (context : Context) :
  ∃ sorted,
    roundRobinSortVideos context = Some sorted
    ∧ sorted ≡ₚ VideoQueue context
    ∧ (uid <$> sorted) ≡ₚ (uid <$> VideoQueue context)
    ∧ (VideoQueue context = [] → sorted = []).
Proof.
  exists (interleave (VideoQueue context)).
  pose proof (interleave_perm (VideoQueue context)) as Hperm.
  split_and!.
  - apply roundRobinSortVideos_interleave.
  - done.
  - by rewrite Hperm.
  - intros Hnil. by rewrite Hnil.
Qed.

(** C3. [roundRobinSortVideos] returns the round-robin interleaving of
    the submitters taken in first-seen order. The videos of any one
    submitter keep their order. And if [x], at place [p] of the output, is
    the [k]-th video of its submitter (counting from 0), then every
    submitter first seen earlier that has more than [k] videos in all
    already has more than [k] of them among the first [p]. *)
Theorem roundRobinSortVideos_round_robin (context : Context) :
  ∃ sorted,
    roundRobinSortVideos context = Some sorted
    ∧ sorted = interleave (VideoQueue context)
    ∧ (∀ user, videosOf sorted user = videosOf (VideoQueue context) user)
    ∧ (∀ p x v,
         sorted !! p = Some x →
         firstSeenBefore (VideoQueue context) v (queueby x) →
         (count (queueby x) (take p sorted) < count v (VideoQueue context))%nat →
         (count (queueby x) (take p sorted) < count v (take p sorted))%nat).
Proof.
  exists (interleave (VideoQueue context)). split_and!.
  - apply roundRobinSortVideos_interleave.
  - done.
  - intros user. apply videosOf_interleave.
  - intros p x v. apply interleave_fair.
Qed.

(** The queue [1a, 2a, 3b, 4a, 5c, 6b] sorts to [1a, 3b, 5c, 2a, 6b, 4a].
    The video 6b, at place 4, is the second of [b]; [a] was seen before
    [b] and has three videos, and two of them stand before place 4. *)
Lemma roundRobinSortVideos_round_robin_witness :
  ∃ sorted,
    roundRobinSortVideos
      (ctxOf true [mk 1 "a"; mk 2 "a"; mk 3 "b"; mk 4 "a"; mk 5 "c"; mk 6 "b"])
    = Some sorted
    ∧ uid <$> sorted = [1; 3; 5; 2; 6; 4]
    ∧ (count "b" (take 4 sorted) < count "a" (take 4 sorted))%nat.
Proof.
  destruct (roundRobinSortVideos_round_robin
              (ctxOf true [mk 1 "a"; mk 2 "a"; mk 3 "b"; mk 4 "a"; mk 5 "c"; mk 6 "b"]))
    as (sorted & Hsorted & Heq & _ & Hfair).
  exists sorted. split; [exact Hsorted|].
  assert (sorted = [mk 1 "a"; mk 3 "b"; mk 5 "c"; mk 2 "a"; mk 6 "b"; mk 4 "a"])
    as Hval by (rewrite Heq; reflexivity).
  split; [by rewrite Hval|].
  apply (Hfair 4%nat (mk 6 "b") "a").
  - by rewrite Hval.
  - exists [mk 1 "a"], [mk 2 "a"; mk 3 "b"; mk 4 "a"; mk 5 "c"; mk 6 "b"].
    split; [reflexivity|]. split; by apply (bool_decide_unpack _).
  - rewrite Hval. vm_compute. lia.
Defined.

(** ** The move generator *)

Lemma withVideoQueue_id context :
  withVideoQueue (withRefCounter context (moveVideoRefCounter context))
                 (VideoQueue context) = context.
Proof. by destruct context. Qed.

(** When the target starts with the video the mirror starts with, and
    [-1] is no uid, the commands of [sortCytube] rebuild the target. *)
Lemma sortCytube_moves context target :
  NoDup (uid <$> VideoQueue context) →
  target ≡ₚ VideoQueue context →
  Forall (λ x, uid x ≠ -1) target →
  head target = head (VideoQueue context) →
  ∃ refs log,
    sortCytube context target
    = Returned (withVideoQueue (withRefCounter context refs) target) log
    ∧ applyMoves (dispatched log) (VideoQueue context) = Some target.
Proof.
  intros Hnd Hperm Huid Hhead. unfold sortCytube.
  destruct target as [|s rest].
  - apply Permutation_nil_l in Hperm. rewrite <- Hperm. by eexists _, _.
  - destruct (VideoQueue context) as [|t W] eqn:Hq; [done|].
    injection Hhead as <-. apply Permutation_cons_inv in Hperm.
    apply Forall_cons in Huid as [Hs Hrest].
    rewrite sortLoop_cons. change (Js.get (s :: W) 0) with (Some s).
    change (negb (-1 =? -1) && _) with false. cbv iota.
    destruct (sortLoop_moves (isAutoSortEnabled context) rest [] s W
                (moveVideoRefCounter context)) as (refs & log & Hloop & Hmoves);
      [done|by symmetry|done..|].
    change (Z.of_nat (S (length []))) with (0 + 1) in Hloop.
    simpl app in Hloop. rewrite Hloop. by eexists _, _.
Qed.

(** C1, as stated, fails. On the mirror [1, 2, 3] and the target
    [3, 2, 1] (distinct uids, a permutation) [sortCytube] emits the one
    command "1 after 2", which turns the mirror into [2, 1, 3]: nothing
    is emitted at index 0, whatever stands there. And on the mirror
    [-1, 2, 3, 4] and the target [-1, 4, 3, 2] it emits the one command
    "2 after 3", which gives [-1, 3, 2, 4]: the command due right after
    the video with uid [-1] is held back as well. *)
Lemma sortCytube_ignores_first_place :
  (NoDup (uid <$> reversedCurrent)
   ∧ reversedTarget ≡ₚ reversedCurrent
   ∧ uidsOf (sortCytube (ctxOf true reversedCurrent) reversedTarget)
     = Some ([3; 2; 1], [{| from := 1; after := 2 |}])
   ∧ applyMoves [{| from := 1; after := 2 |}] reversedCurrent
     = Some [mk 2 "b"; mk 1 "a"; mk 3 "c"]
   ∧ applyMoves [{| from := 1; after := 2 |}] reversedCurrent ≠ Some reversedTarget)
  ∧ (NoDup (uid <$> sentinelFirstCurrent)
     ∧ sentinelFirstTarget ≡ₚ sentinelFirstCurrent
     ∧ head sentinelFirstTarget = head sentinelFirstCurrent
     ∧ uidsOf (sortCytube (ctxOf true sentinelFirstCurrent) sentinelFirstTarget)
       = Some ([-1; 4; 3; 2], [{| from := 2; after := 3 |}])
     ∧ applyMoves [{| from := 2; after := 3 |}] sentinelFirstCurrent
       = Some [mk (-1) "a"; mk 3 "c"; mk 2 "b"; mk 4 "d"]
     ∧ applyMoves [{| from := 2; after := 3 |}] sentinelFirstCurrent
       ≠ Some sentinelFirstTarget).
Proof.
  split; split_and!;
    first [by apply (bool_decide_unpack _) | by vm_compute].
Qed.

(** C1, amended. If the uids of the mirror are pairwise distinct and none
    is [-1], and the target is a permutation of the mirror that starts
    with the same video, then [sortCytube] returns, and its commands,
    applied to the mirror one at a time in the order emitted, give the
    target. *)
Theorem sortCytube_reaches_target (context : Context) (target : list PlaylistItem) :
  NoDup (uid <$> VideoQueue context) →
  target ≡ₚ VideoQueue context →
  Forall (λ x, uid x ≠ -1) target →
  head target = head (VideoQueue context) →
  ∃ context' log,
    sortCytube context target = Returned context' log
    ∧ VideoQueue context' = target
    ∧ applyMoves (dispatched log) (VideoQueue context) = Some target.
Proof.
  intros Hnd Hperm Huid Hhead.
  destruct (sortCytube_moves context target) as (refs & log & -> & Hmoves); [done..|].
  by eexists _, _.
Qed.

Lemma sortCytube_reaches_target_witness :
  ∃ context' log,
    sortCytube (ctxOf true [mk 1 "a"; mk 2 "a"; mk 3 "b"])
               [mk 1 "a"; mk 3 "b"; mk 2 "a"] = Returned context' log
    ∧ VideoQueue context' = [mk 1 "a"; mk 3 "b"; mk 2 "a"]
    ∧ applyMoves (dispatched log) (VideoQueue (ctxOf true [mk 1 "a"; mk 2 "a"; mk 3 "b"]))
      = Some [mk 1 "a"; mk 3 "b"; mk 2 "a"].
Proof.
  apply (sortCytube_reaches_target (ctxOf true [mk 1 "a"; mk 2 "a"; mk 3 "b"])
           [mk 1 "a"; mk 3 "b"; mk 2 "a"]).
  - by apply (bool_decide_unpack _).
  - by apply (bool_decide_unpack _).
  - by apply (bool_decide_unpack _).
  - reflexivity.
Defined.

(** C8. If the uids of the mirror are pairwise distinct and
    [roundRobinSortVideos] gives the mirror back unchanged, then
    [sortCytube], run on the mirror with that result as the target, emits
    no command: it performs no effect at all and leaves the context as it
    was. *)
Theorem sortCytube_sorted_no_commands (context : Context) (sorted : list PlaylistItem) :
  NoDup (uid <$> VideoQueue context) →
  roundRobinSortVideos context = Some sorted →
  sorted = VideoQueue context →
  ∃ log,
    sortCytube context sorted = Returned context log
    ∧ dispatched log = []
    ∧ resort context = Returned context log.
Proof.
  intros _ Hsorted ->.
  assert (sortCytube context (VideoQueue context) = Returned context []) as Hsort.
  { unfold sortCytube.
    rewrite (sortLoop_same (isAutoSortEnabled context) (VideoQueue context) [] (-1)).
    by rewrite withVideoQueue_id. }
  exists []. split_and!; [done..|]. unfold resort. by rewrite Hsorted.
Qed.

Lemma sortCytube_sorted_no_commands_witness :
  ∃ log,
    sortCytube (ctxOf true [mk 1 "u1"; mk 2 "u2"; mk 3 "u1"])
               [mk 1 "u1"; mk 2 "u2"; mk 3 "u1"]
    = Returned (ctxOf true [mk 1 "u1"; mk 2 "u2"; mk 3 "u1"]) log
    ∧ dispatched log = []
    ∧ resort (ctxOf true [mk 1 "u1"; mk 2 "u2"; mk 3 "u1"])
      = Returned (ctxOf true [mk 1 "u1"; mk 2 "u2"; mk 3 "u1"]) log.
Proof.
  apply (sortCytube_sorted_no_commands
           (ctxOf true [mk 1 "u1"; mk 2 "u2"; mk 3 "u1"])
           [mk 1 "u1"; mk 2 "u2"; mk 3 "u1"]).
  - by apply (bool_decide_unpack _).
  - reflexivity.
  - reflexivity.
Defined.

(** A mirror one move away from sorted: [A(u1), C(u1), B(u2)], with uids
    1, 3, 2, sorts to [A, B, C] and costs exactly one command, which moves
    B to after A. *)
Example sortCytube_one_command :
  uidsOf (resort (ctxOf true [mk 1 "u1"; mk 3 "u1"; mk 2 "u2"]))
  = Some ([1; 2; 3], [{| from := 2; after := 1 |}]).
Proof. by vm_compute. Qed.

(** ** The reconciliation pass *)

(** [resort] never throws: it installs the round-robin order as the
    mirror, and its effects are those of the commands it emits. *)
Lemma resort_returns context :
  ∃ log,
    resort context
    = Returned (withVideoQueue
                  (withRefCounter context
                     (recordAll (isAutoSortEnabled context) (dispatched log)
                                (moveVideoRefCounter context)))
                  (interleave (VideoQueue context))) log
    ∧ log = flat_map (commandEffects (isAutoSortEnabled context)) (dispatched log).
Proof.
  unfold resort, sortCytube. rewrite roundRobinSortVideos_interleave.
  destruct (sortLoop_total (isAutoSortEnabled context)
              (interleave (VideoQueue context)) 0 (-1) (VideoQueue context)
              (moveVideoRefCounter context)) as [[refs log] Hloop]; [lia| |].
  { rewrite (Permutation_length (interleave_perm (VideoQueue context))). lia. }
  rewrite Hloop. apply sortLoop_log in Hloop as [Hlog ->]. by exists log.
Qed.

Lemma head_interleave queue : head (interleave queue) = head queue.
Proof. destruct queue as [|x queue]; [done|]. apply interleave_head. Qed.

(** C9, as stated, fails on a uid equal to the sentinel [-1] of
    [sortCytube]: the mirror [1, -1, 3, 4, 5] and the target
    [1, -1, 5, 4, 3] have distinct uids and the same first video, yet the
    command due at index 2, right after the video with uid [-1], is not
    emitted; the one command that is emitted gives [1, -1, 4, 3, 5]. *)
Lemma sortCytube_sentinel_uid :
  NoDup (uid <$> sentinelCurrent)
  ∧ sentinelTarget ≡ₚ sentinelCurrent
  ∧ head sentinelTarget = head sentinelCurrent
  ∧ uidsOf (sortCytube (ctxOf true sentinelCurrent) sentinelTarget)
    = Some ([1; -1; 5; 4; 3], [{| from := 3; after := 4 |}])
  ∧ applyMoves [{| from := 3; after := 4 |}] sentinelCurrent
    = Some [mk 1 "a"; mk (-1) "b"; mk 4 "d"; mk 3 "c"; mk 5 "e"]
  ∧ applyMoves [{| from := 3; after := 4 |}] sentinelCurrent ≠ Some sentinelTarget.
Proof.
  split_and!.
  - by apply (bool_decide_unpack _).
  - by apply (bool_decide_unpack _).
  - done.
  - by vm_compute.
  - by vm_compute.
  - by vm_compute.
Qed.

(** C9, amended. Let the uids of the mirror be pairwise distinct. Then
    [roundRobinSortVideos] returns a list with the same first video as the
    mirror. If moreover no uid is [-1], then for every permutation
    [target] of the mirror with that same first video the commands of
    [sortCytube] turn the mirror into [target]; and so the pass the
    handlers run, [resort], emits commands that turn the mirror into the
    sorted order it installs. *)
Theorem sortCytube_correct_on_sorter_output
    (context : Context) (target : list PlaylistItem) :
  NoDup (uid <$> VideoQueue context) →
  (∃ sorted, roundRobinSortVideos context = Some sorted
             ∧ head sorted = head (VideoQueue context))
  ∧ (Forall (λ x, uid x ≠ -1) (VideoQueue context) →
     target ≡ₚ VideoQueue context →
     head target = head (VideoQueue context) →
     (∃ context' log,
        sortCytube context target = Returned context' log
        ∧ applyMoves (dispatched log) (VideoQueue context) = Some target)
     ∧ (∃ sorted context' log,
          roundRobinSortVideos context = Some sorted
          ∧ resort context = Returned context' log
          ∧ VideoQueue context' = sorted
          ∧ applyMoves (dispatched log) (VideoQueue context) = Some sorted)).
Proof.
  intros Hnd. split.
  { exists (interleave (VideoQueue context)).
    split; [apply roundRobinSortVideos_interleave|apply head_interleave]. }
  intros Huid Hperm Hhead. split.
  - destruct (sortCytube_moves context target) as (refs & log & -> & Hmoves);
      [done|done| |done|by eexists _, _].
    by rewrite Hperm.
  - pose proof (interleave_perm (VideoQueue context)) as Hp.
    destruct (sortCytube_moves context (interleave (VideoQueue context)))
      as (refs & log & Hsort & Hmoves);
      [done|done|by rewrite Hp|apply head_interleave|].
    exists (interleave (VideoQueue context)).
    unfold resort. rewrite roundRobinSortVideos_interleave, Hsort.
    by eexists _, _.
Qed.

Lemma sortCytube_correct_on_sorter_output_witness :
  (∃ sorted,
     roundRobinSortVideos (ctxOf true [mk 1 "u1"; mk 3 "u1"; mk 2 "u2"]) = Some sorted
     ∧ head sorted = Some (mk 1 "u1"))
  ∧ (∃ context' log,
       sortCytube (ctxOf true [mk 1 "u1"; mk 3 "u1"; mk 2 "u2"])
                  [mk 1 "u1"; mk 2 "u2"; mk 3 "u1"] = Returned context' log
       ∧ applyMoves (dispatched log) [mk 1 "u1"; mk 3 "u1"; mk 2 "u2"]
         = Some [mk 1 "u1"; mk 2 "u2"; mk 3 "u1"]).
Proof.
  destruct (sortCytube_correct_on_sorter_output
              (ctxOf true [mk 1 "u1"; mk 3 "u1"; mk 2 "u2"])
              [mk 1 "u1"; mk 2 "u2"; mk 3 "u1"]) as [Hhead Hrest].
  - by apply (bool_decide_unpack _).
  - split; [exact Hhead|]. apply Hrest.
    + by apply (bool_decide_unpack _).
    + by apply (bool_decide_unpack _).
    + reflexivity.
Defined.

(** ** Echo suppression *)

Section EchoFacts.
Implicit Types (refs : gmap string bool) (moves : list MoveVideoResponse).

Lemma recordAll_keeps moves refs key :
  refs !! key = Some true → recordAll true moves refs !! key = Some true.
Proof.
  revert refs. induction moves as [|d moves IH]; intros refs Hkey; [done|].
  rewrite recordAll_cons. apply IH.
  destruct (decide (JSON_stringify d = key)) as [->|Hne].
  - apply lookup_insert_eq.
  - by rewrite lookup_insert_ne.
Qed.

(** Every command recorded is pending afterwards. *)
Lemma recordAll_pending moves refs d :
  d ∈ moves → recordAll true moves refs !! JSON_stringify d = Some true.
Proof.
  revert refs. induction moves as [|d' moves IH]; intros refs Hd;
    [by apply elem_of_nil in Hd|].
  rewrite recordAll_cons. apply elem_of_cons in Hd as [->|Hd]; [|by apply IH].
  apply recordAll_keeps, lookup_insert_eq.
Qed.

Lemma sortCytube_log context target context' log :
  sortCytube context target = Returned context' log →
  log = flat_map (commandEffects (isAutoSortEnabled context)) (dispatched log)
  ∧ moveVideoRefCounter context'
    = recordAll (isAutoSortEnabled context) (dispatched log)
                (moveVideoRefCounter context).
Proof.
  unfold sortCytube.
  destruct (sortLoop _ _ _ _ _ _) as [[refs log']|] eqn:Hloop; [|done].
  intros [= <- <-]. by apply sortLoop_log in Hloop as [Hlog ->].
Qed.
(** The object the literal of [sortCytube] builds prints as the
    fingerprint that is recorded, and reads as the command. *)
Lemma append_assoc (s t u : string) : (s +:+ t) +:+ u = s +:+ (t +:+ u).
Proof.
  induction s as [|c s IH]; [done|].
  change (String c ((s +:+ t) +:+ u) = String c (s +:+ (t +:+ u))). by rewrite IH.
Qed.

Lemma stringify_objectOf (data : MoveVideoResponse) :
  JsObject.stringify (objectOf data) = JSON_stringify data.
Proof.
  unfold JsObject.stringify, objectOf, JSON_stringify. cbn [fmap list_fmap fst snd].
  change (JsObject.quote "from") with (dquote +:+ "from" +:+ dquote)%string.
  change (JsObject.quote "after") with (dquote +:+ "after" +:+ dquote)%string.
  cbn [String.concat]. by rewrite !append_assoc.
Qed.

Lemma readsAs_objectOf (data : MoveVideoResponse) : readsAs (objectOf data) data.
Proof. done. Qed.

(** On an object that has both properties the handler moves the mirror
    as [relocate] does. *)
Lemma externalMove_reads context response (data : MoveVideoResponse) :
  readsAs response data →
  externalMove context response
  = match relocate data (VideoQueue context) with
    | None => Threw TypeError
    | Some queue => resort (withVideoQueue context queue)
    end.
Proof. intros [Hfrom Hafter]. unfold externalMove. by rewrite Hfrom, Hafter. Qed.

(** A notification whose text is pending is consumed; one whose text is
    not is a move from outside. *)
Lemma onMoveVideoCallback_pending context response :
  isAutoSortEnabled context = true →
  moveVideoRefCounter context !! JsObject.stringify response = Some true →
  onMoveVideoCallback context response
  = Returned
      (withRefCounter context
         (delete (JsObject.stringify response) (moveVideoRefCounter context)))
      [RefDelete (JsObject.stringify response)].
Proof.
  intros Hauto Hpending. unfold onMoveVideoCallback.
  by rewrite Hauto, Hpending.
Qed.

Lemma onMoveVideoCallback_external context response :
  isAutoSortEnabled context = true →
  moveVideoRefCounter context !! JsObject.stringify response ≠ Some true →
  onMoveVideoCallback context response = externalMove context response.
Proof.
  intros Hauto Hecho. unfold onMoveVideoCallback, externalMove.
  rewrite Hauto. simpl negb. cbv iota zeta.
  by destruct (moveVideoRefCounter context !! JsObject.stringify response) as [[]|].
Qed.
End EchoFacts.

(** C4, as stated, fails. The pass on the mirror [1, 2, 3] records the
    fingerprint of its one command, "3 after 1", and emits it. The
    notification for that move arrives with [after] before [from]: its
    fields match the command, yet its text is not the fingerprint, and
    the handler does not consume it. It treats it as a move from outside
    and leaves the fingerprint pending. *)
Lemma echo_with_keys_swapped_is_not_consumed :
  resort (ctxOf true [mk 1 "a"; mk 2 "a"; mk 3 "b"])
  = Returned afterPass
      [RefSet (JSON_stringify {| from := 3; after := 1 |});
       Emit (moveMedia {| from := 3; after := 1 |})]
  ∧ readsAs [("after"%string, 1); ("from"%string, 3)] {| from := 3; after := 1 |}
  ∧ onMoveVideoCallback afterPass [("after"%string, 1); ("from"%string, 3)]
    = externalMove afterPass [("after"%string, 1); ("from"%string, 3)]
  ∧ onMoveVideoCallback afterPass [("after"%string, 1); ("from"%string, 3)]
    = Returned afterPass []
  ∧ moveVideoRefCounter afterPass !! JSON_stringify {| from := 3; after := 1 |}
    = Some true.
Proof. split_and!; by vm_compute. Qed.

(** C4, amended. With auto-sort on: [sortCytube] sets the fingerprint of
    each command right before it emits the command, and every command
    emitted is pending in the echo map it leaves. A move notification
    whose [JSON.stringify] text is a fingerprint that has been recorded,
    as is the text of the object with the two properties [from] and
    [after], in this order, and no other, is consumed: the handler
    deletes the fingerprint and does nothing else, the mirror stays as it
    was. The same notification once more, nothing recorded in between, is
    handled as a move from outside. *)
Theorem echo_consumed_exactly_once
    (context : Context) (data : MoveVideoResponse) (response : JsObject.t) :
  isAutoSortEnabled context = true →
  JsObject.stringify response = JSON_stringify data →
  (∀ target context' log,
     sortCytube context target = Returned context' log →
     log = flat_map (λ d, [RefSet (JSON_stringify d); Emit (moveMedia d)])
                    (dispatched log)
     ∧ ∀ d, d ∈ dispatched log →
            moveVideoRefCounter context' !! JSON_stringify d = Some true)
  ∧ JsObject.stringify (objectOf data) = JSON_stringify data
  ∧ onMoveVideoCallback
      (withRefCounter context (<[JSON_stringify data := true]> (moveVideoRefCounter context)))
      response
    = Returned
        (withRefCounter context (delete (JSON_stringify data) (moveVideoRefCounter context)))
        [RefDelete (JSON_stringify data)]
  ∧ onMoveVideoCallback
      (withRefCounter context (delete (JSON_stringify data) (moveVideoRefCounter context)))
      response
    = externalMove
        (withRefCounter context (delete (JSON_stringify data) (moveVideoRefCounter context)))
        response.
Proof.
  intros Hauto Htext. split_and!.
  - intros target context' log Hsort.
    apply sortCytube_log in Hsort as [Hlog Hrefs]. rewrite Hauto in Hlog, Hrefs.
    split; [done|]. intros d Hd. rewrite Hrefs. by apply recordAll_pending.
  - apply stringify_objectOf.
  - rewrite onMoveVideoCallback_pending; simpl; rewrite ?Htext.
    + unfold withRefCounter. simpl. by rewrite delete_insert_eq.
    + done.
    + apply lookup_insert_eq.
  - apply onMoveVideoCallback_external; simpl; [done|].
    by rewrite Htext, lookup_delete_eq.
Qed.

Lemma echo_consumed_exactly_once_witness :
  onMoveVideoCallback
    (withRefCounter (ctxOf true [mk 1 "a"; mk 2 "b"])
       (<[JSON_stringify {| from := 2; after := 1 |} := true]> ∅))
    (objectOf {| from := 2; after := 1 |})
  = Returned
      (withRefCounter (ctxOf true [mk 1 "a"; mk 2 "b"])
         (delete (JSON_stringify {| from := 2; after := 1 |}) ∅))
      [RefDelete (JSON_stringify {| from := 2; after := 1 |})].
Proof.
  apply (echo_consumed_exactly_once (ctxOf true [mk 1 "a"; mk 2 "b"])
           {| from := 2; after := 1 |} (objectOf {| from := 2; after := 1 |}));
    reflexivity.
Defined.

(** ** Auto-sort switched off *)

(** C5, as stated, fails both ways. With auto-sort off, a delete and a
    move leave the mirror as it is, where with auto-sort on they change
    it; and an insert still emits relocation commands. *)
Lemma disabled_is_not_mirror_only :
  uidsOf (onDeleteCallback (ctxOf false [mk 1 "a"; mk 2 "b"]) 2) = Some ([1; 2], [])
  ∧ uidsOf (onDeleteCallback (ctxOf true [mk 1 "a"; mk 2 "b"]) 2) = Some ([1], [])
  ∧ uidsOf (onMoveVideoCallback (ctxOf false [mk 1 "a"; mk 2 "a"])
              (objectOf {| from := 1; after := 2 |})) = Some ([1; 2], [])
  ∧ uidsOf (onMoveVideoCallback (ctxOf true [mk 1 "a"; mk 2 "a"])
              (objectOf {| from := 1; after := 2 |})) = Some ([2; 1], [])
  ∧ uidsOf (onQueueCallback (ctxOf false [mk 1 "a"; mk 2 "a"])
              {| item := mk 3 "b"; q_after := AfterNumber 2 |})
    = Some ([1; 3; 2], [{| from := 3; after := 1 |}]).
Proof. split_and!; by vm_compute. Qed.

(** C5, amended. With auto-sort off, a move and a delete notification
    change nothing and emit nothing; an insert notification leaves the
    mirror exactly as the same notification does with auto-sort on, and
    records no fingerprint. *)
Theorem disabled_autosort (context : Context) :
  isAutoSortEnabled context = false →
  (∀ response, onMoveVideoCallback context response = Returned context [])
  ∧ (∀ response_uid, onDeleteCallback context response_uid = Returned context [])
  ∧ (∀ response, ∃ c_off log_off c_on log_on,
       onQueueCallback context response = Returned c_off log_off
       ∧ onQueueCallback (withAutoSort context true) response = Returned c_on log_on
       ∧ VideoQueue c_off = VideoQueue c_on
       ∧ moveVideoRefCounter c_off = moveVideoRefCounter context
       ∧ log_off = Emit ∘ moveMedia <$> dispatched log_off).
Proof.
  intros Hoff. split_and!.
  - intros response. unfold onMoveVideoCallback. by rewrite Hoff.
  - intros response_uid. unfold onDeleteCallback. by rewrite Hoff.
  - intros response. unfold onQueueCallback.
    set (queue := if isPrepend _ then _ else _).
    destruct (resort_returns (withVideoQueue context queue)) as (log_off & Hr_off & Hlog).
    destruct (resort_returns (withVideoQueue (withAutoSort context true) queue))
      as (log_on & Hr_on & _).
    simpl in Hr_off, Hr_on, Hlog. rewrite Hoff in Hr_off, Hlog.
    eexists _, log_off, _, log_on. split_and!; [exact Hr_off|exact Hr_on|done..|].
    rewrite Hlog at 1. clear. induction (dispatched log_off) as [|d l IH]; [done|].
    simpl. by f_equal.
Qed.

Lemma disabled_autosort_witness :
  onDeleteCallback (ctxOf false [mk 1 "a"; mk 2 "b"]) 2
  = Returned (ctxOf false [mk 1 "a"; mk 2 "b"]) [].
Proof.
  apply (disabled_autosort (ctxOf false [mk 1 "a"; mk 2 "b"])). reflexivity.
Defined.

(** ** References to videos that are not there *)

(** C6, as stated, fails: on the mirror [1, 2, 3, 4] a delete for the
    unknown uid 99 raises nothing and asks for no resync; [splice(-1, 1)]
    removes the last video, and the pass that follows emits a relocation
    command. *)
Lemma delete_unknown_uid_removes_last :
  Forall (λ video, uid video ≠ 99) [mk 1 "a"; mk 2 "a"; mk 3 "b"; mk 4 "b"]
  ∧ ∃ context' log,
      onDeleteCallback (ctxOf true [mk 1 "a"; mk 2 "a"; mk 3 "b"; mk 4 "b"]) 99
      = Returned context' log
      ∧ resyncRequested log = false
      ∧ dispatched log = [{| from := 3; after := 1 |}]
      ∧ uid <$> VideoQueue context' = [1; 3; 2].
Proof.
  split; [by apply (bool_decide_unpack _)|].
  eexists _, _. split; [by vm_compute|]. by vm_compute.
Qed.

Lemma resort_no_resync context context' log :
  resort context = Returned context' log → resyncRequested log = false.
Proof.
  destruct (resort_returns context) as (log' & -> & Hlog). intros [= _ <-].
  rewrite Hlog. clear. induction (dispatched log') as [|d l IH]; [done|].
  simpl flat_map. unfold resyncRequested in *. rewrite existsb_app, IH.
  by destruct (isAutoSortEnabled context).
Qed.

(** C6, amended. A delete notification for a uid that is not in the
    mirror raises no error and asks for no resync; with auto-sort off it
    changes nothing and emits nothing. *)
Theorem delete_unknown_uid (context : Context) (response_uid : Z) :
  Forall (λ video, uid video ≠ response_uid) (VideoQueue context) →
  ∃ context' log,
    onDeleteCallback context response_uid = Returned context' log
    ∧ resyncRequested log = false
    ∧ (isAutoSortEnabled context = false → context' = context ∧ log = []).
Proof.
  intros _. unfold onDeleteCallback.
  destruct (isAutoSortEnabled context) eqn:Hauto; simpl negb; cbv iota.
  - destruct (Js.splice (VideoQueue context)
                (Js.findIndex (hasUid response_uid) (VideoQueue context)) 1 [])
      as [removed queue].
    destruct (resort_returns (withVideoQueue context queue)) as (log & Hr & Hlog).
    eexists _, log. split_and!; [exact Hr| |done].
    by eapply resort_no_resync.
  - by eexists _, _.
Qed.

Lemma delete_unknown_uid_witness :
  ∃ context' log,
    onDeleteCallback (ctxOf true [mk 1 "a"; mk 2 "b"]) 99 = Returned context' log
    ∧ resyncRequested log = false
    ∧ (isAutoSortEnabled (ctxOf true [mk 1 "a"; mk 2 "b"]) = false →
       context' = ctxOf true [mk 1 "a"; mk 2 "b"] ∧ log = []).
Proof.
  apply (delete_unknown_uid (ctxOf true [mk 1 "a"; mk 2 "b"]) 99).
  by apply (bool_decide_unpack _).
Defined.

Lemma relocateBy_to_front (isFrom isAfter : PlaylistItem → bool) a video b :
  isFrom video = true →
  Forall (λ v, isFrom v = false) a →
  Forall (λ v, isAfter v = false) (a ++ video :: b) →
  relocateBy isFrom isAfter (a ++ video :: b) = Some (video :: a ++ b).
Proof.
  intros Hvideo Ha Hafter. unfold relocateBy.
  rewrite findIndex_found, get_middle, splice_delete_middle by done.
  rewrite findIndex_none.
  - change (-1 + 1) with 0. by rewrite splice_insert_front.
  - apply Forall_app in Hafter as [H1 H2]. apply Forall_cons in H2 as [_ H2].
    by apply Forall_app.
Qed.

Lemma resort_head context :
  ∃ context' log,
    resort context = Returned context' log
    ∧ head (VideoQueue context') = head (VideoQueue context).
Proof.
  destruct (resort_returns context) as (log & -> & _).
  eexists _, _. split; [done|]. apply head_interleave.
Qed.

(** C10, as stated, fails in three ways. A move whose [from] is unknown
    as well makes the handler throw; with auto-sort off the move is
    ignored and the video stays where it was; and a move whose
    fingerprint is pending is consumed as an echo, the mirror untouched. *)
Lemma dangling_move_not_always_to_front :
  onMoveVideoCallback (ctxOf true [mk 1 "a"]) (objectOf {| from := 7; after := 9 |})
  = Threw TypeError
  ∧ onMoveVideoCallback (ctxOf false [mk 1 "a"; mk 2 "b"])
      (objectOf {| from := 2; after := 9 |})
    = Returned (ctxOf false [mk 1 "a"; mk 2 "b"]) []
  ∧ uidsOf (onMoveVideoCallback
              (withRefCounter (ctxOf true [mk 1 "a"; mk 2 "b"])
                 {[ JSON_stringify {| from := 2; after := 9 |} := true ]})
              (objectOf {| from := 2; after := 9 |}))
    = Some ([1; 2], []).
Proof. split_and!; by vm_compute. Qed.

(** C10, amended. An insert notification whose [after] is neither the
    string [prepend] nor the uid of a video in the mirror raises nothing:
    the new video goes to the front and the pass runs on that mirror. So
    does a move notification whose [after] is the uid of no video in the
    mirror, provided auto-sort is on, the move is not a pending echo, and
    some video has the uid [from]: that video goes to the front. In both
    cases the video is still first when the handler returns. *)
Theorem dangling_after_goes_to_front (context : Context) :
  (∀ response,
     isPrepend (q_after response) = false →
     Forall (λ v, uidIs (q_after response) v = false) (VideoQueue context) →
     onQueueCallback context response
     = resort (withVideoQueue context (item response :: VideoQueue context))
     ∧ ∃ context' log,
         onQueueCallback context response = Returned context' log
         ∧ head (VideoQueue context') = Some (item response))
  ∧ (∀ response a video b,
       isAutoSortEnabled context = true →
       moveVideoRefCounter context !! JsObject.stringify response ≠ Some true →
       VideoQueue context = a ++ video :: b →
       uidEquals (JsObject.property response "from") video = true →
       Forall (λ v, uidEquals (JsObject.property response "from") v = false) a →
       Forall (λ v, uidEquals (JsObject.property response "after") v = false)
              (VideoQueue context) →
       onMoveVideoCallback context response
       = resort (withVideoQueue context (video :: a ++ b))
       ∧ ∃ context' log,
           onMoveVideoCallback context response = Returned context' log
           ∧ head (VideoQueue context') = Some video).
Proof.
  split.
  - intros response Hprepend Hafter.
    assert (onQueueCallback context response
            = resort (withVideoQueue context (item response :: VideoQueue context)))
      as Heq.
    { unfold onQueueCallback. rewrite Hprepend, findIndex_none by done.
      change (-1 + 1) with 0. by rewrite splice_insert_front. }
    split; [done|]. rewrite Heq. apply resort_head.
  - intros response a video b Hauto Hecho Hqueue Hvideo Ha Hafter.
    assert (onMoveVideoCallback context response
            = resort (withVideoQueue context (video :: a ++ b))) as Heq.
    { rewrite onMoveVideoCallback_external by done. unfold externalMove.
      rewrite Hqueue in Hafter |- *. by rewrite relocateBy_to_front. }
    split; [done|]. rewrite Heq. apply resort_head.
Qed.

Lemma dangling_after_goes_to_front_witness :
  (∃ context' log,
     onQueueCallback (ctxOf true [mk 1 "a"; mk 2 "b"])
       {| item := mk 3 "c"; q_after := AfterNumber 99 |} = Returned context' log
     ∧ head (VideoQueue context') = Some (mk 3 "c"))
  ∧ (∃ context' log,
       onMoveVideoCallback (ctxOf true [mk 1 "a"; mk 2 "b"])
         (objectOf {| from := 2; after := 99 |}) = Returned context' log
       ∧ head (VideoQueue context') = Some (mk 2 "b")).
Proof.
  destruct (dangling_after_goes_to_front (ctxOf true [mk 1 "a"; mk 2 "b"]))
    as [Hqueue Hmove].
  split.
  - apply (Hqueue {| item := mk 3 "c"; q_after := AfterNumber 99 |}).
    + reflexivity.
    + by apply (bool_decide_unpack _).
  - apply (Hmove (objectOf {| from := 2; after := 99 |}) [mk 1 "a"] (mk 2 "b") []).
    + reflexivity.
    + by vm_compute.
    + reflexivity.
    + reflexivity.
    + by apply (bool_decide_unpack _).
    + by apply (bool_decide_unpack _).
Defined.

(** ** Remote error messages *)

Section StringFacts.
Implicit Types (s t pre mid post : string) (c : ascii).

Lemma append_cons c s t : String c s +:+ t = String c (s +:+ t).
Proof. done. Qed.

Lemma append_nil s : EmptyString +:+ s = s.
Proof. done. Qed.

Lemma startsWith_spec s t : Js.startsWith s t = true ↔ ∃ post, s = t +:+ post.
Proof.
  revert s. induction t as [|b t IH]; intros s.
  - destruct s; simpl; split; eauto.
  - destruct s as [|a s]; simpl.
    + split; [done|]. intros [post Hpost]. by rewrite append_cons in Hpost.
    + destruct (Ascii.eqb_spec a b) as [->|Hne].
      * rewrite IH. split; intros [post Hpost]; exists post;
          rewrite append_cons in *; congruence.
      * split; [done|]. intros [post Hpost]. rewrite append_cons in Hpost.
        congruence.
Qed.

Lemma includes_cons c s t :
  Js.includes (String c s) t
  = if Js.startsWith (String c s) t then true else Js.includes s t.
Proof. done. Qed.

Lemma includes_spec s t :
  Js.includes s t = true ↔ ∃ pre post, s = pre +:+ t +:+ post.
Proof.
  induction s as [|c s IH].
  - change (Js.includes EmptyString t)
      with (if Js.startsWith EmptyString t then true else false).
    destruct (Js.startsWith EmptyString t) eqn:Hstart.
    + split; [|done]. intros _. apply startsWith_spec in Hstart as [post ->].
      by exists EmptyString, post.
    + split; [done|]. intros (pre & post & Heq).
      destruct pre; [|by rewrite append_cons in Heq]. rewrite append_nil in Heq.
      assert (Js.startsWith EmptyString t = true) by (apply startsWith_spec; eauto).
      congruence.
  - rewrite includes_cons.
    destruct (Js.startsWith (String c s) t) eqn:Hstart.
    + split; [|done]. intros _. apply startsWith_spec in Hstart as [post ->].
      by exists EmptyString, post.
    + rewrite IH. split.
      * intros (pre & post & ->). by exists (String c pre), post.
      * intros (pre & post & Heq). destruct pre as [|c' pre].
        -- rewrite append_nil in Heq.
           assert (Js.startsWith (String c s) t = true)
             by (apply startsWith_spec; eauto).
           congruence.
        -- rewrite append_cons in Heq. injection Heq as -> ->. by exists pre, post.
Qed.

Lemma toLowerCase_app s t :
  Js.toLowerCase (s +:+ t) = Js.toLowerCase s +:+ Js.toLowerCase t.
Proof.
  induction s as [|c s IH]; [done|].
  rewrite append_cons. simpl Js.toLowerCase. by rewrite append_cons, IH.
Qed.

Lemma toLowerCase_split s pre post :
  Js.toLowerCase s = pre +:+ post →
  ∃ s1 s2, s = s1 +:+ s2 ∧ Js.toLowerCase s1 = pre ∧ Js.toLowerCase s2 = post.
Proof.
  revert s. induction pre as [|c pre IH]; intros s Heq.
  - by exists EmptyString, s.
  - rewrite append_cons in Heq. destruct s as [|a s]; [done|].
    simpl in Heq. injection Heq as Hc Heq.
    destruct (IH s Heq) as (s1 & s2 & -> & H1 & H2).
    exists (String a s1), s2. rewrite append_cons. simpl Js.toLowerCase.
    by rewrite Hc, H1.
Qed.
End StringFacts.

Lemma includes_toLowerCase msg phrase :
  Js.includes (Js.toLowerCase msg) (Js.toLowerCase phrase) = true
  ↔ containsIgnoringCase msg phrase.
Proof.
  rewrite includes_spec. split.
  - intros (pre & post & Heq).
    apply toLowerCase_split in Heq as (s1 & s23 & -> & H1 & Heq).
    apply toLowerCase_split in Heq as (s2 & s3 & -> & H2 & H3).
    by exists s1, s2, s3.
  - intros (pre & mid & post & -> & Hmid).
    exists (Js.toLowerCase pre), (Js.toLowerCase post).
    by rewrite !toLowerCase_app, Hmid.
Qed.

Lemma isCritical_isFatal msg :
  existsb (λ error, Js.includes (Js.toLowerCase msg) (Js.toLowerCase error))
          criticalErrors = true
  ↔ isFatal msg.
Proof.
  unfold criticalErrors, isFatal. cbn [existsb].
  rewrite !orb_true_iff, !includes_toLowerCase. intuition discriminate.
Qed.

(** C7. [onErrorMsg] throws exactly when the message holds one of the
    five fatal phrases, the case of letters ignored; what it throws is an
    [Error] with the message. On any other message it logs the message
    and returns, the context unchanged. *)
Theorem onErrorMsg_fatal_iff (context : Context) (msg : string) :
  ((∃ e, onErrorMsg context msg = Threw e) ↔ isFatal msg)
  ∧ (isFatal msg → onErrorMsg context msg = Threw (Error msg))
  ∧ (¬ isFatal msg → onErrorMsg context msg = Returned context [ConsoleError msg]).
Proof.
  unfold onErrorMsg. rewrite <- isCritical_isFatal.
  destruct (existsb _ criticalErrors); split_and!.
  - split; [done|]. intros _. by eexists.
  - done.
  - by intros [].
  - split; [by intros [e [=]]|done].
  - done.
  - done.
Qed.

Example onErrorMsg_fatal :
  onErrorMsg (ctxOf true [mk 1 "a"]) "Oops: INVALID LOGIN attempt"
  = Threw (Error "Oops: INVALID LOGIN attempt").
Proof. reflexivity. Qed.

Example onErrorMsg_advisory :
  onErrorMsg (ctxOf true [mk 1 "a"]) "Invalid log in"
  = Returned (ctxOf true [mk 1 "a"]) [ConsoleError "Invalid log in"].
Proof. reflexivity. Qed.

(** ** More on the sorter *)

Section SorterMore.
Implicit Types (queue : list PlaylistItem) (names : list string).

Lemma seenFrom_known names queue :
  Forall (λ x, queueby x ∈ names) queue → seenFrom names queue = names.
Proof.
  induction 1 as [|x queue Hx _ IH]; [done|].
  rewrite seenFrom_cons. by rewrite decide_True.
Qed.

Lemma seenFrom_fresh names queue :
  NoDup (names ++ (queueby <$> queue)) →
  seenFrom names queue = names ++ (queueby <$> queue).
Proof.
  revert names. induction queue as [|x queue IH]; intros names Hnd.
  - by rewrite app_nil_r.
  - rewrite seenFrom_cons. rewrite fmap_cons in Hnd |- *.
    rewrite decide_False.
    + rewrite IH; rewrite <- app_assoc; done.
    + apply NoDup_app in Hnd as (_ & Hdisj & _). intros Hin.
      apply (Hdisj _ Hin). left.
Qed.

Lemma filter_all {A} (P : A → Prop) `{∀ x, Decision (P x)} (l : list A) :
  Forall P l → filter P l = l.
Proof.
  induction 1 as [|x l Hx _ IH]; [done|]. by rewrite filter_cons_True, IH.
Qed.

(** The first round names the submitters in first-seen order. *)
Lemma queueby_heads names (f : string → list PlaylistItem) :
  ownVideos f → Forall (λ u, f u ≠ []) names →
  queueby <$> omap head (f <$> names) = names.
Proof.
  intros Hown. induction 1 as [|u names Hu _ IH]; [done|].
  rewrite fmap_cons, omap_head_cons. specialize (Hown u).
  destruct (f u) as [|x g]; [done|]. inversion Hown; subst.
  simpl. f_equal. exact IH.
Qed.

Lemma firstSeen_nonempty queue :
  Forall (λ u, videosOf queue u ≠ []) (firstSeen queue).
Proof.
  apply Forall_forall. intros u Hu%elem_of_firstSeen.
  apply list_elem_of_fmap in Hu as (x & -> & Hx). intros Hnil.
  apply (filter_nil_not_elem_of _ _ x Hnil); done.
Qed.

Lemma firstSeen_interleave queue : firstSeen (interleave queue) = firstSeen queue.
Proof.
  pose proof (interleave_perm queue) as Hperm. unfold interleave in Hperm |- *.
  destruct (max_list_with length (videosOf queue <$> firstSeen queue)) as [|n].
  - simpl in Hperm. symmetry in Hperm. apply Permutation_nil_r in Hperm.
    by subst.
  - rewrite rounds_S in Hperm |- *. unfold firstSeen at 1. rewrite seenFrom_app.
    assert (queueby <$> omap head (videosOf queue <$> firstSeen queue)
            = firstSeen queue) as Hheads
      by (apply queueby_heads; [apply ownVideos_videosOf|apply firstSeen_nonempty]).
    rewrite (seenFrom_fresh [] (omap head _))
      by (rewrite Hheads; apply firstSeen_NoDup).
    rewrite Hheads. simpl. apply seenFrom_known. apply Forall_forall. intros x Hx.
    apply elem_of_firstSeen, list_elem_of_fmap_2. rewrite <- Hperm.
    apply elem_of_app. by right.
Qed.

(** Sorting what is sorted changes nothing. *)
Lemma interleave_idem queue : interleave (interleave queue) = interleave queue.
Proof.
  unfold interleave at 1. rewrite firstSeen_interleave.
  erewrite (list_fmap_ext (videosOf (interleave queue))); [done|].
  intros i u _. apply videosOf_interleave.
Qed.
End SorterMore.

Lemma sortCytube_same context :
  sortCytube context (VideoQueue context) = Returned context [].
Proof.
  unfold sortCytube.
  rewrite (sortLoop_same (isAutoSortEnabled context) (VideoQueue context) [] (-1)).
  by rewrite withVideoQueue_id.
Qed.

Lemma resort_sorted context :
  interleave (VideoQueue context) = VideoQueue context →
  resort context = Returned context [].
Proof.
  intros Hsorted. unfold resort.
  rewrite roundRobinSortVideos_interleave, Hsorted. apply sortCytube_same.
Qed.

Lemma resort_mirror context context' log :
  resort context = Returned context' log →
  VideoQueue context' = interleave (VideoQueue context)
  ∧ isAutoSortEnabled context' = isAutoSortEnabled context
  ∧ loginSuccess context' = loginSuccess context.
Proof.
  destruct (resort_returns context) as (log' & -> & _). by intros [= <- <-].
Qed.

(** X1. A pass leaves a mirror on which the sorter changes nothing, so a
    second pass right after it has no effect at all: no command, the
    context as it is. *)
Theorem resort_twice (context context' : Context) (log : list Effect) :
  resort context = Returned context' log →
  roundRobinSortVideos context' = Some (VideoQueue context')
  ∧ resort context' = Returned context' [].
Proof.
  intros [Hq _]%resort_mirror.
  assert (interleave (VideoQueue context') = VideoQueue context') as Hsorted
    by (rewrite Hq; apply interleave_idem).
  split; [|by apply resort_sorted].
  by rewrite roundRobinSortVideos_interleave, Hsorted.
Qed.

Lemma resort_twice_witness :
  roundRobinSortVideos (ctxOf false [mk 1 "u1"; mk 2 "u2"; mk 3 "u1"])
  = Some (VideoQueue (ctxOf false [mk 1 "u1"; mk 2 "u2"; mk 3 "u1"]))
  ∧ resort (ctxOf false [mk 1 "u1"; mk 2 "u2"; mk 3 "u1"])
    = Returned (ctxOf false [mk 1 "u1"; mk 2 "u2"; mk 3 "u1"]) [].
Proof.
  apply (resort_twice (ctxOf false [mk 1 "u1"; mk 3 "u1"; mk 2 "u2"])
           (ctxOf false [mk 1 "u1"; mk 2 "u2"; mk 3 "u1"])
           [Emit (moveMedia {| from := 2; after := 1 |})]).
  reflexivity.
Defined.

(** X2. A queue whose videos all come from one submitter is returned as
    it is. *)
Theorem roundRobinSortVideos_single_submitter (context : Context) (user : string) :
  Forall (λ video, queueby video = user) (VideoQueue context) →
  roundRobinSortVideos context = Some (VideoQueue context).
Proof.
  intros Hall. rewrite roundRobinSortVideos_interleave. f_equal.
  rewrite <- (filter_all (λ video, queueby video = user) (interleave _)).
  - fold (videosOf (interleave (VideoQueue context)) user).
    rewrite videosOf_interleave. by apply filter_all.
  - by rewrite (interleave_perm (VideoQueue context)).
Qed.

Lemma roundRobinSortVideos_single_submitter_witness :
  roundRobinSortVideos (ctxOf true [mk 3 "a"; mk 1 "a"; mk 2 "a"])
  = Some (VideoQueue (ctxOf true [mk 3 "a"; mk 1 "a"; mk 2 "a"])).
Proof.
  apply (roundRobinSortVideos_single_submitter _ "a").
  by apply (bool_decide_unpack _).
Defined.

(** ** More on the move generator *)

Section MovesMore.
Implicit Types (rest toSort : list PlaylistItem) (refs : gmap string bool).

Lemma sortLoop_sublist autoSort rest : ∀ i prev toSort refs refs' log,
  sortLoop autoSort rest i prev toSort refs = Some (refs', log) →
  dispatched log `sublist_of` pairsFrom prev rest.
Proof.
  induction rest as [|s rest IH]; intros i prev toSort refs refs' log.
  - simpl. by intros [= <- <-].
  - rewrite sortLoop_cons. destruct (Js.get toSort i) as [t|]; [|done].
    simpl pairsFrom.
    destruct (negb (prev =? -1) && negb (uid s =? uid t)).
    + cbv zeta. destruct (Js.splice toSort _ 1 []) as [removed toSort1].
      destruct removed as [|v ?]; [done|].
      destruct (Js.splice toSort1 i 0 [v]) as [? toSort2].
      destruct (sortLoop autoSort rest _ _ _ _) as [[refs'' log']|] eqn:Hloop;
        [|done].
      intros [= <- <-]. rewrite dispatched_commandEffects.
      apply sublist_skip. by eapply IH.
    + intros Hloop. apply sublist_cons. by eapply IH.
Qed.

Lemma sortCytube_sublist context target context' log :
  sortCytube context target = Returned context' log →
  dispatched log `sublist_of` adjacentPairs target ∧ VideoQueue context' = target.
Proof.
  unfold sortCytube.
  destruct (sortLoop _ target _ _ _ _) as [[refs log']|] eqn:Hloop; [|done].
  intros [= <- <-]. split; [|done].
  destruct target as [|s rest]; [by injection Hloop as _ <-|].
  rewrite sortLoop_cons in Hloop.
  destruct (Js.get (VideoQueue context) 0) as [t|]; [|done].
  change (negb (-1 =? -1) && _) with false in Hloop. cbv iota in Hloop.
  by eapply sortLoop_sublist.
Qed.

Lemma length_pairsFrom prev rest : length (pairsFrom prev rest) = length rest.
Proof.
  revert prev. induction rest as [|s rest IH]; intros prev; simpl; [done|].
  by rewrite IH.
Qed.

Lemma from_pairsFrom prev rest : from <$> pairsFrom prev rest = uid <$> rest.
Proof.
  revert prev. induction rest as [|s rest IH]; intros prev; simpl; [done|].
  by rewrite IH.
Qed.
End MovesMore.

(** X3. Whatever mirror and target it is given, [sortCytube], when it
    returns, has installed the target as the mirror, and its commands
    are, in target order, some of the commands "the video at place [i]
    after the video at place [i-1]" for [i] from 1 on; so there are at
    most as many commands as the target has videos, less one. *)
Theorem sortCytube_commands_are_adjacent_pairs
    (context context' : Context) (target : list PlaylistItem) (log : list Effect) :
  sortCytube context target = Returned context' log →
  VideoQueue context' = target
  ∧ dispatched log `sublist_of` adjacentPairs target
  ∧ (length (dispatched log) ≤ length target - 1)%nat.
Proof.
  intros [Hsub Hq]%sortCytube_sublist. split_and!; [done..|].
  apply sublist_length in Hsub. destruct target as [|s rest]; simpl in *; [lia|].
  rewrite length_pairsFrom in Hsub. lia.
Qed.

Lemma sortCytube_commands_are_adjacent_pairs_witness :
  VideoQueue (ctxOf false [mk 1 "a"; mk 3 "b"; mk 2 "a"]) = [mk 1 "a"; mk 3 "b"; mk 2 "a"]
  ∧ dispatched [Emit (moveMedia {| from := 3; after := 1 |})]
    `sublist_of` adjacentPairs [mk 1 "a"; mk 3 "b"; mk 2 "a"]
  ∧ (length (dispatched [Emit (moveMedia {| from := 3; after := 1 |})])
     ≤ length [mk 1 "a"; mk 3 "b"; mk 2 "a"] - 1)%nat.
Proof.
  apply (sortCytube_commands_are_adjacent_pairs
           (ctxOf false [mk 1 "a"; mk 2 "a"; mk 3 "b"])).
  reflexivity.
Defined.

(** X4. When the uids of the target are pairwise distinct, no video is
    moved twice in one pass: the [from] fields of the commands are
    pairwise distinct, and so are the commands. *)
Theorem sortCytube_moves_each_video_once
    (context context' : Context) (target : list PlaylistItem) (log : list Effect) :
  NoDup (uid <$> target) →
  sortCytube context target = Returned context' log →
  NoDup (from <$> dispatched log) ∧ NoDup (dispatched log).
Proof.
  intros Hnd [Hsub _]%sortCytube_sublist.
  assert (NoDup (from <$> dispatched log)) as Hfrom.
  { apply (sublist_NoDup _ (from <$> adjacentPairs target));
      [|by apply fmap_sublist].
    destruct target as [|s rest]; [constructor|]. simpl.
    rewrite from_pairsFrom. rewrite fmap_cons in Hnd.
    by apply NoDup_cons in Hnd as [_ ?]. }
  split; [done|]. by eapply NoDup_fmap_1.
Qed.

Lemma sortCytube_moves_each_video_once_witness :
  NoDup (from <$> dispatched [Emit (moveMedia {| from := 3; after := 1 |})])
  ∧ NoDup (dispatched [Emit (moveMedia {| from := 3; after := 1 |})]).
Proof.
  apply (sortCytube_moves_each_video_once
           (ctxOf false [mk 1 "a"; mk 2 "a"; mk 3 "b"])
           (ctxOf false [mk 1 "a"; mk 3 "b"; mk 2 "a"])
           [mk 1 "a"; mk 3 "b"; mk 2 "a"]).
  - by apply (bool_decide_unpack _).
  - reflexivity.
Defined.

Lemma sortLoop_same_commands a1 a2 rest :
  ∀ i prev toSort (r1 r2 : gmap string bool),
    match sortLoop a1 rest i prev toSort r1, sortLoop a2 rest i prev toSort r2 with
    | Some (_, l1), Some (_, l2) => dispatched l1 = dispatched l2
    | None, None => True
    | _, _ => False
    end.
Proof.
  induction rest as [|s rest IH]; intros i prev toSort r1 r2; [done|].
  rewrite !sortLoop_cons. destruct (Js.get toSort i) as [t|]; [|done].
  destruct (negb (prev =? -1) && negb (uid s =? uid t)); [|apply IH].
  cbv zeta. destruct (Js.splice toSort _ 1 []) as [removed toSort1].
  destruct removed as [|v ?]; [done|].
  destruct (Js.splice toSort1 i 0 [v]) as [? toSort2].
  specialize (IH (i + 1) (uid s) toSort2
    (if a1 then <[JSON_stringify {| from := uid s; after := prev |} := true]> r1 else r1)
    (if a2 then <[JSON_stringify {| from := uid s; after := prev |} := true]> r2 else r2)).
  destruct (sortLoop a1 rest _ _ _ _) as [[? l1]|],
           (sortLoop a2 rest _ _ _ _) as [[? l2]|]; try done.
  rewrite !dispatched_commandEffects. by f_equal.
Qed.

(** X5. Which commands [sortCytube] emits depends on the mirror and the
    target alone: with the auto-sort flag set either way and with any
    echo map it emits the same commands, installs the same mirror, and
    throws in the same cases. *)
Theorem sortCytube_commands_ignore_flag_and_echo_map
    (context : Context) (target : list PlaylistItem)
    (autoSort : bool) (refs : gmap string bool) :
  match sortCytube context target,
        sortCytube (withRefCounter (withAutoSort context autoSort) refs) target with
  | Returned c1 l1, Returned c2 l2 =>
      dispatched l1 = dispatched l2 ∧ VideoQueue c1 = VideoQueue c2
  | Threw e1, Threw e2 => e1 = e2
  | _, _ => False
  end.
Proof.
  unfold sortCytube. simpl.
  pose proof (sortLoop_same_commands (isAutoSortEnabled context) autoSort target 0 (-1)
                (VideoQueue context) (moveVideoRefCounter context) refs) as H.
  destruct (sortLoop (isAutoSortEnabled context) _ _ _ _ _) as [[? l1]|],
           (sortLoop autoSort _ _ _ _ _) as [[? l2]|]; done.
Qed.

(** ** The mirror's move *)

Section RelocateFacts.
Implicit Types (queue a b : list PlaylistItem) (r : MoveVideoResponse).

Lemma filter_other_uids (l1 : list PlaylistItem) x (l2 : list PlaylistItem) :
  NoDup (uid <$> (l1 ++ x :: l2)) →
  filter (λ v, uid v ≠ uid x) (l1 ++ x :: l2) = l1 ++ l2.
Proof.
  intros Hnd. rewrite filter_app, filter_cons_False by (by intros []).
  rewrite fmap_app, fmap_cons in Hnd.
  apply NoDup_app in Hnd as (_ & Hdisj & [Hx _]%NoDup_cons).
  rewrite !filter_all; [done| |].
  - apply Forall_forall. intros v Hv Heq. apply Hx. rewrite <- Heq.
    by apply list_elem_of_fmap_2.
  - apply Forall_forall. intros v Hv Heq.
    apply (Hdisj (uid v)); [by apply list_elem_of_fmap_2|]. rewrite Heq. left.
Qed.

(** Taking out the first video with uid [from] and putting it back. *)
Lemma relocate_present r (l1 : list PlaylistItem) x (l2 : list PlaylistItem) :
  hasUid (from r) x = true → Forall (λ v, hasUid (from r) v = false) l1 →
  relocate r (l1 ++ x :: l2)
  = Some (Js.splice (l1 ++ l2)
            (Js.findIndex (hasUid (after r)) (l1 ++ l2) + 1) 0 [x]).2.
Proof.
  intros Hx Hl1. unfold relocate, relocateBy.
  by rewrite findIndex_found, get_middle, splice_delete_middle.
Qed.

Lemma relocate_None r queue :
  relocate r queue = None ↔ Forall (λ v, hasUid (from r) v = false) queue.
Proof.
  destruct (findIndex_cases (hasUid (from r)) queue)
    as [[Hi Hall]|(l1 & x & l2 & -> & Hl1 & Hx & _)].
  - split; [done|]. intros _. unfold relocate, relocateBy. rewrite Hi.
    by destruct (Js.splice queue (-1) 1 []).
  - rewrite relocate_present by done. split; [done|].
    intros [_ [Hx' _]%Forall_cons]%Forall_app. congruence.
Qed.

Lemma splice_insert_perm {A} (l : list A) i v : (Js.splice l i 0 [v]).2 ≡ₚ v :: l.
Proof.
  unfold Js.splice. simpl snd.
  set (len := Z.of_nat (length l)). set (s := if i <? 0 then _ else _).
  assert (0 ≤ s ≤ len) as Hs by (subst s len; destruct (Z.ltb_spec i 0); lia).
  replace (Z.min (Z.max 0 0) (len - s)) with 0 by lia.
  change (Z.to_nat 0) with 0%nat. rewrite Nat.add_0_r.
  rewrite <- (take_drop (Z.to_nat s) l) at 3.
  by rewrite <- Permutation_middle.
Qed.
End RelocateFacts.

(** X6. The move of the mirror, as [onMoveVideoCallback] performs it:
    when the uids are pairwise distinct and [from] and [after] name two
    different videos of the mirror, the video [from] ends up right after
    the video [after], and the other videos keep their order. *)
Theorem relocate_places_right_after
    (r : MoveVideoResponse) (queue : list PlaylistItem) (x y : PlaylistItem) :
  NoDup (uid <$> queue) →
  x ∈ queue → y ∈ queue → uid x = from r → uid y = after r → from r ≠ after r →
  ∃ a b,
    relocate r queue = Some (a ++ y :: x :: b)
    ∧ a ++ y :: b = filter (λ v, uid v ≠ from r) queue.
Proof.
  intros Hnd (l1 & l2 & ->)%list_elem_of_split Hy Hx Hyu Hne.
  assert (y ∈ l1 ++ l2) as (a & b & Hab)%list_elem_of_split.
  { rewrite elem_of_app in Hy |- *. destruct Hy as [?|[->|?]%elem_of_cons]; auto.
    congruence. }
  exists a, b.
  rewrite relocate_present.
  - rewrite <- Hx, filter_other_uids, Hab by done. split; [|done].
    assert (NoDup (uid <$> a ++ y :: b)) as Hnd'.
    { rewrite <- Hab. eapply sublist_NoDup; [exact Hnd|].
      apply fmap_sublist, sublist_app; [done|]. by apply sublist_cons. }
    rewrite findIndex_found.
    + replace (Z.of_nat (length a) + 1) with (Z.of_nat (length (a ++ [y])))
        by (rewrite length_app; simpl; lia).
      rewrite (cons_middle y a b), app_assoc, splice_insert_middle.
      by rewrite <- app_assoc.
    + rewrite <- Hyu. apply (no_uid_before a y b Hnd').
    + rewrite <- Hyu. apply hasUid_self.
  - rewrite <- Hx. apply hasUid_self.
  - rewrite <- Hx. by apply no_uid_before in Hnd.
Qed.

Lemma relocate_places_right_after_witness :
  ∃ a b,
    relocate {| from := 1; after := 3 |} [mk 1 "a"; mk 2 "b"; mk 3 "c"; mk 4 "d"]
    = Some (a ++ mk 3 "c" :: mk 1 "a" :: b)
    ∧ a ++ mk 3 "c" :: b
      = filter (λ v, uid v ≠ from {| from := 1; after := 3 |})
               [mk 1 "a"; mk 2 "b"; mk 3 "c"; mk 4 "d"].
Proof.
  apply (relocate_places_right_after {| from := 1; after := 3 |}
           [mk 1 "a"; mk 2 "b"; mk 3 "c"; mk 4 "d"] (mk 1 "a") (mk 3 "c")).
  - by apply (bool_decide_unpack _).
  - by apply (bool_decide_unpack _).
  - by apply (bool_decide_unpack _).
  - reflexivity.
  - reflexivity.
  - done.
Defined.

(** X7. The same move when [after] names no other video of the mirror,
    be it unknown or the uid of the moved video itself: the video goes
    to the front, the others keep their order. *)
Theorem relocate_without_anchor_goes_first
    (r : MoveVideoResponse) (queue : list PlaylistItem) (x : PlaylistItem) :
  NoDup (uid <$> queue) →
  x ∈ queue → uid x = from r →
  after r = from r ∨ after r ∉ (uid <$> queue) →
  relocate r queue = Some (x :: filter (λ v, uid v ≠ from r) queue).
Proof.
  intros Hnd (l1 & l2 & ->)%list_elem_of_split Hx Hafter.
  rewrite relocate_present.
  - rewrite <- Hx, filter_other_uids by done.
    rewrite findIndex_none; [by rewrite splice_insert_front|].
    apply Forall_forall. intros v Hv. unfold hasUid. apply Z.eqb_neq. intros Hvu.
    destruct Hafter as [Heq|Hnot].
    + pose proof (filter_other_uids l1 x l2 Hnd) as Hf.
      rewrite <- Hf in Hv. apply list_elem_of_filter in Hv as [Hv _]. congruence.
    + apply Hnot. rewrite <- Hvu. apply list_elem_of_fmap_2.
      rewrite elem_of_app in Hv |- *. destruct Hv; [by left|right; by right].
  - rewrite <- Hx. apply hasUid_self.
  - rewrite <- Hx. by apply no_uid_before in Hnd.
Qed.

Lemma relocate_without_anchor_goes_first_witness :
  relocate {| from := 3; after := 3 |} [mk 1 "a"; mk 2 "b"; mk 3 "c"]
  = Some (mk 3 "c" :: filter (λ v, uid v ≠ from {| from := 3; after := 3 |})
                             [mk 1 "a"; mk 2 "b"; mk 3 "c"]).
Proof.
  apply (relocate_without_anchor_goes_first {| from := 3; after := 3 |}
           [mk 1 "a"; mk 2 "b"; mk 3 "c"] (mk 3 "c")).
  - by apply (bool_decide_unpack _).
  - by apply (bool_decide_unpack _).
  - reflexivity.
  - by left.
Defined.

(** ** Fingerprints *)

Section Fingerprints.
Implicit Types (s t : string) (d : ascii).

Lemma split_at_char d s1 t1 s2 t2 :
  charFree d s1 → charFree d s2 →
  s1 +:+ String d t1 = s2 +:+ String d t2 → s1 = s2 ∧ t1 = t2.
Proof.
  revert s2. induction s1 as [|c s1 IH]; intros [|c' s2]; simpl.
  - by intros _ _ [= ->].
  - intros _ [Hc _] [= <- _]. done.
  - intros [Hc _] _ [= -> _]. done.
  - intros [_ H1] [_ H2] [= -> Heq]. destruct (IH s2 H1 H2 Heq) as [-> ->]. done.
Qed.

Lemma pretty_N_go_charFree d (x : N) s :
  (∀ n, pretty_N_char n ≠ d) → charFree d s → charFree d (pretty_N_go x s).
Proof.
  intros Hd. revert s. induction (N.lt_wf_0 x) as [x _ IH]; intros s Hs.
  assert (x = 0 ∨ 0 < x)%N as [->|Hx] by lia; [by rewrite pretty_N_go_0|].
  rewrite pretty_N_go_step by done. apply IH; [by apply N.div_lt|]. by split.
Qed.

(** The decimal text of a number holds digits and a leading sign only. *)
Lemma pretty_Z_charFree d (z : Z) :
  (∀ n, pretty_N_char n ≠ d) → d ≠ "-"%char → charFree d (pretty z).
Proof.
  intros Hd Hdash.
  assert (∀ p : positive, charFree d (pretty p)) as Hpos.
  { intros p. unfold pretty, pretty_positive, pretty, pretty_N.
    case_decide; [done|]. by apply pretty_N_go_charFree. }
  destruct z as [|p|p]; unfold pretty, pretty_Z.
  - split; [|done]. apply (Hd 0%N).
  - apply Hpos.
  - split; [by intros <-|apply Hpos].
Qed.

Lemma digit_not_comma n : pretty_N_char n ≠ ","%char.
Proof. unfold pretty_N_char. by repeat case_match. Qed.

Lemma digit_not_brace n : pretty_N_char n ≠ "}"%char.
Proof. unfold pretty_N_char. by repeat case_match. Qed.

Lemma JSON_stringify_inj_fields (f1 a1 f2 a2 : Z) :
  JSON_stringify {| from := f1; after := a1 |}
  = JSON_stringify {| from := f2; after := a2 |} →
  f1 = f2 ∧ a1 = a2.
Proof.
  unfold JSON_stringify. simpl from. simpl after. intros Heq.
  do 5 apply String.app_inj in Heq.
  apply (split_at_char ","%char (pretty f1) _ (pretty f2) _) in Heq as [Hf Heq];
    [|by apply pretty_Z_charFree; [apply digit_not_comma|]..].
  apply (inj pretty) in Hf.
  do 4 apply String.app_inj in Heq.
  apply (split_at_char "}"%char (pretty a1) _ (pretty a2) _) in Heq as [Ha _];
    [|by apply pretty_Z_charFree; [apply digit_not_brace|]..].
  apply (inj pretty) in Ha. done.
Qed.

(** Different commands have different fingerprints. *)
Lemma JSON_stringify_differ (d1 d2 : MoveVideoResponse) :
  d1 ≠ d2 → JSON_stringify d1 ≠ JSON_stringify d2.
Proof.
  destruct d1 as [f1 a1], d2 as [f2 a2].
  intros Hne [-> ->]%JSON_stringify_inj_fields. done.
Qed.
End Fingerprints.

(** X8. The fingerprint tells the commands apart: two commands with the
    same [JSON.stringify] text have the same [from] and the same
    [after]. *)
Theorem JSON_stringify_injective (d1 d2 : MoveVideoResponse) :
  JSON_stringify d1 = JSON_stringify d2 → d1 = d2.
Proof.
  destruct d1 as [f1 a1], d2 as [f2 a2].
  intros [-> ->]%JSON_stringify_inj_fields. done.
Qed.

Lemma JSON_stringify_injective_witness :
  {| from := 12; after := -3 |} = {| from := 12; after := -3 |}.
Proof.
  apply (JSON_stringify_injective {| from := 12; after := -3 |}
           {| from := 12; after := -3 |}).
  reflexivity.
Defined.

(** ** Echoes of a whole pass *)

Section EchoCycle.
Implicit Types (refs : gmap string bool) (moves : list MoveVideoResponse).

Lemma recordAll_delete moves refs d :
  d ∉ moves →
  delete (JSON_stringify d) (recordAll true moves refs)
  = recordAll true moves (delete (JSON_stringify d) refs).
Proof.
  revert refs. induction moves as [|d' moves IH]; intros refs Hd; [done|].
  apply not_elem_of_cons in Hd as [Hne Hd]. rewrite !recordAll_cons, IH by done.
  f_equal. rewrite delete_insert_ne; [done|].
  by apply JSON_stringify_differ.
Qed.

Lemma withRefCounter_twice context refs refs' :
  withRefCounter (withRefCounter context refs) refs' = withRefCounter context refs'.
Proof. done. Qed.

(** A context whose echo map holds the commands [moves], each once,
    consumes the notifications that arrive with their texts, in order. *)
Lemma replayMoves_recorded moves : ∀ (responses : list JsObject.t) context refs,
  isAutoSortEnabled context = true →
  NoDup moves →
  moveVideoRefCounter context = recordAll true moves refs →
  arriveAsRecorded responses moves →
  replayMoves responses context
  = Returned (withRefCounter context (forgetAll moves refs))
             (RefDelete ∘ JSON_stringify <$> moves).
Proof.
  induction moves as [|d moves IH]; intros responses context refs Hauto Hnd Hrefs Htexts.
  - apply Forall2_nil_inv_r in Htexts as ->. simpl in *.
    rewrite <- Hrefs. by destruct context.
  - apply Forall2_cons_inv_r in Htexts
      as (response & responses' & Htext & Htexts & ->).
    apply NoDup_cons in Hnd as [Hd Hnd]. simpl replayMoves.
    rewrite onMoveVideoCallback_pending;
      [|done|by rewrite Htext, Hrefs; apply recordAll_pending; left].
    rewrite Htext, Hrefs.
    rewrite recordAll_cons, recordAll_delete, delete_insert_eq by done.
    rewrite (IH _ _ (delete (JSON_stringify d) refs)); [|done..].
    by rewrite withRefCounter_twice.
Qed.

Lemma resort_unfold context context' log :
  resort context = Returned context' log →
  sortCytube context (interleave (VideoQueue context)) = Returned context' log.
Proof. unfold resort. by rewrite roundRobinSortVideos_interleave. Qed.
End EchoCycle.

(** X9. Consuming an echo deletes one key of the echo map, the text of
    the notification: with auto-sort on and the [JSON.stringify] text of
    the arriving object pending, the notification is consumed, the
    mirror stays, that text is pending no more, and every other key is
    pending afterwards exactly if it was before. So when the object is
    the one [sortCytube] built for the command [d], [from] first and
    nothing else, every other command is pending afterwards exactly if
    it was before. *)
Theorem echo_consumes_only_its_own_fingerprint
    (context : Context) (response : JsObject.t) :
  isAutoSortEnabled context = true →
  moveVideoRefCounter context !! JsObject.stringify response = Some true →
  ∃ context',
    onMoveVideoCallback context response
    = Returned context' [RefDelete (JsObject.stringify response)]
    ∧ VideoQueue context' = VideoQueue context
    ∧ moveVideoRefCounter context' !! JsObject.stringify response = None
    ∧ (∀ key, key ≠ JsObject.stringify response →
         moveVideoRefCounter context' !! key = moveVideoRefCounter context !! key)
    ∧ (∀ d d', response = objectOf d → d' ≠ d →
         moveVideoRefCounter context' !! JSON_stringify d'
         = moveVideoRefCounter context !! JSON_stringify d').
Proof.
  intros Hauto Hpending. rewrite onMoveVideoCallback_pending by done.
  eexists. split_and!; [done..| | |]; simpl.
  - apply lookup_delete_eq.
  - intros key Hkey. by apply lookup_delete_ne.
  - intros d d' -> Hne. apply lookup_delete_ne.
    rewrite stringify_objectOf. by apply JSON_stringify_differ.
Qed.

Lemma echo_consumes_only_its_own_fingerprint_witness :
  ∃ context',
    onMoveVideoCallback twoPending (objectOf {| from := 2; after := 1 |})
    = Returned context'
        [RefDelete (JsObject.stringify (objectOf {| from := 2; after := 1 |}))]
    ∧ VideoQueue context' = VideoQueue twoPending
    ∧ moveVideoRefCounter context'
        !! JsObject.stringify (objectOf {| from := 2; after := 1 |}) = None
    ∧ (∀ key, key ≠ JsObject.stringify (objectOf {| from := 2; after := 1 |}) →
         moveVideoRefCounter context' !! key = moveVideoRefCounter twoPending !! key)
    ∧ (∀ d d', objectOf {| from := 2; after := 1 |} = objectOf d → d' ≠ d →
         moveVideoRefCounter context' !! JSON_stringify d'
         = moveVideoRefCounter twoPending !! JSON_stringify d').
Proof.
  apply (echo_consumes_only_its_own_fingerprint twoPending
           (objectOf {| from := 2; after := 1 |})).
  - reflexivity.
  - by vm_compute.
Defined.

(** X10. A pass and its echoes: with auto-sort on and pairwise distinct
    uids in the mirror, the move notifications for the commands of a
    pass, coming back in the order the commands were emitted and each
    with the [JSON.stringify] text that was recorded for its command, as
    the objects with the two properties [from] and [after], in this
    order, and no other have it, are all consumed. Nothing is emitted,
    the mirror stays as the pass left it, and the fingerprints of the
    pass are gone from the echo map. *)
Theorem echoes_of_a_pass_are_consumed
    (context context' : Context) (log : list Effect) (responses : list JsObject.t) :
  isAutoSortEnabled context = true →
  NoDup (uid <$> VideoQueue context) →
  resort context = Returned context' log →
  arriveAsRecorded responses (dispatched log) →
  replayMoves responses context'
  = Returned
      (withRefCounter context'
         (forgetAll (dispatched log) (moveVideoRefCounter context)))
      (RefDelete ∘ JSON_stringify <$> dispatched log)
  ∧ dispatched (RefDelete ∘ JSON_stringify <$> dispatched log) = []
  ∧ arriveAsRecorded (objectOf <$> dispatched log) (dispatched log).
Proof.
  intros Hauto Hnd Hresort Htexts.
  pose proof (resort_mirror _ _ _ Hresort) as (_ & Hauto' & _).
  apply resort_unfold in Hresort.
  pose proof (sortCytube_log _ _ _ _ Hresort) as [_ Hrefs].
  apply sortCytube_sublist in Hresort as [Hsub _].
  split_and!.
  - apply replayMoves_recorded; [congruence| |by rewrite Hrefs, Hauto|done].
    eapply NoDup_fmap_1 with (f := from).
    apply (sublist_NoDup _ (from <$> adjacentPairs (interleave (VideoQueue context))));
      [|by apply fmap_sublist].
    pose proof (interleave_perm (VideoQueue context)) as Hperm.
    rewrite <- Hperm in Hnd.
    destruct (interleave (VideoQueue context)) as [|s rest]; [constructor|].
    simpl. rewrite from_pairsFrom. rewrite fmap_cons in Hnd.
    by apply NoDup_cons in Hnd as [_ ?].
  - clear. induction (dispatched log) as [|d l IH]; [done|]. exact IH.
  - clear. induction (dispatched log) as [|d l IH]; constructor; [|done].
    apply stringify_objectOf.
Qed.

Lemma echoes_of_a_pass_are_consumed_witness :
  replayMoves [objectOf {| from := 2; after := 1 |}]
    (withRefCounter (ctxOf true [mk 1 "u1"; mk 2 "u2"; mk 3 "u1"])
       {[ JSON_stringify {| from := 2; after := 1 |} := true ]})
  = Returned
      (withRefCounter
         (withRefCounter (ctxOf true [mk 1 "u1"; mk 2 "u2"; mk 3 "u1"])
            {[ JSON_stringify {| from := 2; after := 1 |} := true ]})
         (forgetAll
            (dispatched [RefSet (JSON_stringify {| from := 2; after := 1 |});
                         Emit (moveMedia {| from := 2; after := 1 |})])
            (moveVideoRefCounter (ctxOf true [mk 1 "u1"; mk 3 "u1"; mk 2 "u2"]))))
      (RefDelete ∘ JSON_stringify
         <$> dispatched [RefSet (JSON_stringify {| from := 2; after := 1 |});
                         Emit (moveMedia {| from := 2; after := 1 |})])
  ∧ dispatched
      (RefDelete ∘ JSON_stringify
         <$> dispatched [RefSet (JSON_stringify {| from := 2; after := 1 |});
                         Emit (moveMedia {| from := 2; after := 1 |})]) = []
  ∧ arriveAsRecorded
      (objectOf <$> dispatched [RefSet (JSON_stringify {| from := 2; after := 1 |});
                                Emit (moveMedia {| from := 2; after := 1 |})])
      (dispatched [RefSet (JSON_stringify {| from := 2; after := 1 |});
                   Emit (moveMedia {| from := 2; after := 1 |})]).
Proof.
  apply (echoes_of_a_pass_are_consumed
           (ctxOf true [mk 1 "u1"; mk 3 "u1"; mk 2 "u2"]) _ _
           [objectOf {| from := 2; after := 1 |}]).
  - reflexivity.
  - by apply (bool_decide_unpack _).
  - by vm_compute.
  - by repeat constructor.
Defined.

(** ** What the handlers do to the mirror *)

Section HandlerFacts.
Implicit Types (context : Context) (queue : list PlaylistItem).

(** A pass on any mirror: it returns, the mirror afterwards is a
    permutation of the mirror before on which the sorter changes nothing,
    and the flags stay. *)
Lemma resort_result context :
  ∃ context' log,
    resort context = Returned context' log
    ∧ VideoQueue context' ≡ₚ VideoQueue context
    ∧ roundRobinSortVideos context' = Some (VideoQueue context')
    ∧ isAutoSortEnabled context' = isAutoSortEnabled context
    ∧ loginSuccess context' = loginSuccess context.
Proof.
  destruct (resort_returns context) as (log & Hresort & _).
  eexists _, log. split; [exact Hresort|].
  apply resort_mirror in Hresort as (Hq & Hauto & Hlogin).
  split_and!; [|by rewrite roundRobinSortVideos_interleave, Hq, interleave_idem|done..].
  rewrite Hq. apply interleave_perm.
Qed.

(** A pass on a mirror with distinct uids, none of them [-1]: its
    commands carry the mirror before to the mirror after. *)
Lemma resort_sync context :
  NoDup (uid <$> VideoQueue context) →
  Forall (λ x, uid x ≠ -1) (VideoQueue context) →
  ∃ context' log,
    resort context = Returned context' log
    ∧ applyMoves (dispatched log) (VideoQueue context) = Some (VideoQueue context')
    ∧ VideoQueue context' ≡ₚ VideoQueue context
    ∧ roundRobinSortVideos context' = Some (VideoQueue context').
Proof.
  intros Hnd Huid.
  pose proof (interleave_perm (VideoQueue context)) as Hp.
  destruct (sortCytube_moves context (interleave (VideoQueue context)))
    as (refs & log & Hsort & Hmoves);
    [done|done|by rewrite Hp|apply head_interleave|].
  eexists _, log. unfold resort. rewrite roundRobinSortVideos_interleave.
  split; [exact Hsort|]. simpl. split_and!; [done..|].
  by rewrite roundRobinSortVideos_interleave; simpl; rewrite interleave_idem.
Qed.

(** The queue [onQueueCallback] hands to the pass. *)
Lemma onQueueCallback_unfold context response :
  onQueueCallback context response
  = resort (withVideoQueue context
      (if isPrepend (q_after response) then item response :: VideoQueue context
       else (Js.splice (VideoQueue context)
               (Js.findIndex (uidIs (q_after response)) (VideoQueue context) + 1)
               0 [item response]).2)).
Proof. done. Qed.

Lemma inserted_perm context response :
  (if isPrepend (q_after response) then item response :: VideoQueue context
   else (Js.splice (VideoQueue context)
           (Js.findIndex (uidIs (q_after response)) (VideoQueue context) + 1)
           0 [item response]).2)
  ≡ₚ item response :: VideoQueue context.
Proof. destruct (isPrepend _); [done|apply splice_insert_perm]. Qed.

Lemma inserted_after context response (a b : list PlaylistItem) y :
  VideoQueue context = a ++ y :: b →
  NoDup (uid <$> VideoQueue context) →
  q_after response = AfterNumber (uid y) →
  (if isPrepend (q_after response) then item response :: VideoQueue context
   else (Js.splice (VideoQueue context)
           (Js.findIndex (uidIs (q_after response)) (VideoQueue context) + 1)
           0 [item response]).2)
  = a ++ y :: item response :: b.
Proof.
  intros Hq Hnd ->. simpl isPrepend. cbv iota. rewrite Hq in Hnd |- *.
  rewrite findIndex_found.
  - replace (Z.of_nat (length a) + 1) with (Z.of_nat (length (a ++ [y])))
      by (rewrite length_app; simpl; lia).
    rewrite (cons_middle y a b), app_assoc, splice_insert_middle.
    by rewrite <- app_assoc.
  - apply (no_uid_before a y b Hnd).
  - apply hasUid_self.
Qed.
End HandlerFacts.

(** X11. An insert notification never makes the handler throw, whatever
    its [after] reference. The mirror afterwards holds the videos it held
    before and the new one, nothing else, in an order on which the sorter
    changes nothing; the flags stay as they were. *)
Theorem onQueueCallback_adds_the_video (context : Context) (response : QueueResponse) :
  ∃ context' log,
    onQueueCallback context response = Returned context' log
    ∧ VideoQueue context' ≡ₚ item response :: VideoQueue context
    ∧ roundRobinSortVideos context' = Some (VideoQueue context')
    ∧ isAutoSortEnabled context' = isAutoSortEnabled context
    ∧ loginSuccess context' = loginSuccess context.
Proof.
  rewrite onQueueCallback_unfold.
  destruct (resort_result (withVideoQueue context
    (if isPrepend (q_after response) then item response :: VideoQueue context
     else (Js.splice (VideoQueue context)
             (Js.findIndex (uidIs (q_after response)) (VideoQueue context) + 1)
             0 [item response]).2)))
    as (context' & log & -> & Hperm & Hsorted & Hauto & Hlogin).
  exists context', log. split_and!; [done| |done..].
  rewrite Hperm. apply inserted_perm.
Qed.

(** X12. An insert after a video of the mirror: when the uids, the new
    one included, are pairwise distinct and none is [-1], and [after] is
    the uid of the video [y], the commands the handler emits carry the
    old mirror with the new video put right after [y], which is what the
    remote list is at that moment, to the mirror the handler installs. *)
Theorem onQueueCallback_keeps_in_step
    (context : Context) (response : QueueResponse)
    (a b : list PlaylistItem) (y : PlaylistItem) :
  VideoQueue context = a ++ y :: b →
  q_after response = AfterNumber (uid y) →
  NoDup (uid <$> item response :: VideoQueue context) →
  Forall (λ x, uid x ≠ -1) (item response :: VideoQueue context) →
  ∃ context' log,
    onQueueCallback context response = Returned context' log
    ∧ applyMoves (dispatched log) (a ++ y :: item response :: b)
      = Some (VideoQueue context').
Proof.
  intros Hq Hafter Hnd Huid. rewrite onQueueCallback_unfold.
  rewrite fmap_cons in Hnd.
  rewrite (inserted_after context response a b y Hq) by (done || by apply NoDup_cons in Hnd as [_ ?]).
  assert (a ++ y :: item response :: b ≡ₚ item response :: VideoQueue context) as Hp.
  { rewrite Hq. rewrite (Permutation_middle a (y :: b) (item response)).
    apply Permutation_app_head, perm_swap. }
  destruct (resort_sync (withVideoQueue context (a ++ y :: item response :: b)))
    as (context' & log & -> & Hmoves & _); simpl.
  - rewrite Hp. by rewrite fmap_cons.
  - by rewrite Hp.
  - by exists context', log.
Qed.

Lemma onQueueCallback_keeps_in_step_witness :
  ∃ context' log,
    onQueueCallback (ctxOf true [mk 1 "a"; mk 2 "a"])
      {| item := mk 3 "b"; q_after := AfterNumber (uid (mk 1 "a")) |}
    = Returned context' log
    ∧ applyMoves (dispatched log)
        ([] ++ mk 1 "a"
            :: item {| item := mk 3 "b"; q_after := AfterNumber (uid (mk 1 "a")) |}
            :: [mk 2 "a"])
      = Some (VideoQueue context').
Proof.
  apply (onQueueCallback_keeps_in_step (ctxOf true [mk 1 "a"; mk 2 "a"])
           {| item := mk 3 "b"; q_after := AfterNumber (uid (mk 1 "a")) |}
           [] [mk 2 "a"] (mk 1 "a")).
  - reflexivity.
  - reflexivity.
  - by apply (bool_decide_unpack _).
  - by apply (bool_decide_unpack _).
Defined.

Section HandlerFactsMore.
Implicit Types (context : Context) (queue : list PlaylistItem).

Lemma onDeleteCallback_enabled context response_uid :
  isAutoSortEnabled context = true →
  onDeleteCallback context response_uid
  = resort (withVideoQueue context
      (Js.splice (VideoQueue context)
         (Js.findIndex (hasUid response_uid) (VideoQueue context)) 1 []).2).
Proof.
  intros Hauto. unfold onDeleteCallback. rewrite Hauto. simpl negb. cbv iota.
  by destruct (Js.splice _ _ 1 []).
Qed.

Lemma splice_last_take {A} (l : list A) :
  (Js.splice l (-1) 1 []).2 = take (length l - 1) l.
Proof.
  induction l as [|z a _] using rev_ind.
  - by rewrite splice_delete_empty.
  - rewrite splice_delete_last, length_app. simpl.
    replace (length a + 1 - 1)%nat with (length a) by lia.
    by rewrite take_app_length.
Qed.

Lemma relocate_perm r queue moved : relocate r queue = Some moved → moved ≡ₚ queue.
Proof.
  destruct (findIndex_cases (hasUid (from r)) queue)
    as [[_ Hall]|(l1 & x & l2 & -> & Hl1 & Hx & _)].
  - apply relocate_None in Hall. congruence.
  - rewrite relocate_present by done. intros [= <-].
    etrans; [apply splice_insert_perm|apply Permutation_middle].
Qed.

Lemma recordAll_lookup (moves : list MoveVideoResponse) (refs : gmap string bool) key :
  recordAll true moves refs !! key = Some true
  ↔ refs !! key = Some true ∨ ∃ d, d ∈ moves ∧ key = JSON_stringify d.
Proof.
  revert refs. induction moves as [|d moves IH]; intros refs.
  - simpl. split; [by left|]. intros [?|(d & Hd & _)]; [done|].
    by apply elem_of_nil in Hd.
  - rewrite recordAll_cons, IH. split.
    + intros [Hk|(d' & Hd' & ->)].
      * destruct (decide (JSON_stringify d = key)) as [<-|Hne].
        -- right. exists d. split; [left|done].
        -- rewrite lookup_insert_ne in Hk by done. by left.
      * right. exists d'. split; [by right|done].
    + intros [Hk|(d' & Hd' & ->)].
      * left. destruct (decide (JSON_stringify d = key)) as [<-|Hne].
        -- apply lookup_insert_eq.
        -- by rewrite lookup_insert_ne.
      * apply elem_of_cons in Hd' as [->|Hd'].
        -- left. apply lookup_insert_eq.
        -- right. by exists d'.
Qed.
End HandlerFactsMore.

(** X13. A delete of a video of the mirror, auto-sort on, the uids
    pairwise distinct and none [-1]: the mirror afterwards holds the
    other videos and nothing else, in an order on which the sorter
    changes nothing, and the commands emitted carry the old mirror
    without that video to the new mirror. *)
Theorem onDeleteCallback_removes_the_video
    (context : Context) (a b : list PlaylistItem) (y : PlaylistItem) :
  isAutoSortEnabled context = true →
  VideoQueue context = a ++ y :: b →
  NoDup (uid <$> VideoQueue context) →
  Forall (λ x, uid x ≠ -1) (VideoQueue context) →
  ∃ context' log,
    onDeleteCallback context (uid y) = Returned context' log
    ∧ y :: VideoQueue context' ≡ₚ VideoQueue context
    ∧ applyMoves (dispatched log) (a ++ b) = Some (VideoQueue context')
    ∧ roundRobinSortVideos context' = Some (VideoQueue context').
Proof.
  intros Hauto Hq Hnd Huid. rewrite onDeleteCallback_enabled by done.
  rewrite Hq in Hnd, Huid |- *.
  rewrite findIndex_found, splice_delete_middle
    by (apply (no_uid_before a y b Hnd) || apply hasUid_self).
  cbn [snd].
  assert (y :: a ++ b ≡ₚ a ++ y :: b) as Hp by apply Permutation_middle.
  destruct (resort_sync (withVideoQueue context (a ++ b)))
    as (context' & log & -> & Hmoves & Hperm & Hsorted); simpl.
  - rewrite <- Hp, fmap_cons in Hnd. by apply NoDup_cons in Hnd as [_ ?].
  - rewrite <- Hp in Huid. by apply Forall_cons in Huid as [_ ?].
  - exists context', log. split_and!; [done| |done..].
    simpl in Hperm. by rewrite Hperm.
Qed.

Lemma onDeleteCallback_removes_the_video_witness :
  ∃ context' log,
    onDeleteCallback (ctxOf true ([mk 1 "a"] ++ mk 2 "b" :: [mk 3 "a"; mk 4 "b"]))
      (uid (mk 2 "b")) = Returned context' log
    ∧ mk 2 "b" :: VideoQueue context'
      ≡ₚ VideoQueue (ctxOf true ([mk 1 "a"] ++ mk 2 "b" :: [mk 3 "a"; mk 4 "b"]))
    ∧ applyMoves (dispatched log) ([mk 1 "a"] ++ [mk 3 "a"; mk 4 "b"])
      = Some (VideoQueue context')
    ∧ roundRobinSortVideos context' = Some (VideoQueue context').
Proof.
  apply (onDeleteCallback_removes_the_video
           (ctxOf true ([mk 1 "a"] ++ mk 2 "b" :: [mk 3 "a"; mk 4 "b"]))
           [mk 1 "a"] [mk 3 "a"; mk 4 "b"] (mk 2 "b")).
  - reflexivity.
  - reflexivity.
  - by apply (bool_decide_unpack _).
  - by apply (bool_decide_unpack _).
Defined.

(** X14. A delete for a uid that no video of the mirror has, auto-sort
    on: [findIndex] answers [-1] and [splice(-1, 1)] takes out the last
    video. The mirror afterwards holds all videos but the last one of the
    mirror before, in an order on which the sorter changes nothing; an
    empty mirror stays empty. *)
Theorem onDeleteCallback_unknown_uid_drops_last
    (context : Context) (response_uid : Z) :
  isAutoSortEnabled context = true →
  Forall (λ video, uid video ≠ response_uid) (VideoQueue context) →
  ∃ context' log,
    onDeleteCallback context response_uid = Returned context' log
    ∧ VideoQueue context'
      ≡ₚ take (length (VideoQueue context) - 1) (VideoQueue context)
    ∧ roundRobinSortVideos context' = Some (VideoQueue context').
Proof.
  intros Hauto Habsent. rewrite onDeleteCallback_enabled by done.
  rewrite findIndex_none.
  2:{ eapply Forall_impl; [exact Habsent|]. intros v Hv. by apply Z.eqb_neq. }
  rewrite splice_last_take.
  destruct (resort_result (withVideoQueue context
              (take (length (VideoQueue context) - 1) (VideoQueue context))))
    as (context' & log & -> & Hperm & Hsorted & _).
  by exists context', log.
Qed.

Lemma onDeleteCallback_unknown_uid_drops_last_witness :
  ∃ context' log,
    onDeleteCallback (ctxOf true [mk 1 "a"; mk 2 "b"; mk 3 "c"]) 99
    = Returned context' log
    ∧ VideoQueue context'
      ≡ₚ take (length (VideoQueue (ctxOf true [mk 1 "a"; mk 2 "b"; mk 3 "c"])) - 1)
              (VideoQueue (ctxOf true [mk 1 "a"; mk 2 "b"; mk 3 "c"]))
    ∧ roundRobinSortVideos context' = Some (VideoQueue context').
Proof.
  apply (onDeleteCallback_unknown_uid_drops_last
           (ctxOf true [mk 1 "a"; mk 2 "b"; mk 3 "c"]) 99).
  - reflexivity.
  - by apply (bool_decide_unpack _).
Defined.

(** X15. A move from outside, that is with auto-sort on and the text of
    the arriving object not pending, of a video of the mirror, the uids
    pairwise distinct and none [-1]: whatever the order of the object's
    properties and whatever it holds besides [from] and [after], the
    handler moves the video in the mirror and runs a pass. No video is
    lost or added, the sorter changes nothing on the mirror afterwards,
    and the commands emitted carry the mirror as moved to the mirror
    installed. *)
Theorem onMoveVideoCallback_keeps_in_step
    (context : Context) (response : JsObject.t) (r : MoveVideoResponse)
    (x : PlaylistItem) :
  isAutoSortEnabled context = true →
  readsAs response r →
  moveVideoRefCounter context !! JsObject.stringify response ≠ Some true →
  x ∈ VideoQueue context → uid x = from r →
  NoDup (uid <$> VideoQueue context) →
  Forall (λ v, uid v ≠ -1) (VideoQueue context) →
  ∃ moved context' log,
    relocate r (VideoQueue context) = Some moved
    ∧ onMoveVideoCallback context response = Returned context' log
    ∧ applyMoves (dispatched log) moved = Some (VideoQueue context')
    ∧ VideoQueue context' ≡ₚ VideoQueue context
    ∧ roundRobinSortVideos context' = Some (VideoQueue context').
Proof.
  intros Hauto Hreads Hecho Hx Hfrom Hnd Huid.
  rewrite onMoveVideoCallback_external by done.
  rewrite (externalMove_reads _ _ r) by done.
  destruct (relocate r (VideoQueue context)) as [moved|] eqn:Hmoved.
  - pose proof (relocate_perm _ _ _ Hmoved) as Hp.
    destruct (resort_sync (withVideoQueue context moved))
      as (context' & log & -> & Hmoves & Hperm & Hsorted); simpl.
    + by rewrite Hp.
    + by rewrite Hp.
    + exists moved, context', log. split_and!; [done..| |done].
      simpl in Hperm. by rewrite Hperm.
  - apply relocate_None in Hmoved. rewrite Forall_forall in Hmoved.
    specialize (Hmoved x Hx). unfold hasUid in Hmoved.
    apply Z.eqb_neq in Hmoved. done.
Qed.

Lemma onMoveVideoCallback_keeps_in_step_witness :
  ∃ moved context' log,
    relocate {| from := 3; after := 1 |}
      (VideoQueue (ctxOf true [mk 1 "a"; mk 2 "b"; mk 3 "a"])) = Some moved
    ∧ onMoveVideoCallback (ctxOf true [mk 1 "a"; mk 2 "b"; mk 3 "a"])
        (objectOf {| from := 3; after := 1 |}) = Returned context' log
    ∧ applyMoves (dispatched log) moved = Some (VideoQueue context')
    ∧ VideoQueue context' ≡ₚ VideoQueue (ctxOf true [mk 1 "a"; mk 2 "b"; mk 3 "a"])
    ∧ roundRobinSortVideos context' = Some (VideoQueue context').
Proof.
  apply (onMoveVideoCallback_keeps_in_step (ctxOf true [mk 1 "a"; mk 2 "b"; mk 3 "a"])
           (objectOf {| from := 3; after := 1 |}) {| from := 3; after := 1 |}
           (mk 3 "a")).
  - reflexivity.
  - done.
  - by vm_compute.
  - by apply (bool_decide_unpack _).
  - reflexivity.
  - by apply (bool_decide_unpack _).
  - by apply (bool_decide_unpack _).
Defined.

(** X16. A full snapshot after login, not empty, the uids pairwise
    distinct and none [-1]: the handler forgets the old mirror and the
    old echo map and runs a pass on the snapshot. The mirror afterwards
    is a permutation of the snapshot on which the sorter changes nothing,
    the commands emitted carry the snapshot to it, and, with auto-sort
    on, the fingerprints pending afterwards are exactly those of the
    commands just emitted; with auto-sort off none is pending. *)
Theorem onPlaylistCallback_installs_snapshot
    (context : Context) (response : list PlaylistItem) :
  loginSuccess context = true →
  response ≠ [] →
  NoDup (uid <$> response) →
  Forall (λ v, uid v ≠ -1) response →
  ∃ context' log,
    onPlaylistCallback context response = Returned context' log
    ∧ applyMoves (dispatched log) response = Some (VideoQueue context')
    ∧ VideoQueue context' ≡ₚ response
    ∧ roundRobinSortVideos context' = Some (VideoQueue context')
    ∧ (∀ key,
         moveVideoRefCounter context' !! key = Some true
         ↔ isAutoSortEnabled context = true
           ∧ ∃ d, d ∈ dispatched log ∧ key = JSON_stringify d).
Proof.
  intros Hlogin Hne Hnd Huid. unfold onPlaylistCallback. rewrite Hlogin.
  simpl negb. cbv iota zeta. simpl VideoQueue.
  destruct response as [|v response]; [done|].
  set (snapshot := v :: response) in *.
  destruct (resort_sync (withRefCounter (withVideoQueue context snapshot) ∅))
    as (context' & log & Hresort & Hmoves & Hperm & Hsorted); [done..|].
  exists context', log. split_and!; [done..|].
  intros key. apply resort_unfold, sortCytube_log in Hresort as [_ ->]. simpl.
  destruct (isAutoSortEnabled context).
  - rewrite recordAll_lookup, lookup_empty. split.
    + intros [?|?]; [done|]. by split.
    + intros [_ ?]. by right.
  - simpl. rewrite lookup_empty. split; [done|]. by intros [? _].
Qed.

Lemma onPlaylistCallback_installs_snapshot_witness :
  ∃ context' log,
    onPlaylistCallback (ctxOf true [mk 9 "z"]) [mk 1 "a"; mk 3 "a"; mk 2 "b"]
    = Returned context' log
    ∧ applyMoves (dispatched log) [mk 1 "a"; mk 3 "a"; mk 2 "b"]
      = Some (VideoQueue context')
    ∧ VideoQueue context' ≡ₚ [mk 1 "a"; mk 3 "a"; mk 2 "b"]
    ∧ roundRobinSortVideos context' = Some (VideoQueue context')
    ∧ (∀ key,
         moveVideoRefCounter context' !! key = Some true
         ↔ isAutoSortEnabled (ctxOf true [mk 9 "z"]) = true
           ∧ ∃ d, d ∈ dispatched log ∧ key = JSON_stringify d).
Proof.
  apply (onPlaylistCallback_installs_snapshot (ctxOf true [mk 9 "z"])
           [mk 1 "a"; mk 3 "a"; mk 2 "b"]).
  - reflexivity.
  - done.
  - by apply (bool_decide_unpack _).
  - by apply (bool_decide_unpack _).
Defined.

(** ** Chat commands *)

Section ChatFacts.
Implicit Types (context : BotContext) (response : ChatMsgResponse).

(** The map of commands has four entries: the second command named
    [!autoSort off] has taken the place of the first. *)
Lemma commandsMap_lookup key command :
  commandsMap !! key = Some command →
  (key = "!help"%string ∧ commands !! 0%nat = Some command)
  ∨ (key = "!sort"%string ∧ commands !! 1%nat = Some command)
  ∨ (key = "!autosort off"%string ∧ commands !! 3%nat = Some command)
  ∨ (key = "!die"%string ∧ commands !! 4%nat = Some command).
Proof.
  unfold commandsMap, commands. cbn [foldl name].
  change (JsString.trim (Js.toLowerCase "!help")) with "!help"%string.
  change (JsString.trim (Js.toLowerCase "!sort")) with "!sort"%string.
  change (JsString.trim (Js.toLowerCase "!autoSort off")) with "!autosort off"%string.
  change (JsString.trim (Js.toLowerCase "!die")) with "!die"%string.
  rewrite !lookup_insert, lookup_empty.
  repeat case_decide; subst; intros [= <-]; simpl; tauto.
Qed.

Lemma withCore_core context : withCore context (core context) = context.
Proof. by destruct context. Qed.

(** Everything [onChatMsgCallback] can do. *)
Lemma onChatMsgCallback_cases context response :
  onChatMsgCallback context response = BotReturned context []
  ∨ (readyHandleMessages context = false
     ∧ msg response = getInitString context
     ∧ onChatMsgCallback context response = BotReturned (withReady context true) [])
  ∨ onChatMsgCallback context response
    = BotReturned context [EmitChatMsg (helpText context commands)]
  ∨ (∃ part,
       isUserPrivledged (chat_username response) context = true
       ∧ onChatMsgCallback context response
         = BotReturned context
             [EmitChatMsg ("Command not found: `" +:+ part +:+ "`");
              EmitChatMsg (helpText context commands)])
  ∨ (readyHandleMessages context = true
     ∧ isUserPrivledged (chat_username response) context = true
     ∧ (onChatMsgCallback context response
        = BotReturned context [Core (Emit requestPlaylist)]
        ∨ onChatMsgCallback context response
          = BotReturned (withCore context (withAutoSort (core context) true))
                        [EmitChatMsg "Auto sorting turned on"]
        ∨ onChatMsgCallback context response
          = BotExited 0 [EmitChatMsg "Goodbye cruel world"])).
Proof.
  remember (onChatMsgCallback context response) as o eqn:Ho.
  revert Ho. unfold onChatMsgCallback.
  destruct (readyHandleMessages context) eqn:Hready; simpl negb; cbv iota.
  2:{ destruct (String.eqb_spec (msg response) (getInitString context));
      intros ->; [right; by left|by left]. }
  destruct (String.eqb (msg response) EmptyString); [intros ->; by left|].
  destruct (Js.startsWith _ _); simpl negb; cbv iota; [|intros ->; by left].
  cbv zeta.
  destruct (commandsMap !! _) as [command|] eqn:Hcommand.
  - apply commandsMap_lookup in Hcommand
      as [[_ [= <-]]|[[_ [= <-]]|[[_ [= <-]]|[_ [= <-]]]]];
      cbn [requiresPrivledge name commandImpl negb orb String.eqb Ascii.eqb
           Bool.eqb];
      unfold printHelpCommand, sendChatMessage, liftCore, ForceSortVideoQueue;
      cbn [fmap list_fmap]; rewrite ?withCore_core.
    + intros ->. right. right. by left.
    + destruct (isUserPrivledged _ _); intros ->; [|by left].
      do 4 right. split_and!; [done..|by left].
    + destruct (isUserPrivledged _ _); intros ->; [|by left].
      do 4 right. split_and!; [done..|right; by left].
    + destruct (isUserPrivledged _ _); intros ->; [|by left].
      do 4 right. split_and!; [done..|right; by right].
  - destruct (isUserPrivledged _ _); [|intros ->; by left].
    intros ->. right. right. right. left. by eexists.
Qed.

(** *** String facts for the command text *)

Lemma length_trimStart s : (String.length (JsString.trimStart s) ≤ String.length s)%nat.
Proof.
  induction s as [|c s IH]; [done|]. simpl.
  destruct (Ascii.is_space c); simpl; lia.
Qed.

(** A text that [trimStart] leaves alone stays so with a tail added,
    when the tail does not start with white space. *)
Lemma trimStart_append s t :
  JsString.trimStart s = s → JsString.trimStart t = t →
  JsString.trimStart (s +:+ t) = s +:+ t.
Proof.
  destruct s as [|c s]; [done|]. intros Hs _. rewrite append_cons.
  simpl in *. destruct (Ascii.is_space c); [|done].
  pose proof (length_trimStart s) as Hlen. rewrite Hs in Hlen. simpl in Hlen. lia.
Qed.

Lemma trimEnd_append s t :
  JsString.trimEnd t ≠ EmptyString →
  JsString.trimEnd (s +:+ t) = s +:+ JsString.trimEnd t.
Proof.
  intros Ht. induction s as [|c s IH]; [done|].
  rewrite !append_cons. simpl. rewrite IH.
  destruct (s +:+ JsString.trimEnd t) eqn:Heq; [|done].
  destruct s; [|done]. by destruct Ht.
Qed.

Lemma substring_append s t n :
  JsString.substring (String.length s + n) (s +:+ t) = JsString.substring n t.
Proof. induction s as [|c s IH]; [done|]. by rewrite append_cons. Qed.

Lemma append_nonempty s c t : String.eqb (s +:+ String c t) EmptyString = false.
Proof. by destruct s. Qed.

(** What the handler makes of [name:text], for a [name] without leading
    white space and a [text] without trailing white space: it looks
    [text] up, trimmed. *)
Lemma command_text (name text : string) :
  JsString.trimStart name = name →
  JsString.trimEnd text = text → text ≠ EmptyString →
  let message := (name +:+ ":" +:+ text)%string in
  String.eqb message EmptyString = false
  ∧ Js.startsWith (JsString.trim message) (name +:+ ":") = true
  ∧ JsString.trim (JsString.substring (String.length name + 1) (JsString.trim message))
    = JsString.trim text.
Proof.
  intros Hname Htext Hne message.
  assert (JsString.trim message = message) as ->.
  { unfold JsString.trim, message.
    rewrite trimStart_append by done.
    rewrite trimEnd_append; [f_equal; by rewrite (trimEnd_append ":"), Htext; [|congruence]|].
    rewrite (trimEnd_append ":"), Htext; [done|congruence]. }
  split_and!.
  - apply append_nonempty.
  - apply startsWith_spec. exists text. by rewrite append_assoc.
  - unfold message. by rewrite substring_append.
Qed.

(** X17. A chat message never throws and never touches the queue side of
    the context: whatever the text and whoever the sender, the mirror,
    the pending echoes, the login flag, the ranks, the configuration and
    the session id are as before, and the only things sent are chat
    messages and the request for a fresh playlist. The one way out other
    than returning is [!die], which says goodbye and exits with code 0. *)
Theorem onChatMsgCallback_leaves_the_queue_alone context response :
  match onChatMsgCallback context response with
  | BotReturned context' log =>
      VideoQueue (core context') = VideoQueue (core context)
      ∧ moveVideoRefCounter (core context') = moveVideoRefCounter (core context)
      ∧ loginSuccess (core context') = loginSuccess (core context)
      ∧ userRankMap context' = userRankMap context
      ∧ botConfig context' = botConfig context
      ∧ botSessionId context' = botSessionId context
      ∧ Forall chatOrResync log
  | BotExited code log =>
      code = 0 ∧ log = [EmitChatMsg "Goodbye cruel world"]
      ∧ isUserPrivledged (chat_username response) context = true
  | BotThrew _ => False
  end.
Proof.
  destruct (onChatMsgCallback_cases context response)
    as [->|[(_ & _ & ->)|[->|[(part & _ & ->)|(_ & Hp & [->|[->| ->]])]]]];
    simpl; split_and!; try done; repeat constructor.
Qed.

(** X18. No chat message switches auto-sort off: when it is on before a
    message is handled, it is on afterwards. (The command that would
    switch it off is shadowed in the command map by the later command of
    the same name.) A bot that is ready stays ready, too. *)
Theorem onChatMsgCallback_never_disables_autosort context response context' log :
  isAutoSortEnabled (core context) = true →
  onChatMsgCallback context response = BotReturned context' log →
  isAutoSortEnabled (core context') = true
  ∧ (readyHandleMessages context = true → readyHandleMessages context' = true).
Proof.
  intros Hauto.
  destruct (onChatMsgCallback_cases context response)
    as [->|[(_ & _ & ->)|[->|[(part & _ & ->)|(_ & Hp & [->|[->| ->]])]]]];
    intros [= <- <-]; done.
Qed.

Lemma onChatMsgCallback_never_disables_autosort_witness :
  isAutoSortEnabled
    (core (withCore sampleBot (withAutoSort (core sampleBot) true))) = true
  ∧ (readyHandleMessages sampleBot = true →
     readyHandleMessages
       (withCore sampleBot (withAutoSort (core sampleBot) true)) = true).
Proof.
  apply (onChatMsgCallback_never_disables_autosort sampleBot
           {| chat_username := "mod"; msg := "bot: !autosort off" |}
           _ [EmitChatMsg "Auto sorting turned on"]); [done|by vm_compute].
Defined.

(** X19. What [!autoSort off] does. For a bot that is ready, whose name
    has no leading white space, and a sender with the rank for
    privileged commands: the message [name: !autosort off] switches
    auto-sort ON and answers "Auto sorting turned on"; the same command
    spelled as the help text prints it, [name: !autoSort off], is not
    found, since the map is keyed by lower-case names and the text is
    looked up as typed. *)
Theorem autosort_off_command context sender :
  readyHandleMessages context = true →
  JsString.trimStart (username (botConfig context)) = username (botConfig context) →
  isUserPrivledged sender context = true →
  onChatMsgCallback context
    {| chat_username := sender;
       msg := username (botConfig context) +:+ ": !autosort off" |}
  = BotReturned (withCore context (withAutoSort (core context) true))
                [EmitChatMsg "Auto sorting turned on"]
  ∧ onChatMsgCallback context
      {| chat_username := sender;
         msg := username (botConfig context) +:+ ": !autoSort off" |}
    = BotReturned context
        [EmitChatMsg "Command not found: `!autoSort off`";
         EmitChatMsg (helpText context commands)].
Proof.
  intros Hready Hname Hp. split.
  - destruct (command_text (username (botConfig context)) " !autosort off")
      as (Hne & Hstart & Hpart); [done..|].
    unfold onChatMsgCallback. rewrite Hready. cbn [negb chat_username msg].
    change (username (botConfig context) +:+ ": !autosort off")%string
      with (username (botConfig context) +:+ ":" +:+ " !autosort off")%string.
    cbv zeta in Hne, Hstart, Hpart. rewrite Hne, Hstart, Hpart, Hp. by vm_compute.
  - destruct (command_text (username (botConfig context)) " !autoSort off")
      as (Hne & Hstart & Hpart); [done..|].
    unfold onChatMsgCallback. rewrite Hready. cbn [negb chat_username msg].
    change (username (botConfig context) +:+ ": !autoSort off")%string
      with (username (botConfig context) +:+ ":" +:+ " !autoSort off")%string.
    cbv zeta in Hne, Hstart, Hpart. rewrite Hne, Hstart, Hpart, Hp.
    change (JsString.trim " !autoSort off") with "!autoSort off"%string.
    destruct (commandsMap !! "!autoSort off"%string) as [command|] eqn:Hcommand; [|done].
    by apply commandsMap_lookup in Hcommand as [[? _]|[[? _]|[[? _]|[? _]]]].
Qed.

Lemma autosort_off_command_witness :
  onChatMsgCallback sampleBot
    {| chat_username := "mod";
       msg := username (botConfig sampleBot) +:+ ": !autosort off" |}
  = BotReturned (withCore sampleBot (withAutoSort (core sampleBot) true))
                [EmitChatMsg "Auto sorting turned on"]
  ∧ onChatMsgCallback sampleBot
      {| chat_username := "mod";
         msg := username (botConfig sampleBot) +:+ ": !autoSort off" |}
    = BotReturned sampleBot
        [EmitChatMsg "Command not found: `!autoSort off`";
         EmitChatMsg (helpText sampleBot commands)].
Proof. apply (autosort_off_command sampleBot "mod"); reflexivity. Defined.

(** X20. The other commands. For a bot that is ready and whose name has
    no leading white space: [name: !help] gets the help text, whoever
    asks; from a sender with the rank for privileged commands,
    [name: !sort] sends the request for a fresh playlist and nothing
    else (the sorting is left to the playlist handler), and [name: !die]
    says goodbye and ends the process with exit code 0. None of them
    changes the context. *)
Theorem help_sort_and_die context sender :
  readyHandleMessages context = true →
  JsString.trimStart (username (botConfig context)) = username (botConfig context) →
  onChatMsgCallback context
    {| chat_username := sender; msg := username (botConfig context) +:+ ": !help" |}
  = BotReturned context [EmitChatMsg (helpText context commands)]
  ∧ (isUserPrivledged sender context = true →
     onChatMsgCallback context
       {| chat_username := sender; msg := username (botConfig context) +:+ ": !sort" |}
     = BotReturned context [Core (Emit requestPlaylist)]
     ∧ onChatMsgCallback context
         {| chat_username := sender; msg := username (botConfig context) +:+ ": !die" |}
       = BotExited 0 [EmitChatMsg "Goodbye cruel world"]).
Proof.
  intros Hready Hname. split; [|intros Hp; split].
  - destruct (command_text (username (botConfig context)) " !help")
      as (Hne & Hstart & Hpart); [done..|].
    unfold onChatMsgCallback. rewrite Hready. cbn [negb chat_username msg].
    change (username (botConfig context) +:+ ": !help")%string
      with (username (botConfig context) +:+ ":" +:+ " !help")%string.
    cbv zeta in Hne, Hstart, Hpart. rewrite Hne, Hstart, Hpart. by vm_compute.
  - destruct (command_text (username (botConfig context)) " !sort")
      as (Hne & Hstart & Hpart); [done..|].
    unfold onChatMsgCallback. rewrite Hready. cbn [negb chat_username msg].
    change (username (botConfig context) +:+ ": !sort")%string
      with (username (botConfig context) +:+ ":" +:+ " !sort")%string.
    cbv zeta in Hne, Hstart, Hpart. rewrite Hne, Hstart, Hpart, Hp.
    rewrite <- (withCore_core context) at 2. by vm_compute.
  - destruct (command_text (username (botConfig context)) " !die")
      as (Hne & Hstart & Hpart); [done..|].
    unfold onChatMsgCallback. rewrite Hready. cbn [negb chat_username msg].
    change (username (botConfig context) +:+ ": !die")%string
      with (username (botConfig context) +:+ ":" +:+ " !die")%string.
    cbv zeta in Hne, Hstart, Hpart. rewrite Hne, Hstart, Hpart, Hp. by vm_compute.
Qed.

Lemma help_sort_and_die_witness :
  onChatMsgCallback sampleBot
    {| chat_username := "mod"; msg := username (botConfig sampleBot) +:+ ": !help" |}
  = BotReturned sampleBot [EmitChatMsg (helpText sampleBot commands)]
  ∧ (isUserPrivledged "mod" sampleBot = true →
     onChatMsgCallback sampleBot
       {| chat_username := "mod"; msg := username (botConfig sampleBot) +:+ ": !sort" |}
     = BotReturned sampleBot [Core (Emit requestPlaylist)]
     ∧ onChatMsgCallback sampleBot
         {| chat_username := "mod"; msg := username (botConfig sampleBot) +:+ ": !die" |}
       = BotExited 0 [EmitChatMsg "Goodbye cruel world"]).
Proof. apply (help_sort_and_die sampleBot "mod"); reflexivity. Defined.

(** X21. A sender without the rank for privileged commands, the bot
    itself included, gets at most the help text: the context is as
    before, apart from the bot becoming ready on its own greeting. *)
Theorem unprivileged_sender_gets_help_only context response :
  isUserPrivledged (chat_username response) context = false →
  onChatMsgCallback context response = BotReturned context []
  ∨ onChatMsgCallback context response = BotReturned (withReady context true) []
  ∨ onChatMsgCallback context response
    = BotReturned context [EmitChatMsg (helpText context commands)].
Proof.
  intros Hp.
  destruct (onChatMsgCallback_cases context response)
    as [->|[(_ & _ & ->)|[->|[(part & ? & _)|(_ & ? & _)]]]];
    try congruence; auto.
Qed.

Lemma unprivileged_sender_gets_help_only_witness :
  onChatMsgCallback sampleBot {| chat_username := "bot"; msg := "bot: !die" |}
  = BotReturned sampleBot []
  ∨ onChatMsgCallback sampleBot {| chat_username := "bot"; msg := "bot: !die" |}
    = BotReturned (withReady sampleBot true) []
  ∨ onChatMsgCallback sampleBot {| chat_username := "bot"; msg := "bot: !die" |}
    = BotReturned sampleBot [EmitChatMsg (helpText sampleBot commands)].
Proof.
  apply (unprivileged_sender_gets_help_only sampleBot
           {| chat_username := "bot"; msg := "bot: !die" |}).
  reflexivity.
Defined.
End ChatFacts.

(** ** Login, ranks and the session *)

Section SessionFacts.
Implicit Types (context : BotContext) (response : ChatMsgResponse).

(** X22. The login handshake. A successful login marks the context as
    logged in and sends one chat message, the greeting with the session
    id. While the bot is not ready, that greeting coming back (from any
    sender) is what makes it ready, without an answer, and every other
    chat message is dropped, commands from privileged users included. *)
Theorem login_handshake context (login : LoginResponse) :
  success login = true →
  readyHandleMessages context = false →
  ∃ context',
    onLoginCallback context login
    = BotReturned context' [EmitChatMsg (getInitString context)]
    ∧ loginSuccess (core context') = true
    ∧ VideoQueue (core context') = VideoQueue (core context)
    ∧ (∀ sender,
         onChatMsgCallback context'
           {| chat_username := sender; msg := getInitString context |}
         = BotReturned (withReady context' true) [])
    ∧ (∀ response,
         msg response ≠ getInitString context →
         onChatMsgCallback context' response = BotReturned context' []).
Proof.
  intros Hsuccess Hready. unfold onLoginCallback. rewrite Hsuccess.
  eexists. split; [done|]. split_and!; [done..| |].
  - intros sender. unfold onChatMsgCallback. simpl. rewrite Hready. simpl.
    by rewrite String.eqb_refl.
  - intros response Hmsg. unfold onChatMsgCallback. simpl. rewrite Hready. simpl.
    destruct (String.eqb _ _) eqn:Heq; [|done].
    apply String.eqb_eq in Heq. by destruct Hmsg.
Qed.

Lemma login_handshake_witness :
  ∃ context',
    onLoginCallback (initialContext sampleConfig "0.42")
                    {| success := true; login_name := "bot" |}
    = BotReturned context'
        [EmitChatMsg (getInitString (initialContext sampleConfig "0.42"))]
    ∧ loginSuccess (core context') = true
    ∧ VideoQueue (core context')
      = VideoQueue (core (initialContext sampleConfig "0.42"))
    ∧ (∀ sender,
         onChatMsgCallback context'
           {| chat_username := sender;
              msg := getInitString (initialContext sampleConfig "0.42") |}
         = BotReturned (withReady context' true) [])
    ∧ (∀ response,
         msg response ≠ getInitString (initialContext sampleConfig "0.42") →
         onChatMsgCallback context' response = BotReturned context' []).
Proof.
  apply (login_handshake (initialContext sampleConfig "0.42")
           {| success := true; login_name := "bot" |}); reflexivity.
Defined.

(** X23. [onSetUserRank] and [isUserPrivledged]. After a rank
    notification for a user, that user is privileged exactly when the
    name is not the bot's own and the new rank reaches the configured
    minimum; whether anybody else is privileged is as before. *)
Theorem onSetUserRank_sets_one_rank context (entry : UserEntry) :
  ∃ context',
    onSetUserRank context entry = BotReturned context' []
    ∧ core context' = core context
    ∧ (isUserPrivledged (user_name entry) context' = true
       ↔ user_name entry ≠ username (botConfig context)
         ∧ (minUserRankForPrivledgedCommands (botConfig context) <= user_rank entry)%Q)
    ∧ ∀ sender, sender ≠ user_name entry →
        isUserPrivledged sender context' = isUserPrivledged sender context.
Proof.
  eexists. split; [done|]. split_and!; [done| |].
  - unfold isUserPrivledged. simpl. rewrite lookup_insert_eq. simpl.
    destruct (String.eqb_spec (user_name entry) (username (botConfig context))).
    + split; [done|]. by intros [? _].
    + rewrite Qle_bool_iff. tauto.
  - intros sender Hsender. unfold isUserPrivledged. simpl.
    by rewrite lookup_insert_ne.
Qed.

Lemma lookup_userlist (response : list UserEntry) (who : string) :
  foldl (λ rankMap user, <[user_name user := user_rank user]> rankMap)
        (∅ : gmap string Q) response !! who
  = lastRank response who.
Proof.
  unfold lastRank.
  induction response as [|user response IH] using rev_ind; [done|].
  rewrite foldl_snoc, filter_app, filter_cons, filter_nil.
  destruct (decide (user_name user = who)) as [<-|Hne].
  - by rewrite lookup_insert_eq, last_snoc.
  - rewrite lookup_insert_ne by done. by rewrite app_nil_r.
Qed.

(** X24. [onUserlistCallback] replaces the ranks: afterwards a user has
    the rank of the last entry of the list with that name, and a user
    the list does not name has no rank, whatever was known before, and
    so counts as rank 0. *)
Theorem onUserlistCallback_last_entry_wins context (response : list UserEntry) :
  ∃ context',
    onUserlistCallback context response = BotReturned context' []
    ∧ core context' = core context
    ∧ (∀ who, userRankMap context' !! who = lastRank response who)
    ∧ ∀ who, who ∉ user_name <$> response →
        isUserPrivledged who context'
        = (negb (String.eqb who (username (botConfig context)))
           && Qle_bool (minUserRankForPrivledgedCommands (botConfig context)) 0)%bool.
Proof.
  eexists. split; [done|]. split_and!; [done|intros; apply lookup_userlist|].
  intros who Hwho. unfold isUserPrivledged. simpl. rewrite lookup_userlist.
  assert (lastRank response who = None) as ->; [|by destruct (String.eqb _ _)].
  unfold lastRank. destruct (last _) as [user|] eqn:Hlast; [|done].
  apply last_Some in Hlast as [l Hl].
  assert (user ∈ filter (λ user, user_name user = who) response) as Hin
    by (rewrite Hl; apply elem_of_app; right; by apply list_elem_of_singleton).
  apply list_elem_of_filter in Hin as [<- Hin].
  destruct Hwho. by apply list_elem_of_fmap_2.
Qed.

(** What a session keeps: auto-sort on, the mirror in round-robin order,
    the configuration and the session id. *)
Lemma liftCore_resort context (c : Context) context' log :
  isAutoSortEnabled c = true →
  liftCore context (resort c) = BotReturned context' log →
  isAutoSortEnabled (core context') = true
  ∧ inRoundRobinOrder (core context')
  ∧ botConfig context' = botConfig context
  ∧ botSessionId context' = botSessionId context.
Proof.
  intros Hauto.
  destruct (resort_result c) as (c' & log' & -> & _ & Horder & Hauto' & _).
  simpl. intros [= <- <-]. simpl. split_and!; [congruence|done..].
Qed.

Lemma inRoundRobinOrder_queue (c c' : Context) :
  VideoQueue c' = VideoQueue c → inRoundRobinOrder c → inRoundRobinOrder c'.
Proof.
  unfold inRoundRobinOrder. rewrite !roundRobinSortVideos_interleave.
  by intros ->.
Qed.

Lemma dispatch_keeps context (n : Notification) context' log :
  isAutoSortEnabled (core context) = true →
  inRoundRobinOrder (core context) →
  dispatch context n = BotReturned context' log →
  isAutoSortEnabled (core context') = true
  ∧ inRoundRobinOrder (core context')
  ∧ botConfig context' = botConfig context
  ∧ botSessionId context' = botSessionId context.
Proof.
  intros Hauto Horder. destruct n; simpl.
  - unfold onLoginCallback. destruct (success response); [|done].
    intros [= <- <-]. simpl. split_and!; [done| |done..].
    by apply (inRoundRobinOrder_queue (core context)).
  - unfold onPlaylistCallback. destruct (negb _).
    { simpl. intros [= <- <-]. by rewrite withCore_core. }
    cbv zeta. destruct response as [|video response].
    + simpl. intros [= <- <-]. simpl. split_and!; [done| |done..].
      unfold inRoundRobinOrder. by rewrite roundRobinSortVideos_interleave.
    + cbn [VideoQueue withVideoQueue]. by apply liftCore_resort.
  - intros [= <- <-]. done.
  - intros [= <- <-]. done.
  - destruct (onChatMsgCallback_cases context response)
      as [->|[(_ & _ & ->)|[->|[(part & _ & ->)|(_ & _ & [->|[->| ->]])]]]];
      by intros [= <- <-].
  - unfold onMoveVideoCallback. rewrite Hauto. simpl negb. cbv iota zeta.
    destruct (moveVideoRefCounter _ !! _) as [[]|].
    + simpl. intros [= <- <-]. simpl. split_and!; [done| |done..].
      by apply (inRoundRobinOrder_queue (core context)).
    + destruct (relocateBy _ _ _); [|done]. by apply liftCore_resort.
    + destruct (relocateBy _ _ _); [|done]. by apply liftCore_resort.
  - rewrite onDeleteCallback_enabled by done. by apply liftCore_resort.
  - rewrite onQueueCallback_unfold. by apply liftCore_resort.
  - done.
  - intros [= <- <-]. done.
  - intros [= <- <-]. done.
  - unfold onErrorMsg. cbv zeta. destruct (existsb _ _); [done|].
    simpl. intros [= <- <-]. by rewrite withCore_core.
Qed.

(** X25. What a session keeps. Start from the context [main] builds and
    let any notifications arrive, in any order and with any payloads. As
    long as no handler has thrown or ended the process: auto-sort is on
    (no notification can switch it off), the mirror is in round-robin
    order, and the configuration and the session id are those [main]
    started with. *)
Theorem session_keeps_autosort_and_order
    (config : Config) (botSeshId : string) (ns : list Notification)
    context log :
  run ns (initialContext config botSeshId) = BotReturned context log →
  isAutoSortEnabled (core context) = true
  ∧ inRoundRobinOrder (core context)
  ∧ botConfig context = config
  ∧ botSessionId context = botSeshId.
Proof.
  assert (∀ start,
            isAutoSortEnabled (core start) = true →
            inRoundRobinOrder (core start) →
            run ns start = BotReturned context log →
            isAutoSortEnabled (core context) = true
            ∧ inRoundRobinOrder (core context)
            ∧ botConfig context = botConfig start
            ∧ botSessionId context = botSessionId start) as Hrun.
  { revert log. induction ns as [|n ns IH]; intros log start Hauto Horder; simpl.
    - by intros [= <- <-].
    - destruct (dispatch start n) as [next log1| |] eqn:Hstep; [|done..].
      apply dispatch_keeps in Hstep as (Hauto1 & Horder1 & Hconfig & Hid); [|done..].
      destruct (run ns next) as [last log2| |] eqn:Hrest; [|done..].
      intros [= <- <-].
      apply IH in Hrest as (? & ? & ? & ?); [|done..].
      split_and!; congruence. }
  intros Hreturned. by apply Hrun in Hreturned.
Qed.

Lemma session_keeps_autosort_and_order_witness :
  isAutoSortEnabled (core sessionEnd) = true
  ∧ inRoundRobinOrder (core sessionEnd)
  ∧ botConfig sessionEnd = sampleConfig
  ∧ botSessionId sessionEnd = "0.42"%string.
Proof.
  apply (session_keeps_autosort_and_order sampleConfig "0.42" sampleSession
           sessionEnd sessionLog).
  by vm_compute.
Defined.
End SessionFacts.

(** ** Where the handlers throw *)

Section Throws.
Implicit Types (context : Context) (target toSort : list PlaylistItem).

Lemma get_out_of_range {A} (l : list A) i :
  Z.of_nat (length l) ≤ i → Js.get l i = None.
Proof.
  intros Hi. unfold Js.get. rewrite (proj2 (Z.ltb_ge _ _)) by lia.
  apply lookup_ge_None. lia.
Qed.

(** The loop throws when the target reaches past the working copy: the
    working copy keeps its length, and so [toSortPlaylist[i]] is
    [undefined] at the first index it does not have. *)
Lemma sortLoop_throws autoSort rest : ∀ i prev toSort refs,
  0 ≤ i ≤ Z.of_nat (length toSort) →
  Z.of_nat (length toSort) < i + Z.of_nat (length rest) →
  sortLoop autoSort rest i prev toSort refs = None.
Proof.
  induction rest as [|s rest IH]; intros i prev toSort refs Hi Hlen;
    [simpl in Hlen; lia|].
  simpl length in Hlen. rewrite sortLoop_cons.
  destruct (Js.get toSort i) as [t|] eqn:Hget; [|done].
  assert (0 ≤ i < Z.of_nat (length toSort)) as Hin.
  { destruct (Z.lt_ge_cases i (Z.of_nat (length toSort))) as [|Hge]; [lia|].
    rewrite get_out_of_range in Hget by done. done. }
  destruct (negb (prev =? -1) && negb (uid s =? uid t)); [|apply IH; lia].
  cbv zeta.
  destruct (splice_delete_one toSort (Js.findIndex (hasUid (uid s)) toSort))
    as (v & toSort1 & -> & Hlen1).
  { intros ->. simpl in Hin. lia. }
  { apply findIndex_range. }
  pose proof (splice_insert_length toSort1 i v) as Hlen2.
  destruct (Js.splice toSort1 i 0 [v]) as [? toSort2]. simpl in Hlen2.
  rewrite IH; [done|lia..].
Qed.

(** X26. When [sortCytube] throws: exactly when the target has more
    videos than the mirror. With a target no longer than the mirror it
    returns, whatever the videos are; with a longer one it reads
    [toSortPlaylist[i].uid] past the end of its working copy. *)
Theorem sortCytube_throws_iff context target :
  sortCytube context target = Threw TypeError
  ↔ (length (VideoQueue context) < length target)%nat.
Proof.
  unfold sortCytube. split.
  - intros Hthrew.
    destruct (decide (length (VideoQueue context) < length target)%nat)
      as [|Hle]; [done|].
    destruct (sortLoop_total (isAutoSortEnabled context) target 0 (-1)
                (VideoQueue context) (moveVideoRefCounter context))
      as [[refs log] Hloop]; [lia..|].
    by rewrite Hloop in Hthrew.
  - intros Hlt. rewrite sortLoop_throws; [done|lia..].
Qed.

Lemma relocateBy_None (isFrom isAfter : PlaylistItem → bool) queue :
  Forall (λ v, isFrom v = false) queue → relocateBy isFrom isAfter queue = None.
Proof.
  intros Hall. unfold relocateBy. rewrite findIndex_none by done.
  by destruct (Js.splice queue (-1) 1 []).
Qed.

(** X27. A move notification from outside for a video the mirror does not
    have: with auto-sort on, the text of the arriving object not pending,
    and a [from] that is the uid of no video of the mirror, or no [from]
    at all, the handler throws. [VideoQueue[-1]] is [undefined], that is
    what gets inserted, and the sorter fails on it. *)
Theorem onMoveVideoCallback_unknown_video_throws context (response : JsObject.t) :
  isAutoSortEnabled context = true →
  moveVideoRefCounter context !! JsObject.stringify response ≠ Some true →
  (∀ u, JsObject.property response "from" = Some u → u ∉ (uid <$> VideoQueue context)) →
  onMoveVideoCallback context response = Threw TypeError.
Proof.
  intros Hauto Hecho Hfrom.
  rewrite onMoveVideoCallback_external by done. unfold externalMove.
  rewrite relocateBy_None; [done|].
  apply Forall_forall. intros v Hv.
  destruct (JsObject.property response "from") as [u|]; [|done].
  simpl. apply Z.eqb_neq. intros Heq. apply (Hfrom u); [done|].
  rewrite <- Heq. by apply list_elem_of_fmap_2.
Qed.

Lemma onMoveVideoCallback_unknown_video_throws_witness :
  onMoveVideoCallback (ctxOf true [mk 1 "ann"; mk 2 "bob"])
                      (objectOf {| from := 7; after := 1 |})
  = Threw TypeError.
Proof.
  apply (onMoveVideoCallback_unknown_video_throws
           (ctxOf true [mk 1 "ann"; mk 2 "bob"])
           (objectOf {| from := 7; after := 1 |})).
  - reflexivity.
  - by vm_compute.
  - intros u [= <-]. by apply (bool_decide_unpack _).
Defined.
End Throws.
